(** * A retrieval-augmented chat service: chunker, vector store, prompt
      assembly and stream decoding

    Shallow embedding of
    - [splitMarkdown] (rag/markdown.ts),
    - [InMemoryVectorStore], [cosine] and [OllamaEmbeddings.embed]
      (rag/embeddings.store.ts),
    - [OllamaService] (ollama/ollama.service.ts): [indexDocuments],
      [retrieveContext], [buildPromptWithRetrieval], [streamChat], [chat],
    - [OllamaController.chat] (ollama/ollama.controller.ts): the checks of
      the request body and the lines written on the response.

    JavaScript strings are sequences of UTF-16 code units; [length], [slice],
    [trim] and the regular expressions of the source (none has the [u] flag)
    all work on code units, so a string is a [list N] here. *)

From Stdlib Require Import String Ascii DecimalString.
From Stdlib Require Import List ZArith NArith Lia Bool Floats.
From Stdlib Require Import Sorted Permutation.
Import ListNotations.

Set Implicit Arguments.

(* ------------------------------------------------------------------ *)
(** ** JavaScript strings *)

Module JsString.

Definition jsstring := list N.

(** An ASCII literal as a JavaScript string. *)
Definition lit (s : string) : jsstring :=
  map N_of_ascii (list_ascii_of_string s).

(** The same, with every apostrophe of [s] read as a double quote, so that
    JSON text can be written down. *)
Definition json_lit (s : string) : jsstring :=
  map (fun c => if (c =? 39)%N then 34%N else c) (lit s).

Definition LF : N := 10.
Definition CR : N := 13.
Definition HASH : N := 35.

(** ECMAScript LineTerminator: LF, CR, U+2028, U+2029. The regular
    expression atom [.] matches every code unit but these. *)
Definition isLineTerminator (c : N) : bool :=
  ((c =? 10) || (c =? 13) || (c =? 8232) || (c =? 8233))%N.

(** What [String.prototype.trim] strips and [\s] matches: WhiteSpace
    (TAB, VT, FF, U+FEFF and the space separators) and LineTerminator. *)
Definition isWhiteSpace (c : N) : bool :=
  ((c =? 9) || (c =? 11) || (c =? 12) || (c =? 32) || (c =? 160)
   || (c =? 5760) || ((8192 <=? c) && (c <=? 8202)) || (c =? 8239)
   || (c =? 8287) || (c =? 12288) || (c =? 65279))%N
  || isLineTerminator c.

Fixpoint trimStart (s : jsstring) : jsstring :=
  match s with
  | [] => []
  | c :: r => if isWhiteSpace c then trimStart r else s
  end.

Definition trimEnd (s : jsstring) : jsstring := rev (trimStart (rev s)).

Definition trim (s : jsstring) : jsstring := trimEnd (trimStart s).

(** A string is truthy when it is not empty. *)
Definition nonEmpty (s : jsstring) : bool :=
  match s with [] => false | _ :: _ => true end.

(** [Array.prototype.join] on an array of strings. *)
Fixpoint join (sep : jsstring) (l : list jsstring) : jsstring :=
  match l with
  | [] => []
  | [x] => x
  | x :: r => x ++ sep ++ join sep r
  end.

(** [slice(start, end)] of strings and arrays: a negative index counts from
    the end, both are clamped to the length. *)
Definition slice {A} (s : list A) (start end_ : Z) : list A :=
  let len := Z.of_nat (length s) in
  let from := if (start <? 0)%Z then Z.max (len + start) 0 else Z.min start len in
  let to := if (end_ <? 0)%Z then Z.max (len + end_) 0 else Z.min end_ len in
  firstn (Z.to_nat (to - from)) (skipn (Z.to_nat from) s).

Fixpoint startsWith (s prefix : jsstring) : bool :=
  match prefix, s with
  | [], _ => true
  | p :: ps, c :: r => (c =? p)%N && startsWith r ps
  | _ :: _, [] => false
  end.

Definition cons_hd (c : N) (ls : list jsstring) : list jsstring :=
  match ls with
  | [] => [[c]]
  | l :: ls' => (c :: l) :: ls'
  end.

(** [s.split(/\r?\n/)]: a line ends at LF or at CR LF; the empty string
    splits into one empty line. *)
Fixpoint split_lines (s : jsstring) : list jsstring :=
  match s with
  | [] => [[]]
  | c :: r =>
      if (c =? LF)%N then [] :: split_lines r
      else
        match r with
        | d :: r' =>
            if ((c =? CR) && (d =? LF))%N then [] :: split_lines r'
            else cons_hd c (split_lines r)
        | [] => cons_hd c (split_lines r)
        end
  end.

(** Whether a CR is followed at once by an LF somewhere in [s]. *)
Fixpoint has_CRLF (s : jsstring) : bool :=
  match s with
  | [] => false
  | c :: r =>
      match r with
      | d :: _ => ((c =? CR) && (d =? LF))%N || has_CRLF r
      | [] => false
      end
  end.

(** Decimal rendering of a natural number (template-literal interpolation
    of a non-negative integer). *)
Definition decimal (n : nat) : jsstring :=
  lit (NilZero.string_of_uint (Nat.to_uint n)).

(** The code units of [s] that are not white space, in order. *)
Definition nonWhite (s : jsstring) : jsstring :=
  filter (fun c => negb (isWhiteSpace c)) s.

Definition allWhite (s : jsstring) : Prop := Forall (fun c => isWhiteSpace c = true) s.

End JsString.
Import JsString.

(* ------------------------------------------------------------------ *)
(** ** The chunker: rag/markdown.ts *)

Module Markdown.

Record MdChunk := mkChunk { text : jsstring; section : option jsstring }.

(** Number of leading code units of [s] that satisfy [p]. *)
Fixpoint leading (p : N -> bool) (s : jsstring) : nat :=
  match s with
  | c :: r => if p c then S (leading p r) else 0
  | [] => 0
  end.

(** The tail [\s+(.+)$] of the heading pattern on [t], with [\s+]
    consuming [j] code units, then [j-1], ... down to one (backtracking of
    the greedy quantifier): the capture is what remains, it must be
    non-empty and free of line terminators. *)
Fixpoint heading_tail (j : nat) (t : jsstring) : option jsstring :=
  match j with
  | O => None
  | S j' =>
      let capture := skipn j t in
      if nonEmpty capture && forallb (fun c => negb (isLineTerminator c)) capture
      then Some capture
      else heading_tail j' t
  end.

(** [line.match(/^#{2,6}\s+(.+)$/)], returning capture group 1. The run of
    hashes must be followed by white space, and a hash is none: the pattern
    can only match when the whole leading run has 2 to 6 hashes. *)
Definition match_heading (line : jsstring) : option jsstring :=
  let n := leading (N.eqb HASH) line in
  if (2 <=? n)%nat && (n <=? 6)%nat
  then let t := skipn n line in heading_tail (leading isWhiteSpace t) t
  else None.

Record SplitState := mkState {
  chunks : list MdChunk;
  buf : list jsstring;
  currentSection : option jsstring
}.

(** The closure [push]: flush the buffer as one chunk unless its trimmed
    text is empty. *)
Definition push (st : SplitState) : SplitState :=
  match buf st with
  | [] => st
  | _ :: _ =>
      let text := trim (join [LF] (buf st)) in
      mkState
        (if nonEmpty text then chunks st ++ [mkChunk text (currentSection st)]
         else chunks st)
        [] (currentSection st)
  end.

(** [for (let i = 0; i < text.length; i += maxLen) parts.push(text.slice(i, i + maxLen))]
    from index [i]. The loop runs at most [fuel] times; [None] when it has
    not finished by then. *)
Fixpoint slices_from (fuel : nat) (text : jsstring) (maxLen i : Z)
  : option (list jsstring) :=
  if (i <? Z.of_nat (length text))%Z then
    match fuel with
    | O => None
    | S fuel' =>
        match slices_from fuel' text maxLen (i + maxLen) with
        | Some parts => Some (slice text i (i + maxLen) :: parts)
        | None => None
        end
    end
  else Some [].

(** With [maxLen >= 1] the loop ends within [length text] rounds; with
    [maxLen <= 0] on a non-empty text it never ends (see [slices_diverges]),
    which is the [None] here. *)
Definition slices (text : jsstring) (maxLen : Z) : option (list jsstring) :=
  slices_from (length text) text maxLen 0.

(** One round of the loop over the lines. *)
Definition step (maxLen overlap : Z) (st : SplitState) (line : jsstring)
  : option SplitState :=
  let st1 :=
    match match_heading line with
    | Some h1 =>
        let st' := push st in
        mkState (chunks st') (buf st') (Some (trim h1))
    | None => st
    end in
  let buf2 := buf st1 ++ [line] in
  if (Z.of_nat (length (join [LF] buf2)) >? maxLen + overlap)%Z then
    let text := join [LF] buf2 in
    match slices text maxLen with
    | Some parts =>
        Some (mkState
                (chunks st1 ++ map (fun p => mkChunk (trim p) (currentSection st1)) parts)
                [] (currentSection st1))
    | None => None
    end
  else Some (mkState (chunks st1) buf2 (currentSection st1)).

Fixpoint loop (maxLen overlap : Z) (st : SplitState) (lines : list jsstring)
  : option SplitState :=
  match lines with
  | [] => Some st
  | line :: rest =>
      match step maxLen overlap st line with
      | Some st' => loop maxLen overlap st' rest
      | None => None
      end
  end.

(** [splitMarkdown(md, maxLen, overlap)]; [None] when the slicing loop does
    not terminate. *)
Definition splitMarkdown (md : jsstring) (maxLen overlap : Z)
  : option (list MdChunk) :=
  match loop maxLen overlap (mkState [] [] None) (split_lines md) with
  | Some st => Some (chunks (push st))
  | None => None
  end.

(** [texts] can be read off [s] in order, separated (and surrounded) by
    runs of white space only. *)
Inductive Scattered : list jsstring -> jsstring -> Prop :=
| Scattered_nil w : allWhite w -> Scattered [] w
| Scattered_cons w t ts rest :
    allWhite w -> Scattered ts rest -> Scattered (t :: ts) (w ++ t ++ rest).

End Markdown.
Import Markdown.


(* ------------------------------------------------------------------ *)
(** ** JavaScript values

    What [JSON.parse] and the HTTP client hand to the program is untyped
    data; the TypeScript annotations ([OllamaStreamChunk], [number[]]) are
    erased at run time and the casts ([as OllamaStreamChunk],
    [as number[]]) check nothing. Numbers are IEEE 754 doubles. *)

Module Js.

#[warnings="-register-all"]
Inductive jsval : Type :=
| JUndefined
| JNull
| JBool (b : bool)
| JNum (x : float)
| JStr (s : jsstring)
| JArr (elems : list jsval)
| JObj (props : list (jsstring * jsval)).

Fixpoint str_eqb (a b : jsstring) : bool :=
  match a, b with
  | [], [] => true
  | x :: a', y :: b' => (x =? y)%N && str_eqb a' b'
  | _, _ => false
  end.

(** ToBoolean: [undefined], [null], [false], [0], [-0], [NaN] and the empty
    string are falsy. *)
Definition truthy (v : jsval) : bool :=
  match v with
  | JUndefined | JNull => false
  | JBool b => b
  | JNum x => negb (PrimFloat.eqb x 0%float) && negb (PrimFloat.is_nan x)
  | JStr s => nonEmpty s
  | JArr _ | JObj _ => true
  end.

Fixpoint lookup (key : jsstring) (props : list (jsstring * jsval)) : jsval :=
  match props with
  | [] => JUndefined
  | (k, v) :: rest => if str_eqb k key then v else lookup key rest
  end.

(** [v?.key] for the keys the program reads ([embedding], [error],
    [response], [done]): the property of an object, [undefined] on
    [null] and [undefined] (optional chaining) and on every other value
    (no string, number, boolean or array has a property of these names). *)
Definition get (v : jsval) (key : string) : jsval :=
  match v with
  | JObj props => lookup (lit key) props
  | _ => JUndefined
  end.

(** An object literal with ASCII keys. *)
Definition obj (props : list (string * jsval)) : jsval :=
  JObj (map (fun p => (lit (fst p), snd p)) props).

(** [Array.isArray]. *)
Definition isArray (v : jsval) : bool :=
  match v with JArr _ => true | _ => false end.


(** The double nearest to [1e-12]. *)
Definition epsilon : float := 0x1.19799812dea11p-40%float.

(** Conversions between strings and numbers are left to the runtime
    ([Number.prototype.toString], StringToNumber). *)
Class Coercions := {
  numberToString : float -> jsstring;
  stringToNumber : jsstring -> float
}.

Section Conversions.
Context {C : Coercions}.

(** ToString, as string concatenation and template literals apply it. *)
Fixpoint ToString (v : jsval) : jsstring :=
  match v with
  | JUndefined => lit "undefined"
  | JNull => lit "null"
  | JBool true => lit "true"
  | JBool false => lit "false"
  | JNum x => numberToString x
  | JStr s => s
  | JArr elems =>
      join (lit ",")
        (map (fun e => match e with
                       | JUndefined | JNull => []
                       | _ => ToString e
                       end) elems)
  | JObj _ => lit "[object Object]"
  end.

(** ToNumber, as [*] applies it to its operands. *)
Definition ToNumber (v : jsval) : float :=
  match v with
  | JUndefined => PrimFloat.nan
  | JNull => 0%float
  | JBool true => 1%float
  | JBool false => 0%float
  | JNum x => x
  | JStr s => stringToNumber s
  | JArr _ | JObj _ => stringToNumber (ToString v)
  end.

End Conversions.

(** What an Axios error carries: the [error] field of the response body
    ([err.response?.data?.error], [undefined] when there is none) and a
    message. *)
Record AxiosFailure := mkAxiosFailure {
  response_data_error : jsval;
  message : jsstring
}.

(** Exceptions. *)
Inductive Exn : Type :=
| AxiosError (failure : AxiosFailure)
| Error (message : jsstring)
| SyntaxError
| TypeError.

(** How a call ends: it returns, it throws, or it never ends. *)
Inductive Result (A : Type) : Type :=
| Ok (a : A)
| Throw (e : Exn)
| Diverge.
Arguments Ok {A} a.
Arguments Throw {A} e.
Arguments Diverge {A}.

(** [Array.prototype.sort(comparefn)]. The sort is stable, and with a
    consistent comparator the order it produces is determined; it is the
    one this insertion sort computes: [x] goes after [y] only when
    [comparefn(x, y) > 0]. A result of [NaN] is read as 0, here as in
    the language. (With a comparator that is not consistent, which one
    that returns [NaN] on some pairs only can be, the order is left to
    the implementation, and this sort is one of the orders allowed.) *)
Section Sort.
Variable A : Type.
Variable comparefn : A -> A -> float.

Fixpoint insert (x : A) (l : list A) : list A :=
  match l with
  | [] => [x]
  | y :: l' =>
      if PrimFloat.ltb 0%float (comparefn x y) then y :: insert x l'
      else x :: l
  end.

Fixpoint sort (l : list A) : list A :=
  match l with
  | [] => []
  | x :: l' => insert x (sort l')
  end.

End Sort.

End Js.
Import Js.

(* ------------------------------------------------------------------ *)
(** ** The vector store: rag/embeddings.store.ts *)

Module Embeddings.

(** A [number[]] at run time: an array of whatever the backend sent. *)
Definition Vector := list jsval.

Record EmbedChunkMeta := mkMeta {
  docId : jsstring;
  filename : jsstring;
  section : option jsstring
}.

(** [Omit<EmbedChunk, 'vector'>]. *)
Record ChunkInfo := mkInfo {
  id : jsstring;
  text : jsstring;
  meta : EmbedChunkMeta
}.

(** [EmbedChunk], built as [{ ...c, vector: vectors[i] }]: the vector is
    [None] ([undefined]) when [vectors] had no entry at the chunk's
    index. *)
Record EmbedChunk := mkEmbedChunk {
  info : ChunkInfo;
  vector : option Vector
}.

Record InMemoryVectorStore := mkStore {
  dim : option nat;
  items : list EmbedChunk
}.

Definition new_store : InMemoryVectorStore := mkStore None [].

(** [chunks.forEach((c, i) => this.items.push({ ...c, vector: vectors[i] }))],
    as the list of the items pushed. *)
Fixpoint attach (chunks : list ChunkInfo) (vectors : list Vector) : list EmbedChunk :=
  match chunks with
  | [] => []
  | c :: cs => mkEmbedChunk c (hd_error vectors) :: attach cs (tl vectors)
  end.

Definition addMany (store : InMemoryVectorStore)
    (chunks : list ChunkInfo) (vectors : list Vector) : InMemoryVectorStore :=
  mkStore
    (match dim store, vectors with
     | None, v :: _ => Some (length v)
     | d, _ => d
     end)
    (items store ++ attach chunks vectors).

Definition count (store : InMemoryVectorStore) : nat := length (items store).

Definition isEmpty (store : InMemoryVectorStore) : bool := (count store =? 0)%nat.

Section Cosine.
Context {C : Coercions}.

(** The loop of [cosine] from index [i] on, with [a] and [b] the arrays
    from that index: [b[i]] is [undefined] past the end of [b]. *)
Fixpoint cosine_loop (a b : Vector) (acc : float * float * float)
  : float * float * float :=
  match a with
  | [] => acc
  | ai :: a' =>
      let '(dot, na, nb) := acc in
      let bi := hd JUndefined b in
      cosine_loop a' (tl b)
        ((dot + ToNumber ai * ToNumber bi)%float,
         (na + ToNumber ai * ToNumber ai)%float,
         (nb + ToNumber bi * ToNumber bi)%float)
  end.

(** [cosine(a, b)]; reading [b[0]] of an [undefined] vector throws. *)
Definition cosine (a : Vector) (b : option Vector) : Result float :=
  match a, b with
  | _ :: _, None => Throw TypeError
  | _, _ =>
      let '(dot, na, nb) :=
        cosine_loop a (match b with Some v => v | None => [] end)
                    (0%float, 0%float, 0%float) in
      Ok (dot / (PrimFloat.sqrt na * PrimFloat.sqrt nb + epsilon))%float
  end.

Record Scored := mkScored { it : EmbedChunk; s : float }.

(** [this.items.map((it) => ({ it, s: cosine(queryVec, it.vector) }))]. *)
Fixpoint scores_of (queryVec : Vector) (l : list EmbedChunk) : Result (list Scored) :=
  match l with
  | [] => Ok []
  | x :: rest =>
      match cosine queryVec (vector x) with
      | Ok sc =>
          match scores_of queryVec rest with
          | Ok l' => Ok (mkScored x sc :: l')
          | Throw e => Throw e
          | Diverge => Diverge
          end
      | Throw e => Throw e
      | Diverge => Diverge
      end
  end.

(** The comparator [(a, b) => b.s - a.s]. *)
Definition by_score (a b : Scored) : float := (s b - s a)%float.

Definition search (store : InMemoryVectorStore) (queryVec : Vector) (k : Z)
  : Result (list EmbedChunk) :=
  match scores_of queryVec (items store) with
  | Ok scores => Ok (map it (slice (sort by_score scores) 0 k))
  | Throw e => Throw e
  | Diverge => Diverge
  end.

End Cosine.

End Embeddings.

(* ------------------------------------------------------------------ *)
(** ** The service: ollama/ollama.service.ts *)

Module Turn.
Inductive Role := user | assistant.
Record ConversationTurn := mk { role : Role; content : jsstring }.
End Turn.

Module Doc.
Record MarkdownDocument := mk {
  id : jsstring;
  name : jsstring;
  size : Z;
  content : jsstring
}.
End Doc.

(** An entry of [sources]: [{ n, filename, section }]. *)
Module Src.
Record Source := mk { n : nat; filename : jsstring; section : option jsstring }.
End Src.

(** What the program takes from outside: the built-ins the model does not
    define, and the world beyond the process, whose state [env] every call
    to a backend or to the random source reads and advances.
    [JSON_parse] answers [None] where [JSON.parse] throws a SyntaxError;
    [post_embeddings url model prompt] is the POST to [/api/embeddings]
    with body [{ model, prompt }], answering with the response data;
    [post_generate url model prompt] the POST to [/api/generate] with
    [stream: true], answering with the lines the line reader delivers;
    either request can fail with an Axios error. A generation request
    either fails as a whole or delivers all its lines: a stream that
    breaks off with an error after its first lines is not among the runs
    described here. *)
Class Runtime := {
  coercions :: Coercions;
  JSON_parse : jsstring -> option jsval;
  env : Type;
  post_embeddings :
    jsstring -> jsstring -> jsstring -> env -> (AxiosFailure + jsval) * env;
  post_generate :
    jsstring -> jsstring -> jsstring -> env -> (AxiosFailure + list jsstring) * env;
  randomUUID : env -> jsstring * env
}.

(** The values the constructor reads from the configuration. *)
Class Config := {
  ollamaUrl : jsstring;
  ollamaModel : jsstring;
  defaultSystemPrompt : jsstring;
  embedModel : jsstring
}.

Module Service.
Import Embeddings.

Section WithRuntime.
Context {R : Runtime} {cfg : Config}.

(** The mutable state a call can touch: the service's vector store and
    the world. *)
Record State := mkSt { vectorStore : InMemoryVectorStore; world : env }.

Definition M (A : Type) : Type := State -> Result A * State.

Definition ret {A} (a : A) : M A := fun st => (Ok a, st).

Definition throw {A} (e : Exn) : M A := fun st => (Throw e, st).

Definition bind {A B} (m : M A) (f : A -> M B) : M B :=
  fun st =>
    match m st with
    | (Ok a, st') => f a st'
    | (Throw e, st') => (Throw e, st')
    | (Diverge, st') => (Diverge, st')
    end.

Definition lift {A} (r : Result A) : M A := fun st => (r, st).

(** An HTTP request: it advances the world, and answers or throws. *)
Definition request {A} (f : env -> (AxiosFailure + A) * env) : M A :=
  fun st =>
    let (r, w) := f (world st) in
    (match r with inl failure => Throw (AxiosError failure) | inr a => Ok a end,
     mkSt (vectorStore st) w).

(** [crypto.randomUUID()]. *)
Definition fresh_uuid : M jsstring :=
  fun st => let (u, w) := randomUUID (world st) in (Ok u, mkSt (vectorStore st) w).

End WithRuntime.
End Service.

Notation "x <- m ;; k" := (Service.bind m (fun x => k))
  (at level 61, m at next level, right associativity).

Module Ollama.
Import Embeddings Service.

Section WithRuntime.
Context {R : Runtime} {cfg : Config}.

(** [OllamaEmbeddings.embed], with [vectors] the array built so far. *)
Fixpoint embed_loop (texts : list jsstring) (vectors : list Vector) : M (list Vector) :=
  match texts with
  | [] => ret vectors
  | t :: rest =>
      data <- request (post_embeddings ollamaUrl embedModel t) ;;
      let embedding := get data "embedding" in
      if negb (truthy embedding) || negb (isArray embedding)
      then throw (Error (lit "Embedding invalide depuis Ollama"))
      else
        embed_loop rest
          (vectors ++ [match embedding with JArr elems => elems | _ => [] end])
  end.

Definition embed (texts : list jsstring) : M (list Vector) := embed_loop texts [].

(** The inner loop of [indexDocuments], over the chunks of one document. *)
Fixpoint add_chunks (doc : Doc.MarkdownDocument) (chunks : list MdChunk)
    (toAdd : list jsstring * list ChunkInfo) : M (list jsstring * list ChunkInfo) :=
  match chunks with
  | [] => ret toAdd
  | ch :: rest =>
      id <- fresh_uuid ;;
      add_chunks doc rest
        (fst toAdd ++ [Markdown.text ch],
         snd toAdd ++ [mkInfo id (Markdown.text ch)
                         (mkMeta (Doc.id doc) (Doc.name doc) (Markdown.section ch))])
  end.

Definition MAX_DOCS : Z := 20.
Definition MAX_CHUNKS_PER_DOC : Z := 80.
Definition MAX_CHARS_PER_DOC : Z := 200000.

(** The outer loop of [indexDocuments]. *)
Fixpoint add_docs (docs : list Doc.MarkdownDocument)
    (toAdd : list jsstring * list ChunkInfo) : M (list jsstring * list ChunkInfo) :=
  match docs with
  | [] => ret toAdd
  | doc :: rest =>
      let safe := slice (Doc.content doc) 0 MAX_CHARS_PER_DOC in
      match splitMarkdown safe 1200 150 with
      | Some all =>
          toAdd' <- add_chunks doc (slice all 0 MAX_CHUNKS_PER_DOC) toAdd ;;
          add_docs rest toAdd'
      | None => lift Diverge
      end
  end.

Definition indexDocuments (documents : list Doc.MarkdownDocument) : M unit :=
  match documents with
  | [] => ret tt
  | _ :: _ =>
      toAdd <- add_docs (slice documents 0 MAX_DOCS) ([], []) ;;
      match fst toAdd with
      | [] => ret tt
      | _ :: _ =>
          vectors <- embed (fst toAdd) ;;
          fun st => (Ok tt, mkSt (addMany (vectorStore st) (snd toAdd) vectors) (world st))
      end
  end.

Record RetrievalResult := mkRetrieval {
  contextBlock : jsstring;
  sources : list Src.Source
}.

(** [l.map((h, i) => f(h, i))], with [i] counted from [start]. *)
Fixpoint mapi {A B} (f : A -> nat -> B) (start : nat) (l : list A) : list B :=
  match l with
  | [] => []
  | x :: r => f x start :: mapi f (S start) r
  end.

Definition context_entry (h : EmbedChunk) (i : nat) : jsstring :=
  lit "### [" ++ decimal (i + 1) ++ lit "] " ++ filename (meta (info h))
  ++ (match section (meta (info h)) with
      | Some sec => if nonEmpty sec then lit " > " ++ sec else []
      | None => []
      end)
  ++ [LF] ++ text (info h).

Definition source_entry (h : EmbedChunk) (i : nat) : Src.Source :=
  Src.mk (i + 1) (filename (meta (info h))) (section (meta (info h))).

Definition retrieveContext (query : jsstring) (k : Z) : M RetrievalResult :=
  vectors <- embed [query] ;;
  hits <- (fun st =>
             (match vectors with
              | qVec :: _ => search (vectorStore st) qVec k
              | [] =>
                  (* [qVec] is [undefined]: its [length] is read once per item *)
                  match items (vectorStore st) with
                  | [] => Ok []
                  | _ :: _ => Throw TypeError
                  end
              end, st)) ;;
  ret (mkRetrieval
         (join ([LF; LF] ++ lit "---" ++ [LF; LF]) (mapi context_entry 0 hits))
         (mapi source_entry 0 hits)).

Definition render_turn (t : Turn.ConversationTurn) : jsstring :=
  match Turn.role t with
  | Turn.user => lit "<user>" ++ [LF] ++ Turn.content t ++ [LF] ++ lit "</user>"
  | Turn.assistant =>
      lit "<assistant>" ++ [LF] ++ Turn.content t ++ [LF] ++ lit "</assistant>"
  end.

Definition citation_instruction : jsstring :=
  [LF] ++ lit "Tu citeras les sources sous forme [n] qui correspondent aux blocs ci-dessous.".

Definition sanitize (history : list Turn.ConversationTurn) : list Turn.ConversationTurn :=
  filter (fun t => (0 <? length (Turn.content t))%nat)
    (map (fun t => Turn.mk (Turn.role t) (trim (Turn.content t))) history).

Definition user_block (message : jsstring) : jsstring :=
  lit "<user>" ++ [LF] ++ message ++ [LF] ++ lit "</user>".

Definition open_assistant_block : jsstring := lit "<assistant>" ++ [LF].

Definition buildPromptWithRetrieval (message : jsstring)
    (history : list Turn.ConversationTurn) (systemPrompt : option jsstring)
    (documents : option (list Doc.MarkdownDocument))
  : M (jsstring * list Src.Source) :=
  _ <- match documents with
       | Some (d :: ds) => indexDocuments (d :: ds)
       | _ => ret tt
       end ;;
  retrieval <- retrieveContext message 6 ;;
  let activeSystemPrompt :=
    (match systemPrompt with
     | Some sp => if nonEmpty (trim sp) then trim sp else defaultSystemPrompt
     | None => defaultSystemPrompt
     end) ++ citation_instruction in
  let sanitizedHistory := sanitize history in
  let historySection := join [LF] (map render_turn sanitizedHistory) in
  let conversationBlock :=
    join [LF]
      (filter nonEmpty [historySection; user_block message; open_assistant_block]) in
  let documentsContext :=
    [LF; LF] ++ lit "<documents>" ++ [LF]
    ++ lit "Voici des passages pertinents issus de la base :" ++ [LF; LF]
    ++ contextBlock retrieval ++ [LF] ++ lit "</documents>" in
  let prompt :=
    activeSystemPrompt ++ documentsContext ++ [LF; LF] ++ lit "<conversation>" ++ [LF]
    ++ conversationBlock ++ [LF] ++ lit "</conversation>" in
  ret (prompt, sources retrieval).

(** What an async generator does when it is run to its end: it yields
    values, then returns, throws, or hangs. *)
Inductive Gen : Type :=
| Yield (v : jsval) (next : Gen)
| Return
| Raise (e : Exn)
| Hang.

(** How the body of the inner [try] ends on one line. *)
Inductive Completion : Type :=
| Normal
| Break
| Threw (e : Exn).

(** The body of the inner [try] on a payload: what it yields, and how it
    ends. *)
Definition try_body (jsonPayload : jsstring) : list jsval * Completion :=
  match JSON_parse jsonPayload with
  | Some chunk =>
      if truthy (get chunk "error")
      then ([], Threw (Error (ToString (get chunk "error"))))
      else
        (if truthy (get chunk "response") then [get chunk "response"] else [],
         if truthy (get chunk "done") then Break else Normal)
  | None => ([], Threw SyntaxError)
  end.

(** [try { ... } catch { // ignore bad json line }]: whatever the body
    throws is dropped, and the loop goes on. *)
Definition catch_ignore (r : list jsval * Completion) : list jsval * Completion :=
  match r with
  | (ys, Threw _) => (ys, Normal)
  | _ => r
  end.

Fixpoint yield_all (ys : list jsval) (next : Gen) : Gen :=
  match ys with
  | [] => next
  | y :: ys' => Yield y (yield_all ys' next)
  end.

(** [trimmedLine.startsWith('data:') ? trimmedLine.slice(5).trim() : trimmedLine]. *)
Definition jsonPayload_of (trimmedLine : jsstring) : jsstring :=
  if startsWith trimmedLine (lit "data:")
  then trim (slice trimmedLine 5 (Z.of_nat (length trimmedLine)))
  else trimmedLine.

(** [for await (const line of reader) { ... }]. *)
Fixpoint read_lines (lines : list jsstring) : Gen :=
  match lines with
  | [] => Return
  | line :: rest =>
      let trimmedLine := trim line in
      if negb (nonEmpty trimmedLine) then read_lines rest
      else
        let jsonPayload := jsonPayload_of trimmedLine in
        if negb (nonEmpty jsonPayload) then read_lines rest
        else
          let (ys, completion) := catch_ignore (try_body jsonPayload) in
          yield_all ys
            (match completion with
             | Normal => read_lines rest
             | Break => Return
             | Threw e => Raise e
             end)
  end.

(** The outer [catch (err)]: an Axios error ([isAxiosError(err)]) is
    thrown again as a plain [Error], anything else as it is. *)
Definition rethrow (err : Exn) : Exn :=
  match err with
  | AxiosError failure =>
      Error (lit "Ollama API request failed: "
             ++ ToString (if truthy (response_data_error failure)
                          then response_data_error failure
                          else JStr (message failure)))
  | _ => err
  end.

Fixpoint catch_rethrow (g : Gen) : Gen :=
  match g with
  | Yield v next => Yield v (catch_rethrow next)
  | Return => Return
  | Raise e => Raise (rethrow e)
  | Hang => Hang
  end.

(** [streamChat], run to its end from state [st]: the run of the
    generator and the state it leaves. *)
Definition streamChat (message : jsstring) (history : list Turn.ConversationTurn)
    (systemPrompt : option jsstring) (documents : option (list Doc.MarkdownDocument))
    (st : State) : Gen * State :=
  match buildPromptWithRetrieval message history systemPrompt documents st with
  | (Ok (prompt, _), st1) =>
      match request (post_generate ollamaUrl ollamaModel prompt) st1 with
      | (Ok lines, st2) => (catch_rethrow (read_lines lines), st2)
      | (Throw e, st2) => (Raise (rethrow e), st2)
      | (Diverge, st2) => (Hang, st2)
      end
  | (Throw e, st1) => (Raise (rethrow e), st1)
  | (Diverge, st1) => (Hang, st1)
  end.

(** [for await (const chunk of gen) { fullResponse += chunk; }
    return fullResponse;] *)
Fixpoint for_await (g : Gen) (fullResponse : jsstring) : Result jsstring :=
  match g with
  | Yield chunk next => for_await next (fullResponse ++ ToString chunk)
  | Return => Ok fullResponse
  | Raise e => Throw e
  | Hang => Diverge
  end.

Definition chat (message : jsstring) (history : list Turn.ConversationTurn)
    (systemPrompt : option jsstring) (documents : option (list Doc.MarkdownDocument))
  : M jsstring :=
  fun st =>
    let (g, st') := streamChat message history systemPrompt documents st in
    (for_await g [], st').

(** The fragments a run yields, in order, and the way it ends. *)
Fixpoint fragments (g : Gen) : list jsval :=
  match g with
  | Yield v next => v :: fragments next
  | _ => []
  end.

Fixpoint outcome (g : Gen) : Result unit :=
  match g with
  | Yield _ next => outcome next
  | Return => Ok tt
  | Raise e => Throw e
  | Hang => Diverge
  end.

End WithRuntime.
End Ollama.

(* ------------------------------------------------------------------ *)
(** ** The controller: ollama/ollama.controller.ts

    The handler [chat] of [POST /ollama/chat]. The body is what the body
    parser made of the request, untyped data; the handler checks and
    cleans it, calls [streamChat] and forwards what it yields as lines of
    JSON on the response. What the handler does to the response is kept as
    the list of the calls it makes on [res], in order. Logging is left
    out. *)

(** The calls on the response object. *)
Module Res.
Inductive Call : Type :=
| setHeader (name value : jsstring)
| status (code : Z)
| write (data : jsstring)
| flush
| end_.
End Res.

(** What the controller takes from outside, beyond the runtime of the
    service: [JSON.stringify], the clock that [new Date().toISOString()]
    reads, the message of the errors that the engine itself throws, and
    whether the response has a [flush] method. *)
Class Platform {R : Runtime} := {
  JSON_stringify : jsval -> jsstring;
  now : env -> jsstring * env;
  engine_message : Exn -> jsstring;
  flushable : bool
}.

Module Controller.
Import Embeddings Service Ollama.

Definition MAX_HISTORY_ENTRIES : Z := 12.

(** The exceptions the handler throws to the framework. *)
Inductive HttpException : Type :=
| BadRequestException (message : jsstring).

(** [typeof v === 'string'], [typeof v === 'number'],
    [typeof v === 'object']. *)
Definition isString (v : jsval) : bool :=
  match v with JStr _ => true | _ => false end.

Definition isObject (v : jsval) : bool :=
  match v with JNull | JArr _ | JObj _ => true | _ => false end.

(** [l.filter((x) => x !== null)] on the result of a [map] to
    [T | null]. *)
Fixpoint compact {A} (l : list (option A)) : list A :=
  match l with
  | [] => []
  | Some x :: r => x :: compact r
  | None :: r => compact r
  end.

(** [v === 'text'] for a string literal. *)
Definition equals (v : jsval) (text : string) : bool :=
  match v with JStr s => str_eqb s (lit text) | _ => false end.

(** The callback of [history.slice(-MAX_HISTORY_ENTRIES).map]. *)
Definition history_entry (entry : jsval) : option Turn.ConversationTurn :=
  if negb (truthy entry) || negb (isObject entry) then None
  else
    let role := get entry "role" in
    let content := get entry "content" in
    if (negb (equals role "user") && negb (equals role "assistant")) || negb (isString content)
    then None
    else
      match content with
      | JStr c =>
          let trimmedContent := trim c in
          if negb (nonEmpty trimmedContent) then None
          else
            Some (Turn.mk (if equals role "user" then Turn.user else Turn.assistant)
                    trimmedContent)
      | _ => None
      end.

(** A document as the controller keeps it; [size] is a double. *)
Record MarkdownDocument := mkDocument {
  id : jsstring;
  name : jsstring;
  size : float;
  content : jsstring
}.

(** The callback of [documents.map]. *)
Definition document_entry (doc : jsval) : option MarkdownDocument :=
  if negb (truthy doc) || negb (isObject doc) then None
  else
    match get doc "id", get doc "name", get doc "size", get doc "content" with
    | JStr id, JStr name, JNum size, JStr content =>
        let trimmedContent := trim content in
        if negb (nonEmpty trimmedContent) then None
        else Some (mkDocument id name size trimmedContent)
    | _, _, _, _ => None
    end.

(** What the checks leave of the body: the arguments of [streamChat]. *)
Record ChatRequest := mkRequest {
  trimmedMessage : jsstring;
  sanitizedHistory : list Turn.ConversationTurn;
  sanitizedSystemPrompt : option jsstring;
  sanitizedDocuments : option (list MarkdownDocument)
}.

Definition e_grave : N := 232.
Definition e_circumflex : N := 234.
Definition i_circumflex : N := 238.

Definition une_chaine_de_caracteres : jsstring :=
  lit "une cha" ++ [i_circumflex] ++ lit "ne de caract" ++ [e_grave] ++ lit "res".

Definition etre : jsstring := e_circumflex :: lit "tre".

Definition sanitize_history (history : jsval)
  : HttpException + list Turn.ConversationTurn :=
  match history with
  | JUndefined => inr []
  | JArr entries =>
      inr (compact
             (map history_entry
                (slice entries (- MAX_HISTORY_ENTRIES) (Z.of_nat (length entries)))))
  | _ => inl (BadRequestException (lit "Le format de l'historique est invalide"))
  end.

Definition sanitize_systemPrompt (systemPrompt : jsval)
  : HttpException + option jsstring :=
  match systemPrompt with
  | JUndefined => inr None
  | JStr s =>
      let trimmed := trim s in
      inr (if (0 <? length trimmed)%nat then Some trimmed else None)
  | _ =>
      inl (BadRequestException
             (lit "Le systemPrompt doit " ++ etre ++ lit " " ++ une_chaine_de_caracteres))
  end.

Definition sanitize_documents (documents : jsval)
  : HttpException + option (list MarkdownDocument) :=
  match documents with
  | JUndefined => inr None
  | JArr docs =>
      let sanitizedDocuments := compact (map document_entry docs) in
      inr (match sanitizedDocuments with
           | [] => None
           | _ :: _ => Some sanitizedDocuments
           end)
  | _ => inl (BadRequestException (lit "Les documents doivent " ++ etre ++ lit " un tableau"))
  end.

(** The checks of the handler, in the order of the source: the first that
    fails throws. *)
Definition validate (body : jsval) : HttpException + ChatRequest :=
  if negb (truthy body)
  then inl (BadRequestException
              (lit "Le corps de la requ" ++ [e_circumflex] ++ lit "te est requis"))
  else
    match get body "message" with
    | JStr message =>
        let trimmedMessage := trim message in
        if negb (nonEmpty trimmedMessage)
        then inl (BadRequestException
                    (lit "Le message ne peut pas " ++ etre ++ lit " vide"))
        else
          match sanitize_history (get body "history") with
          | inl e => inl e
          | inr sanitizedHistory =>
              match sanitize_systemPrompt (get body "systemPrompt") with
              | inl e => inl e
              | inr sanitizedSystemPrompt =>
                  match sanitize_documents (get body "documents") with
                  | inl e => inl e
                  | inr sanitizedDocuments =>
                      inr (mkRequest trimmedMessage sanitizedHistory
                             sanitizedSystemPrompt sanitizedDocuments)
                  end
              end
          end
    | _ =>
        inl (BadRequestException
               (lit "Le message doit " ++ etre ++ lit " " ++ une_chaine_de_caracteres))
    end.

(** The integer part of a double (0 for NaN and the infinities). *)
Definition integer_part (x : float) : Z :=
  match Prim2SF x with
  | SpecFloat.S754_finite negative m e =>
      let magnitude := Z.shiftl (Zpos m) e in
      if negative then (- magnitude)%Z else magnitude
  | _ => 0%Z
  end.

(** The document as the service takes it. The service never reads [size];
    its model keeps the integer part. *)
Definition service_document (d : MarkdownDocument) : Doc.MarkdownDocument :=
  Doc.mk (id d) (name d) (integer_part (size d)) (content d).

(** How a call of the handler ends: it throws before it touches the
    response, it returns, or it never does; with the calls made on the
    response. *)
Inductive Handled : Type :=
| Rejected (e : HttpException)
| Responded (calls : list Res.Call)
| Pending (calls : list Res.Call).

Section WithPlatform.
Context {R : Runtime} {cfg : Config} {P : Platform}.

(** [if (typeof expressResponse.flush === 'function') expressResponse.flush()]. *)
Definition flushed : list Res.Call := if flushable then [Res.flush] else [].

(** [expressResponse.write(`${JSON.stringify(payload)}\n`)], then the
    flush. *)
Definition emit (payload : jsval) : list Res.Call :=
  Res.write (JSON_stringify payload ++ [LF]) :: flushed.

Definition chunkPayload (chunk : jsval) (timestamp : jsstring) : jsval :=
  obj [("type"%string, JStr (lit "chunk")); ("data"%string, chunk);
       ("timestamp"%string, JStr timestamp)].

Definition donePayload (timestamp : jsstring) : jsval :=
  obj [("type"%string, JStr (lit "done")); ("timestamp"%string, JStr timestamp)].

Definition errorPayload (message timestamp : jsstring) : jsval :=
  obj [("type"%string, JStr (lit "error")); ("error"%string, JStr message);
       ("timestamp"%string, JStr timestamp); ("status"%string, JNum 500%float)].

(** [error.message] of what the service throws. *)
Definition error_message (error : Exn) : jsstring :=
  match error with
  | Error message => message
  | AxiosError failure => Js.message failure
  | SyntaxError | TypeError => engine_message error
  end.

(** [for await (const chunk of streamChat(...)) { ... }] on the run [g] of
    the generator: one line per fragment, each with the time of its
    writing. *)
Fixpoint forward (g : Gen) (w : env) (calls : list Res.Call)
  : Result unit * env * list Res.Call :=
  match g with
  | Yield chunk next =>
      let (timestamp, w') := now w in
      forward next w' (calls ++ emit (chunkPayload chunk timestamp))
  | Return => (Ok tt, w, calls)
  | Raise e => (Throw e, w, calls)
  | Hang => (Diverge, w, calls)
  end.

Definition headers : list Res.Call :=
  [Res.setHeader (lit "Content-Type") (lit "application/x-ndjson; charset=utf-8");
   Res.setHeader (lit "Cache-Control") (lit "no-cache, no-transform");
   Res.setHeader (lit "Connection") (lit "keep-alive")].

(** The handler. Nothing the service throws is an [HttpException], so the
    [catch] takes its second branch: status 500 and the message of the
    error (every exception of the service is an [Error]). The [finally]
    ends the response. *)
Definition chat (body : jsval) (st : State) : Handled * State :=
  match validate body with
  | inl e => (Rejected e, st)
  | inr req =>
      let (g, st1) :=
        streamChat (trimmedMessage req) (sanitizedHistory req)
          (sanitizedSystemPrompt req)
          (option_map (map service_document) (sanitizedDocuments req)) st in
      match forward g (world st1) (headers ++ [Res.status 200]) with
      | (Ok _, w, calls) =>
          let (timestamp, w') := now w in
          (Responded (calls ++ emit (donePayload timestamp) ++ [Res.end_]),
           mkSt (vectorStore st1) w')
      | (Throw error, w, calls) =>
          let (timestamp, w') := now w in
          (Responded
             (calls ++ [Res.status 500]
              ++ emit (errorPayload (error_message error) timestamp)
              ++ [Res.end_]),
           mkSt (vectorStore st1) w')
      | (Diverge, w, calls) => (Pending calls, mkSt (vectorStore st1) w)
      end
  end.

End WithPlatform.

End Controller.

(* ------------------------------------------------------------------ *)
(** ** A scripted runtime, for running the service on concrete inputs *)

Module Scripted.

(** The conversions are never reached in the runs below (every number is a
    [JNum], every fragment a string). *)
Definition no_coercions : Coercions :=
  {| numberToString := fun _ => []; stringToNumber := fun _ => PrimFloat.nan |}.

Fixpoint assoc {A} (key : jsstring) (table : list (jsstring * A)) : option A :=
  match table with
  | [] => None
  | (k, v) :: rest => if str_eqb k key then Some v else assoc key rest
  end.

(** A runtime whose [JSON.parse] is given by the table [parses] (a
    SyntaxError on every other text), whose embedding backend answers a
    prompt with [embedding_data prompt], whose generation backend streams
    [generated], and whose UUIDs count up. *)
Definition runtime (parses : list (jsstring * jsval))
    (embedding_data : jsstring -> AxiosFailure + jsval)
    (generated : AxiosFailure + list jsstring) : Runtime :=
  {| coercions := no_coercions;
     JSON_parse := fun text => assoc text parses;
     env := nat;
     post_embeddings := fun _ _ prompt w => (embedding_data prompt, w);
     post_generate := fun _ _ _ w => (generated, w);
     randomUUID := fun w => (decimal w, S w) |}.

(** The defaults of the constructor. *)
Definition config : Config :=
  {| ollamaUrl := lit "http://finanssor-data-center-v1.tail446cc0.ts.net:11434";
     ollamaModel := lit "gpt-oss:20b";
     defaultSystemPrompt := lit "Tu es un assistant IA utile et bienveillant.";
     embedModel := lit "nomic-embed-text" |}.

(** A backend that embeds every prompt as the same two-dimensional
    vector. *)
Definition constant_embedding (_ : jsstring) : AxiosFailure + jsval :=
  inr (obj [("embedding"%string, JArr [JNum 1%float; JNum 0%float])]).

End Scripted.

(** *** Runs of the stream decoder *)

Module Runs.
Import Scripted.

Definition boom_line : jsstring := json_lit "{'error':'boom'}".

Definition boom_record : jsval := obj [("error"%string, JStr (lit "boom"))].

(** The generation backend streams the single line [{"error":"boom"}]. *)
Definition boom_runtime : Runtime :=
  runtime [(boom_line, boom_record)] constant_embedding (inr [boom_line]).

Definition error_done_line : jsstring := json_lit "{'error':'x','done':true}".

Definition error_done_record : jsval :=
  obj [("error"%string, JStr (lit "x")); ("done"%string, JBool true)].

Definition late_line : jsstring := json_lit "{'response':'late'}".

Definition late_record : jsval := obj [("response"%string, JStr (lit "late"))].

Definition error_done_runtime : Runtime :=
  runtime [(error_done_line, error_done_record); (late_line, late_record)]
    constant_embedding (inr [error_done_line; late_line]).

Definition hello_runtime : Runtime :=
  runtime
    [(json_lit "{'response':'He'}", obj [("response"%string, JStr (lit "He"))]);
     (json_lit "{'response':'llo'}", obj [("response"%string, JStr (lit "llo"))]);
     (json_lit "{'done':true}", obj [("done"%string, JBool true)]);
     (json_lit "{'response':'bye','done':true}",
      obj [("response"%string, JStr (lit "bye")); ("done"%string, JBool true)])]
    constant_embedding
    (inr [json_lit "{'response':'He'}"; json_lit "{'response':'llo'}";
          json_lit "{'done':true}"]).

End Runs.

(** *** Embedding backends *)

Module Backends.
Import Scripted.


(** Every response is the empty object. *)
Definition no_embedding_runtime : Runtime :=
  runtime [] (fun _ => inr (obj [])) (inr []).

(** Every response is accepted; nothing is generated. *)
Definition quiet_runtime : Runtime := runtime [] constant_embedding (inr []).

End Backends.

(** *** A small store *)

Module Demo.
Import Embeddings.

Definition chunk (name : string) (v : list float) : EmbedChunk :=
  mkEmbedChunk (mkInfo (lit name) (lit name) (mkMeta (lit "doc") (lit "a.md") None))
    (Some (map JNum v)).

(** Three items; the first and the third have the same vector. *)
Definition store : InMemoryVectorStore :=
  mkStore (Some 2%nat)
    [chunk "a" [1%float; 0%float]; chunk "b" [0%float; 1%float];
     chunk "c" [1%float; 0%float]].

Definition query : Vector := [JNum 3%float; JNum 1%float].

Definition documents : list Doc.MarkdownDocument :=
  repeat (Doc.mk (lit "id") (lit "note.md") 5 (lit "hello")) 25.

(** One document: a level-2 heading, then a line of text. *)
Definition intro_document : Doc.MarkdownDocument :=
  Doc.mk (lit "d1") (lit "guide.md") 27
    (lit "## Intro" ++ [LF] ++ lit "Chunks are embedded.").

End Demo.

(* ------------------------------------------------------------------ *)
(** ** Vocabulary of the statements *)

Module Spec.
Import Embeddings Service Ollama.

(** Loop invariant of [splitMarkdown]: the lines read so far, joined, are
    the chunks emitted so far (scattered over a prefix) followed by the
    buffer. *)
Definition split_inv (st : SplitState) (done : list jsstring) : Prop :=
  (exists X, Scattered (map Markdown.text (chunks st)) X
             /\ join [LF] done = X ++ join [LF] (buf st))
  /\ (done = [] -> buf st = []).

(** Size invariant of the loop of [splitMarkdown]: no chunk emitted so far
    is longer than [bound], and the buffer, joined, is not either. *)
Definition size_inv (bound : Z) (st : SplitState) : Prop :=
  Forall (fun c => (Z.of_nat (length (Markdown.text c)) <= bound)%Z) (chunks st)
  /\ (buf st = [] \/ (Z.of_nat (length (join [LF] (buf st))) <= bound)%Z).

(** [splitMarkdown] on a text already split into lines. *)
Definition chunk_lines (maxLen overlap : Z) (lines : list jsstring)
  : option (list MdChunk) :=
  match loop maxLen overlap (mkState [] [] None) lines with
  | Some st => Some (chunks (push st))
  | None => None
  end.

(** [st'] has the chunks of [st], then chunks that all carry the label
    [label], and it has the current section [label]. *)
Definition emits_under (label : option jsstring) (st st' : SplitState) : Prop :=
  currentSection st' = label
  /\ exists new, chunks st' = chunks st ++ new
                 /\ Forall (fun c => Markdown.section c = label) new.

(** A history turn is kept when its content is not empty once trimmed; it
    is rendered with the trimmed content. *)
Definition has_content (t : Turn.ConversationTurn) : bool :=
  nonEmpty (trim (Turn.content t)).

Definition trimmed (t : Turn.ConversationTurn) : Turn.ConversationTurn :=
  Turn.mk (Turn.role t) (trim (Turn.content t)).

(** The transcript: one role-tagged block per kept turn, in the order of
    the history, then the message in a user block, then the open assistant
    block, joined by line feeds. *)
Definition transcript (history : list Turn.ConversationTurn) (message : jsstring)
  : jsstring :=
  join [LF]
    (map render_turn (map trimmed (filter has_content history))
     ++ [user_block message; open_assistant_block]).

(** The chunks of a text under the parameters of [indexDocuments]
    ([splitMarkdown] returns with them: see [splitMarkdown_chunks_of]). *)
Definition chunks_of (content : jsstring) : list MdChunk :=
  match splitMarkdown content 1200 150 with
  | Some all => all
  | None => []
  end.

(** The first [n] elements. *)
Definition take (n : Z) {A} (l : list A) : list A := firstn (Z.to_nat n) l.

(** The chunks of one document as [indexDocuments] computes them: the
    chunks of the first [MAX_CHARS_PER_DOC] (200000) code units of its
    content; the chunks kept are the first [MAX_CHUNKS_PER_DOC] (80) of
    them. *)
Definition doc_chunks (doc : Doc.MarkdownDocument) : list MdChunk :=
  chunks_of (take MAX_CHARS_PER_DOC (Doc.content doc)).

Definition kept_chunks (doc : Doc.MarkdownDocument) : list MdChunk :=
  take MAX_CHUNKS_PER_DOC (doc_chunks doc).

(** What [indexDocuments] sets out to index: the kept chunks of the first
    [MAX_DOCS] (20) documents, each with its document, in order. *)
Definition plan (documents : list Doc.MarkdownDocument)
  : list (Doc.MarkdownDocument * MdChunk) :=
  flat_map (fun doc => map (pair doc) (kept_chunks doc)) (take MAX_DOCS documents).

Definition plan_texts (documents : list Doc.MarkdownDocument) : list jsstring :=
  map (fun p => Markdown.text (snd p)) (plan documents).

Definition entry (id : jsstring) (p : Doc.MarkdownDocument * MdChunk) : ChunkInfo :=
  mkInfo id (Markdown.text (snd p))
    (mkMeta (Doc.id (fst p)) (Doc.name (fst p)) (Markdown.section (snd p))).

Definition entries (ids : list jsstring)
    (planned : list (Doc.MarkdownDocument * MdChunk)) : list ChunkInfo :=
  map (fun x => entry (fst x) (snd x)) (combine ids planned).

(** The place of a double in the order of [<?], [<=?] and [=?]: [None] for
    NaN, otherwise a triple that these comparisons read lexicographically
    (class and sign first, then exponent, then mantissa). *)
Definition rank (x : SpecFloat.spec_float) : option (Z * Z * Z) :=
  match x with
  | SpecFloat.S754_nan => None
  | SpecFloat.S754_infinity true => Some (-2, 0, 0)%Z
  | SpecFloat.S754_infinity false => Some (2, 0, 0)%Z
  | SpecFloat.S754_zero _ => Some (0, 0, 0)%Z
  | SpecFloat.S754_finite true m e => Some (-1, - e, Zneg m)%Z
  | SpecFloat.S754_finite false m e => Some (1, e, Zpos m)%Z
  end.

Definition lex3 (a b : Z * Z * Z) : comparison :=
  match (fst (fst a) ?= fst (fst b))%Z with
  | Eq =>
      match (snd (fst a) ?= snd (fst b))%Z with
      | Eq => (snd a ?= snd b)%Z
      | c => c
      end
  | c => c
  end.

Definition rk (x : float) : option (Z * Z * Z) := rank (Prim2SF x).

(** The scores of [l] are pairwise comparable. *)
Definition comparable_scored (l : list Scored) : Prop :=
  forall a b, In a l -> In b l ->
    PrimFloat.is_nan (s a) = false
    /\ PrimFloat.ltb 0%float (by_score a b) = PrimFloat.ltb (s a) (s b).

Definition descending (a b : Scored) : Prop := PrimFloat.leb (s b) (s a) = true.

Definition tied_with (v : float) (a : Scored) : bool := PrimFloat.eqb (s a) v.

(** Every item of the store has a vector: what [addMany] keeps when it is
    given as many vectors as chunks. *)
Definition well_formed (store : InMemoryVectorStore) : Prop :=
  Forall (fun x => vector x <> None) (items store).

(** On the scores [scores], none is NaN and the sign of a difference reads
    as the comparison of its terms, as it does on all doubles that are not
    NaN: the comparator of [search] is consistent on them. *)
Definition comparable (scores : list float) : Prop :=
  Forall (fun x => PrimFloat.is_nan x = false) scores
  /\ (forall x y, In x scores -> In y scores ->
        PrimFloat.ltb 0%float (y - x)%float = PrimFloat.ltb x y).

(** [comparable], as a test. *)
Definition comparableb (scores : list float) : bool :=
  forallb (fun x => negb (PrimFloat.is_nan x)) scores
  && forallb
       (fun x =>
          forallb
            (fun y =>
               Bool.eqb (PrimFloat.ltb 0%float (y - x)%float) (PrimFloat.ltb x y))
            scores)
       scores.

Section WithCoercions.
Context {C : Coercions}.

(** The cosine similarity of the query to an item of the store. *)
Definition similarity (queryVec : Vector) (x : EmbedChunk) : float :=
  match cosine queryVec (vector x) with
  | Ok sc => sc
  | _ => PrimFloat.nan
  end.

(** An item with its score. *)
Definition scored (queryVec : Vector) (x : EmbedChunk) : Scored :=
  mkScored x (similarity queryVec x).

End WithCoercions.

Section WithRuntime.
Context {R : Runtime} {cfg : Config}.

(** What [buildPromptWithRetrieval] does before it assembles the prompt:
    index the documents, if any, and retrieve the context of the message. *)
Definition prelude (message : jsstring) (documents : option (list Doc.MarkdownDocument))
  : M RetrievalResult :=
  _ <- match documents with
       | Some (d :: ds) => indexDocuments (d :: ds)
       | _ => ret tt
       end ;;
  retrieveContext message 6.

Definition documents_part (contextBlock : jsstring) : jsstring :=
  [LF; LF] ++ lit "<documents>" ++ [LF]
  ++ lit "Voici des passages pertinents issus de la base :" ++ [LF; LF]
  ++ contextBlock ++ [LF] ++ lit "</documents>".

(** The error [embed] throws on a response it does not accept. *)
Definition invalid_embedding : Exn := Error (lit "Embedding invalide depuis Ollama").

(** [embed] accepts a response whose [embedding] is truthy and an array;
    a numeric sequence is an array of numbers. *)
Definition accepted (data : jsval) : bool :=
  truthy (get data "embedding") && isArray (get data "embedding").


Definition vector_of (data : jsval) : Vector :=
  match get data "embedding" with
  | JArr elems => elems
  | _ => []
  end.

Definition answered (r : AxiosFailure + jsval) : Prop :=
  exists data, r = inr data /\ accepted data = true.

Definition rejected (r : AxiosFailure + jsval) : Prop :=
  exists data, r = inr data /\ accepted data = false.

Definition response_vector (r : AxiosFailure + jsval) : Vector :=
  match r with
  | inr data => vector_of data
  | inl _ => []
  end.

(** [Exchanged texts w rs w']: from world [w], one request to the embedding
    backend per text of [texts], in order, got the responses [rs], in
    order, and left the world [w']. *)
Inductive Exchanged : list jsstring -> env -> list (AxiosFailure + jsval) -> env -> Prop :=
| Exchanged_nil w : Exchanged [] w [] w
| Exchanged_cons t texts w r w' rs w'' :
    post_embeddings ollamaUrl embedModel t w = (r, w') ->
    Exchanged texts w' rs w'' ->
    Exchanged (t :: texts) w (r :: rs) w''.

(** What a call of the loop of [embed] does, by the requests it makes:
    [n] of the texts are sent. *)
Definition embed_run (texts : list jsstring) (vectors : list Vector) (st : State)
    (n : nat) (rs : list (AxiosFailure + jsval)) : Prop :=
  let res := embed_loop texts vectors st in
  Exchanged (firstn n texts) (world st) rs (world (snd res))
  /\ vectorStore (snd res) = vectorStore st
  /\ match fst res with
     | Ok vs =>
         n = length texts /\ Forall answered rs
         /\ vs = vectors ++ map response_vector rs
     | Throw e =>
         exists rs0 r,
           rs = rs0 ++ [r] /\ Forall answered rs0
           /\ ((rejected r /\ e = invalid_embedding)
               \/ (exists failure, r = inl failure /\ e = AxiosError failure))
     | Diverge => False
     end.

(** The embedding backend answers every request with a response that
    [embed] accepts. *)
Definition healthy_backend : Prop :=
  forall t w, exists data w',
    post_embeddings ollamaUrl embedModel t w = (inr data, w') /\ accepted data = true.

End WithRuntime.

End Spec.
Import Spec.

(* ------------------------------------------------------------------ *)
(** ** More vocabulary: the store, the decoder, the controller *)

Module Vocabulary.
Import Embeddings Service Ollama.

(** *** Cosine similarity, as the specification gives it

    [dot(a,b) / (||a|| * ||b|| + epsilon)] with epsilon [1e-12], on
    sequences of doubles: the dot product is summed from the first
    component on, the norm is the square root of the dot product of a
    vector with itself. *)
Definition dot (a b : list float) : float :=
  fold_left (fun sum p => (sum + fst p * snd p)%float) (combine a b) 0%float.

Definition norm (a : list float) : float := PrimFloat.sqrt (dot a a).

Definition cosine_similarity (a b : list float) : float :=
  (dot a b / (norm a * norm b + 0x1.19799812dea11p-40)%float)%float.

(** The number that a component of a stored vector is; the components of
    the vector of an item. *)
Definition number (v : jsval) : float :=
  match v with JNum x => x | _ => PrimFloat.nan end.

Definition components (x : EmbedChunk) : list float :=
  match vector x with
  | Some v => map number v
  | None => []
  end.

(** An item whose vector is a sequence of [n] numbers. *)
Definition numeric (n : nat) (x : EmbedChunk) : Prop :=
  exists v, vector x = Some (map JNum v) /\ length v = n.

(** The similarity of an item to the query [q]. *)
Definition score (q : list float) (x : EmbedChunk) : float :=
  cosine_similarity q (components x).

(** *** The transcript, as the specification gives it

    Each turn wrapped in a block tagged with its role, the message in a
    user block, then the open assistant block. *)
Definition block (tag : string) (content : jsstring) : jsstring :=
  lit "<" ++ lit tag ++ lit ">" ++ [LF] ++ content ++ [LF]
  ++ lit "</" ++ lit tag ++ lit ">".

Definition role_tag (r : Turn.Role) : string :=
  match r with
  | Turn.user => "user"
  | Turn.assistant => "assistant"
  end.

Definition tagged_turn (t : Turn.ConversationTurn) : jsstring :=
  block (role_tag (Turn.role t)) (trim (Turn.content t)).

Definition tagged_transcript (history : list Turn.ConversationTurn)
    (message : jsstring) : jsstring :=
  join [LF]
    (map tagged_turn (filter has_content history)
     ++ [block "user" message; lit "<assistant>" ++ [LF]]).

Section WithConfig.
Context {cfg : Config}.

(** The head of the prompt: the system prompt in force (the trimmed
    [systemPrompt] when that is not empty, the configured default
    otherwise), then the citation instruction. *)
Definition system_text (systemPrompt : option jsstring) : jsstring :=
  (match systemPrompt with
   | Some sp => if nonEmpty (trim sp) then trim sp else defaultSystemPrompt
   | None => defaultSystemPrompt
   end)
  ++ [LF]
  ++ lit "Tu citeras les sources sous forme [n] qui correspondent aux blocs ci-dessous.".

End WithConfig.

(** The error [streamChat] throws for a request that failed with
    [failure]: its message is [Ollama API request failed: ] followed by
    the [error] of the response body when that is truthy, by the message
    of the Axios error otherwise. *)
Definition request_failed {C : Coercions} (failure : AxiosFailure) : Exn :=
  Error (lit "Ollama API request failed: "
         ++ (if truthy (response_data_error failure)
             then ToString (response_data_error failure)
             else Js.message failure)).

(** A string that is not empty and that [trim] leaves as it is. *)
Definition clean (s : jsstring) : Prop := trim s = s /\ s <> [].

(** The number of elements of [slice l 0 k] for a list of [n] elements. *)
Definition sliced (n : nat) (k : Z) : nat :=
  Z.to_nat (if (k <? 0)%Z then Z.max (Z.of_nat n + k) 0 else Z.min k (Z.of_nat n)).

(** The score of every item against the empty query vector. *)
Definition zero_score : float :=
  (0 / (PrimFloat.sqrt 0 * PrimFloat.sqrt 0 + epsilon))%float.

Section WithRuntime.
Context {R : Runtime} {cfg : Config}.

(** The first step of [buildPromptWithRetrieval]: index the documents, if
    there are any. *)
Definition index_step (documents : option (list Doc.MarkdownDocument)) : M unit :=
  match documents with
  | Some (d :: ds) => indexDocuments (d :: ds)
  | _ => ret tt
  end.

End WithRuntime.

(** Every chunk text is the trimming of some string: both the flush and
    the cut trim what they emit. *)
Definition trims (c : MdChunk) : Prop := exists s, Markdown.text c = trim s.

(** The length of the lines [l] joined by line feeds, plus one. *)
Definition weight (l : list jsstring) : nat :=
  list_sum (map (fun x => S (length x)) l).

(** A chunk whose text is not empty. *)
Definition solid (c : MdChunk) : Prop := Markdown.text c <> [].

(** A field that may be missing: [undefined], or a value that passes the
    test. *)
Definition optional (p : jsval -> bool) (v : jsval) : bool :=
  match v with JUndefined => true | _ => p v end.

(** The bodies that the handler takes: truthy, with a [message] that is a
    string and not white space only, and with [history], [systemPrompt]
    and [documents] missing or an array, a string and an array. *)
Definition acceptable (body : jsval) : bool :=
  truthy body
  && match get body "message" with
     | JStr message => nonEmpty (trim message)
     | _ => false
     end
  && optional isArray (get body "history")
  && optional Controller.isString (get body "systemPrompt")
  && optional isArray (get body "documents").

Section WithPlatform.
Context {R : Runtime} {cfg : Config} {P : Platform}.





End WithPlatform.

End Vocabulary.
Import Vocabulary.

(* ------------------------------------------------------------------ *)
(** ** Sample requests and backends *)

Module Requests.
Import Embeddings.

(** A history entry as the client sends it. *)
Definition entry (role content : string) : jsval :=
  obj [("role"%string, JStr (lit role)); ("content"%string, JStr (lit content))].

(** A body with padded fields, with history entries and documents that
    the handler drops, and with a blank system prompt. *)
Definition body : jsval :=
  obj [("message"%string, JStr (lit "  hello "));
       ("history"%string,
        JArr [entry "user" " hi "; JNull; entry "system" "be brief";
              entry "assistant" "   "; entry "assistant" "hello"]);
       ("systemPrompt"%string, JStr (lit "   "));
       ("documents"%string,
        JArr [obj [("id"%string, JStr (lit "d1")); ("name"%string, JStr (lit "a.md"));
                   ("size"%string, JNum 7%float);
                   ("content"%string, JStr (lit " # Title" ++ [LF]))];
              obj [("id"%string, JStr (lit "d2")); ("name"%string, JStr (lit "b.md"));
                   ("size"%string, JStr (lit "7"));
                   ("content"%string, JStr (lit "text"))];
              JStr (lit "c.md")])].

(** What the handler makes of it. *)
Definition request : Controller.ChatRequest :=
  Controller.mkRequest (lit "hello")
    [Turn.mk Turn.user (lit "hi"); Turn.mk Turn.assistant (lit "hello")]
    None
    (Some [Controller.mkDocument (lit "d1") (lit "a.md") 7%float (lit "# Title")]).

(** The embedding backend answers 404 with the body
    [{ error: 'model not found' }]. *)
Definition no_model_runtime : Runtime :=
  Scripted.runtime []
    (fun _ => inl (mkAxiosFailure (JStr (lit "model not found"))
                     (lit "Request failed with status code 404")))
    (inr []).

(** The generation backend cannot be reached: the Axios error has no
    response. *)
Definition unreachable_runtime : Runtime :=
  Scripted.runtime [] Scripted.constant_embedding
    (inl (mkAxiosFailure JUndefined (lit "connect ECONNREFUSED 127.0.0.1:11434"))).

(** A history with a blank turn. *)
Definition history : list Turn.ConversationTurn :=
  [Turn.mk Turn.user (lit " hi "); Turn.mk Turn.assistant (lit "   ");
   Turn.mk Turn.assistant (lit "hello")].

(** What [retrieveContext] returns for a query on the small store, with
    [k = 2]. *)
Definition retrieved : Ollama.RetrievalResult :=
  match fst (@Ollama.retrieveContext Backends.quiet_runtime Scripted.config (lit "q") 2
               (@Service.mkSt Backends.quiet_runtime Demo.store 0%nat)) with
  | Ok r => r
  | _ => Ollama.mkRetrieval [] []
  end.

(** The state after the document with the heading [## Intro] has been
    indexed into an empty store, and what [retrieveContext] returns
    then. *)
Definition indexed : @Service.State Backends.quiet_runtime :=
  snd (@Ollama.indexDocuments Backends.quiet_runtime Scripted.config
         [Demo.intro_document] (@Service.mkSt Backends.quiet_runtime new_store 0%nat)).

Definition cited : Ollama.RetrievalResult :=
  match fst (@Ollama.retrieveContext Backends.quiet_runtime Scripted.config
               (lit "Chunks are embedded.") 6 indexed) with
  | Ok r => r
  | _ => Ollama.mkRetrieval [] []
  end.

End Requests.

(* ------------------------------------------------------------------ *)
(** ** Sample rankings *)

Module Rankings.
Import Embeddings.

(** A query of the dimension of the small store. *)
Definition query : list float := [3%float; 1%float].

(** A component whose square is beyond the doubles. *)
Definition huge : float := 0x1p+700%float.

(** Two items of dimension 2: the first is orthogonal to [huge_query], the
    second has the very vector of [huge_query]. *)
Definition far : EmbedChunk := Demo.chunk "far" [0%float; 1%float].

Definition same : EmbedChunk := Demo.chunk "same" [huge; 0%float].

Definition overflowing : InMemoryVectorStore := mkStore (Some 2%nat) [far; same].

Definition huge_query : list float := [huge; 0%float].

(** A store of mixed dimensions: the first item has one component, the
    second has the two components of [unit_query]. *)
Definition short : EmbedChunk := Demo.chunk "short" [1%float].

Definition full : EmbedChunk := Demo.chunk "full" [1%float; 0%float].

Definition mixed : InMemoryVectorStore := mkStore (Some 1%nat) [short; full].

Definition unit_query : list float := [1%float; 0%float].

End Rankings.

(* ------------------------------------------------------------------ *)
(** * Properties *)

Example split_lines_ex :
  split_lines (lit "a" ++ [CR; LF] ++ lit "b" ++ [LF] ++ [CR] ++ lit "c")
  = [lit "a"; lit "b"; CR :: lit "c"].
Proof. reflexivity. Qed.

(* ------------------------------------------------------------------ *)
(** ** Strings: trimming, joining, splitting *)

Lemma allWhite_app w1 w2 : allWhite w1 -> allWhite w2 -> allWhite (w1 ++ w2).
Proof. unfold allWhite; intros; apply Forall_app; auto. Qed.

Lemma allWhite_rev w : allWhite w -> allWhite (rev w).
Proof. unfold allWhite; intros; now apply Forall_rev. Qed.

Lemma allWhite_LF : allWhite [LF].
Proof. repeat constructor. Qed.

Lemma nonWhite_app s t : nonWhite (s ++ t) = nonWhite s ++ nonWhite t.
Proof. apply filter_app. Qed.

Lemma nonWhite_allWhite w : allWhite w -> nonWhite w = [].
Proof.
  induction 1 as [|c w Hc _ IH]; simpl; [reflexivity|].
  now rewrite Hc.
Qed.

Lemma trimStart_decomp s :
  exists w, allWhite w /\ s = w ++ trimStart s.
Proof.
  induction s as [|c s [w [Hw Hs]]]; simpl.
  - exists []; split; [constructor | reflexivity].
  - destruct (isWhiteSpace c) eqn:Hc.
    + exists (c :: w); split; [now constructor | simpl; now f_equal].
    + exists []; split; [constructor | reflexivity].
Qed.

Lemma trimEnd_decomp s :
  exists w, allWhite w /\ s = trimEnd s ++ w.
Proof.
  unfold trimEnd.
  destruct (trimStart_decomp (rev s)) as [w [Hw Hs]].
  exists (rev w); split; [now apply allWhite_rev|].
  rewrite <- rev_app_distr, <- Hs. symmetry; apply rev_involutive.
Qed.

Lemma trim_decomp s :
  exists w1 w2, allWhite w1 /\ allWhite w2 /\ s = w1 ++ trim s ++ w2.
Proof.
  destruct (trimStart_decomp s) as [w1 [H1 Hs]].
  destruct (trimEnd_decomp (trimStart s)) as [w2 [H2 Ht]].
  exists w1, w2; repeat split; auto.
  unfold trim. now rewrite <- Ht.
Qed.

Lemma trim_empty_allWhite s : trim s = [] -> allWhite s.
Proof.
  intros E. destruct (trim_decomp s) as [w1 [w2 [H1 [H2 Hs]]]].
  rewrite E in Hs; simpl in Hs. rewrite Hs. now apply allWhite_app.
Qed.

Lemma nonEmpty_false s : nonEmpty s = false -> s = [].
Proof. destruct s; simpl; congruence. Qed.

Lemma join_snoc sep l x :
  join sep (l ++ [x]) =
  match l with [] => x | _ :: _ => join sep l ++ sep ++ x end.
Proof.
  induction l as [|a l IH]; [reflexivity|].
  destruct l as [|b l]; [reflexivity|].
  change (join sep ((a :: b :: l) ++ [x]))
    with (a ++ sep ++ join sep ((b :: l) ++ [x])).
  rewrite IH.
  change (join sep (a :: b :: l)) with (a ++ sep ++ join sep (b :: l)).
  now rewrite <- !app_assoc.
Qed.

Lemma nonWhite_join_LF l :
  nonWhite (join [LF] l) = concat (map nonWhite l).
Proof.
  induction l as [|a l IH]; [reflexivity|].
  destruct l as [|b l]; [simpl; now rewrite app_nil_r|].
  change (join [LF] (a :: b :: l)) with (a ++ [LF] ++ join [LF] (b :: l)).
  rewrite !nonWhite_app, IH. reflexivity.
Qed.

Lemma nonWhite_cons_hd c ls :
  concat (map nonWhite (cons_hd c ls)) = nonWhite [c] ++ concat (map nonWhite ls).
Proof.
  destruct ls as [|l ls]; simpl.
  - now rewrite !app_nil_r.
  - destruct (isWhiteSpace c); reflexivity.
Qed.

Lemma nonWhite_split_lines_len n : forall s,
  (length s <= n)%nat -> concat (map nonWhite (split_lines s)) = nonWhite s.
Proof.
  induction n as [|n IH]; intros s Hn.
  - destruct s; [reflexivity | simpl in Hn; lia].
  - destruct s as [|c r]; [reflexivity|].
    simpl in Hn. simpl split_lines.
    destruct (c =? LF)%N eqn:Ec.
    + apply N.eqb_eq in Ec; subst c. simpl. apply IH; lia.
    + destruct r as [|d r'].
      * simpl. destruct (isWhiteSpace c); reflexivity.
      * destruct ((c =? CR)%N && (d =? LF)%N) eqn:Ecd.
        -- apply andb_true_iff in Ecd as [E1 E2].
           apply N.eqb_eq in E1, E2; subst c d. simpl.
           apply IH. simpl in Hn; lia.
        -- rewrite nonWhite_cons_hd, IH by lia.
           symmetry; apply (nonWhite_app [c]).
Qed.

Lemma nonWhite_split_lines s :
  nonWhite (join [LF] (split_lines s)) = nonWhite s.
Proof.
  rewrite nonWhite_join_LF. now apply nonWhite_split_lines_len with (n := length s).
Qed.

Lemma split_lines_not_nil s : split_lines s <> [].
Proof.
  destruct s as [|c r]; simpl; [discriminate|].
  destruct (c =? LF)%N; [discriminate|].
  destruct r as [|d r']; [discriminate|].
  destruct ((c =? CR)%N && (d =? LF)%N); [discriminate|].
  destruct (split_lines (d :: r')); discriminate.
Qed.

Lemma join_cons_hd c ls : ls <> [] -> join [LF] (cons_hd c ls) = c :: join [LF] ls.
Proof.
  destruct ls as [|l ls]; [congruence|]. intros _.
  destruct ls; reflexivity.
Qed.

(** Without CR LF pairs, joining the lines with LF gives the text back. *)
Lemma join_split_lines_len n : forall s,
  (length s <= n)%nat -> has_CRLF s = false -> join [LF] (split_lines s) = s.
Proof.
  induction n as [|n IH]; intros s Hn Hs.
  - destruct s; [reflexivity | simpl in Hn; lia].
  - destruct s as [|c r]; [reflexivity|].
    simpl in Hn.
    assert (Hr : has_CRLF r = false).
    { simpl in Hs. destruct r as [|d r']; [reflexivity|].
      now apply orb_false_iff in Hs as [_ Hs]. }
    simpl split_lines. destruct (c =? LF)%N eqn:Ec.
    + apply N.eqb_eq in Ec; subst c.
      pose proof (split_lines_not_nil r) as Hne. pose proof (IH r ltac:(lia) Hr) as Hj.
      destruct (split_lines r) as [|l ls]; [congruence|].
      change (join [LF] ([] :: l :: ls)) with ([LF] ++ join [LF] (l :: ls)).
      now rewrite Hj.
    + destruct r as [|d r']; [reflexivity|].
      simpl in Hs. apply orb_false_iff in Hs as [Hcd _]. rewrite Hcd.
      rewrite join_cons_hd by apply split_lines_not_nil.
      rewrite (IH (d :: r')); [reflexivity | simpl in *; lia | exact Hr].
Qed.

Lemma join_split_lines s :
  has_CRLF s = false -> join [LF] (split_lines s) = s.
Proof. now apply join_split_lines_len with (n := length s). Qed.

(* ------------------------------------------------------------------ *)
(** ** The slicing loop *)

Lemma slice_forward {A} (s : list A) (i m : Z) :
  (0 <= i)%Z -> (0 <= m)%Z ->
  slice s i (i + m) = firstn (Z.to_nat m) (skipn (Z.to_nat i) s).
Proof.
  intros Hi Hm. unfold slice.
  destruct (i <? 0)%Z eqn:E1; [apply Z.ltb_lt in E1; lia|].
  destruct (i + m <? 0)%Z eqn:E2; [apply Z.ltb_lt in E2; lia|].
  destruct (Z_le_gt_dec i (Z.of_nat (length s))) as [Hi'|Hi'].
  - rewrite (Z.min_l i) by lia.
    destruct (Z_le_gt_dec (i + m) (Z.of_nat (length s))) as [Hle|Hgt].
    + rewrite Z.min_l by lia. f_equal; lia.
    + rewrite Z.min_r by lia.
      rewrite !firstn_all2; [reflexivity | rewrite length_skipn; lia ..].
  - rewrite !skipn_all2 by lia. now rewrite !firstn_nil.
Qed.

Lemma slices_from_total fuel : forall text maxLen i,
  (0 < maxLen)%Z -> (0 <= i)%Z -> (Z.of_nat (length text) - i <= Z.of_nat fuel)%Z ->
  exists parts,
    slices_from fuel text maxLen i = Some parts
    /\ concat parts = skipn (Z.to_nat i) text.
Proof.
  induction fuel as [|fuel IH]; intros text maxLen i Hm Hi Hf; simpl.
  - destruct (i <? Z.of_nat (length text))%Z eqn:E.
    + apply Z.ltb_lt in E; lia.
    + apply Z.ltb_ge in E. exists []; split; [reflexivity|].
      simpl. symmetry; apply skipn_all2; lia.
  - destruct (i <? Z.of_nat (length text))%Z eqn:E.
    + destruct (IH text maxLen (i + maxLen)%Z) as [parts [Hp Hc]]; try lia.
      rewrite Hp. eexists; split; [reflexivity|].
      simpl. rewrite Hc, slice_forward by lia.
      replace (Z.to_nat (i + maxLen)) with (Z.to_nat maxLen + Z.to_nat i)%nat by lia.
      rewrite <- skipn_skipn. apply firstn_skipn.
    + apply Z.ltb_ge in E. exists []; split; [reflexivity|].
      simpl. symmetry; apply skipn_all2; lia.
Qed.

Lemma slices_total text maxLen :
  (0 < maxLen)%Z ->
  exists parts, slices text maxLen = Some parts /\ concat parts = text.
Proof.
  intros Hm. unfold slices.
  destruct (@slices_from_total (length text) text maxLen 0%Z) as [parts [Hp Hc]]; try lia.
  exists parts; split; [exact Hp | exact Hc].
Qed.

(** With a step that is not positive the index never passes the end of a
    non-empty text: the loop does not finish, whatever the number of
    rounds. *)
Lemma slices_diverges fuel : forall text maxLen i,
  (maxLen <= 0)%Z -> (i <= 0)%Z -> text <> [] ->
  slices_from fuel text maxLen i = None.
Proof.
  induction fuel as [|fuel IH]; intros text maxLen i Hm Hi Ht; simpl.
  - destruct (i <? Z.of_nat (length text))%Z eqn:E; [reflexivity|].
    apply Z.ltb_ge in E. destruct text; [congruence | simpl in E; lia].
  - destruct (i <? Z.of_nat (length text))%Z eqn:E.
    + rewrite IH; auto; lia.
    + apply Z.ltb_ge in E. destruct text; [congruence | simpl in E; lia].
Qed.

(* ------------------------------------------------------------------ *)
(** ** Chunks scattered over the text *)

Lemma Scattered_white_l w ts s :
  allWhite w -> Scattered ts s -> Scattered ts (w ++ s).
Proof.
  intros Hw H. destruct H as [w0 H0 | w0 t ts rest H0 H].
  - constructor. now apply allWhite_app.
  - rewrite app_assoc. constructor; [now apply allWhite_app | exact H].
Qed.

Lemma Scattered_app ts s us u :
  Scattered ts s -> Scattered us u -> Scattered (ts ++ us) (s ++ u).
Proof.
  induction 1 as [w Hw | w t ts rest Hw H IH]; intros Hu; simpl.
  - now apply Scattered_white_l.
  - rewrite <- !app_assoc. constructor; auto.
Qed.

Lemma Scattered_trim p : Scattered [trim p] p.
Proof.
  destruct (trim_decomp p) as [w1 [w2 [H1 [H2 Hp]]]].
  rewrite Hp at 2. constructor; [exact H1 | now constructor].
Qed.

Lemma Scattered_trims parts : Scattered (map trim parts) (concat parts).
Proof.
  induction parts as [|p parts IH]; simpl.
  - repeat constructor.
  - apply (Scattered_app (Scattered_trim p) IH).
Qed.

Lemma Scattered_nonWhite ts s :
  Scattered ts s -> nonWhite (concat ts) = nonWhite s.
Proof.
  induction 1 as [w Hw | w t ts rest Hw H IH]; simpl.
  - symmetry; now apply nonWhite_allWhite.
  - rewrite !nonWhite_app, IH, (nonWhite_allWhite Hw). reflexivity.
Qed.

Lemma split_inv_push st done :
  split_inv st done ->
  exists X, Scattered (map text (chunks (push st))) X
            /\ join [LF] done = X
            /\ buf (push st) = []
            /\ currentSection (push st) = currentSection st.
Proof.
  intros [[X [HX HJ]] _]. unfold push.
  destruct (buf st) as [|b bs] eqn:Hb.
  - exists X. rewrite Hb. simpl in HJ. rewrite app_nil_r in HJ. auto.
  - set (J := join [LF] (b :: bs)) in *. exists (X ++ J). simpl.
    repeat split; auto.
    destruct (nonEmpty (trim J)) eqn:E.
    + rewrite map_app. apply Scattered_app; [exact HX | apply Scattered_trim].
    + apply nonEmpty_false, trim_empty_allWhite in E.
      rewrite <- (app_nil_r (map text (chunks st))).
      apply Scattered_app; [exact HX | now constructor].
Qed.

Lemma split_inv_step maxLen overlap st done line :
  (0 < maxLen)%Z -> split_inv st done ->
  exists st', step maxLen overlap st line = Some st'
              /\ split_inv st' (done ++ [line]).
Proof.
  intros Hm Hinv. unfold step.
  set (st1 := match match_heading line with
              | Some h1 => mkState (chunks (push st)) (buf (push st)) (Some (trim h1))
              | None => st end).
  assert (H1 : split_inv st1 done).
  { subst st1. destruct (match_heading line); [|exact Hinv].
    destruct (split_inv_push Hinv) as [X [HX [HJ [Hb _]]]].
    split; simpl; [|now intros _].
    exists X; split; [exact HX|]. rewrite Hb. simpl. now rewrite app_nil_r. }
  clearbody st1. clear Hinv st.
  destruct H1 as [[X [HX HJ]] Hnil].
  assert (H2 : exists X', Scattered (map text (chunks st1)) X'
               /\ join [LF] (done ++ [line]) = X' ++ join [LF] (buf st1 ++ [line])).
  { rewrite !join_snoc. destruct done as [|d done'].
    - rewrite (Hnil eq_refl) in *. simpl in HJ.
      exists X; split; [exact HX|].
      destruct X; [reflexivity | discriminate].
    - destruct (buf st1) as [|b bs].
      + exists (X ++ [LF]); split.
        * rewrite <- (app_nil_r (map text (chunks st1))).
          apply Scattered_app; [exact HX | constructor; apply allWhite_LF].
        * rewrite HJ. simpl. now rewrite app_nil_r, <- app_assoc.
      + exists X; split; [exact HX|].
        rewrite HJ. now rewrite <- !app_assoc. }
  destruct H2 as [X' [HX' HJ']].
  destruct (Z.of_nat (length (join [LF] (buf st1 ++ [line]))) >? maxLen + overlap)%Z.
  - destruct (slices_total (join [LF] (buf st1 ++ [line])) Hm) as [parts [Hp Hc]].
    rewrite Hp. eexists; split; [reflexivity|].
    split; simpl; [|intros E; destruct done; discriminate].
    exists (X' ++ concat parts); split.
    + rewrite map_app, map_map. simpl.
      apply Scattered_app; [exact HX' | apply Scattered_trims].
    + now rewrite app_nil_r, Hc.
  - eexists; split; [reflexivity|].
    split; simpl; [|intros E; destruct done; discriminate].
    exists X'; auto.
Qed.

Lemma split_inv_loop maxLen overlap lines : forall st done,
  (0 < maxLen)%Z -> split_inv st done ->
  exists st', loop maxLen overlap st lines = Some st'
              /\ split_inv st' (done ++ lines).
Proof.
  induction lines as [|line rest IH]; intros st done Hm Hinv; simpl.
  - exists st. now rewrite app_nil_r.
  - destruct (split_inv_step overlap line Hm Hinv) as [st' [Hs Hi]].
    rewrite Hs.
    destruct (IH st' (done ++ [line]) Hm Hi) as [st'' [Hl Hi']].
    exists st''. now rewrite <- app_assoc in Hi'.
Qed.

Lemma splitMarkdown_scattered md maxLen overlap :
  (0 < maxLen)%Z ->
  exists chunks,
    splitMarkdown md maxLen overlap = Some chunks
    /\ Scattered (map text chunks) (join [LF] (split_lines md)).
Proof.
  intros Hm. unfold splitMarkdown.
  assert (H0 : split_inv (mkState [] [] None) []).
  { split; [|reflexivity]. exists []; split; [repeat constructor | reflexivity]. }
  destruct (split_inv_loop overlap (split_lines md) Hm H0) as [st [Hl Hi]].
  rewrite Hl. eexists; split; [reflexivity|].
  destruct (split_inv_push Hi) as [X [HX [HJ _]]].
  simpl in HJ. now rewrite HJ.
Qed.

(** C7. With a positive [maxLen], [splitMarkdown] returns, and its chunk
    texts, concatenated in order, are the input up to white space: the code
    units of the input that are not white space are exactly those of the
    chunks, in the same order, none lost and none repeated. Moreover the
    texts can be read off the input, one after the other, with nothing but
    white space before, between and after them: off the input as the line
    split reads it (every line end an LF), which is the input itself when
    it has no CR LF. *)
Theorem splitMarkdown_reconstructs md maxLen overlap :
  (0 < maxLen)%Z ->
  exists chunks,
    splitMarkdown md maxLen overlap = Some chunks
    /\ nonWhite (concat (map text chunks)) = nonWhite md
    /\ Scattered (map text chunks) (join [LF] (split_lines md))
    /\ (has_CRLF md = false -> Scattered (map text chunks) md).
Proof.
  intros Hm.
  destruct (splitMarkdown_scattered md overlap Hm) as [chunks [Hs Hsc]].
  exists chunks. split; [exact Hs|]. split; [|split].
  - rewrite (Scattered_nonWhite Hsc). apply nonWhite_split_lines.
  - exact Hsc.
  - intros Hcr. now rewrite join_split_lines in Hsc.
Qed.

(** The flush keeps the chunks free of empty texts. *)
Lemma push_drops_empty st :
  Forall (fun c => nonEmpty (text c) = true) (chunks st) ->
  Forall (fun c => nonEmpty (text c) = true) (chunks (push st)).
Proof.
  intros H. unfold push. destruct (buf st) as [|b bs]; [exact H|].
  remember (join [LF] (b :: bs)) as J. cbn [chunks].
  destruct (nonEmpty (trim J)) eqn:E; [|exact H].
  apply Forall_app. split; [exact H | now repeat constructor].
Qed.

(* ------------------------------------------------------------------ *)
(** ** The size of a chunk *)

Lemma length_trimStart s : (length (trimStart s) <= length s)%nat.
Proof.
  induction s as [|c s IH]; simpl; [lia|].
  destruct (isWhiteSpace c); simpl; lia.
Qed.

Lemma length_trim s : (length (trim s) <= length s)%nat.
Proof.
  unfold trim, trimEnd. rewrite length_rev.
  pose proof (length_trimStart (rev (trimStart s))) as H.
  rewrite length_rev in H. pose proof (length_trimStart s). lia.
Qed.

Lemma slices_from_bounded fuel : forall text maxLen i parts,
  (0 < maxLen)%Z -> (0 <= i)%Z ->
  slices_from fuel text maxLen i = Some parts ->
  Forall (fun p => (Z.of_nat (length p) <= maxLen)%Z) parts.
Proof.
  induction fuel as [|fuel IH]; intros text maxLen i parts Hm Hi; simpl.
  - destruct (i <? Z.of_nat (length text))%Z; [discriminate|].
    intros H; injection H as <-. constructor.
  - destruct (i <? Z.of_nat (length text))%Z.
    + destruct (slices_from fuel text maxLen (i + maxLen)) as [rest|] eqn:Hrest;
        [|discriminate].
      intros H; injection H as <-. constructor.
      * rewrite slice_forward by lia. rewrite length_firstn. lia.
      * apply (IH text maxLen (i + maxLen)%Z); [lia | lia | exact Hrest].
    + intros H; injection H as <-. constructor.
Qed.

Lemma push_bounded bound st :
  size_inv bound st -> size_inv bound (push st) /\ buf (push st) = [].
Proof.
  intros [Hc Hb]. unfold push.
  destruct (buf st) as [|b bs] eqn:E.
  - split; [split; [exact Hc | now left] | exact E].
  - destruct Hb as [Hb | Hb]; [discriminate|].
    remember (join [LF] (b :: bs)) as J eqn:HJ.
    split; [|reflexivity]. split; [|now left]. cbn [chunks].
    destruct (nonEmpty (trim J)); [|exact Hc].
    apply Forall_app. split; [exact Hc|]. constructor; [|constructor].
    cbn [Markdown.text]. pose proof (length_trim J). lia.
Qed.

Lemma step_bounded maxLen overlap st line st' :
  (0 < maxLen)%Z -> (0 <= overlap)%Z ->
  size_inv (maxLen + overlap) st ->
  step maxLen overlap st line = Some st' ->
  size_inv (maxLen + overlap) st'.
Proof.
  intros Hm Ho Hinv. unfold step.
  set (st1 := match match_heading line with
              | Some h1 => mkState (chunks (push st)) (buf (push st)) (Some (trim h1))
              | None => st end).
  assert (H1 : size_inv (maxLen + overlap) st1).
  { subst st1. destruct (match_heading line); [|exact Hinv].
    destruct (push_bounded Hinv) as [[Hc Hb] _]. split; assumption. }
  clearbody st1. destruct H1 as [Hc Hb].
  destruct (Z.of_nat (length (join [LF] (buf st1 ++ [line]))) >? maxLen + overlap)%Z
    eqn:Hbig.
  - destruct (slices (join [LF] (buf st1 ++ [line])) maxLen) as [parts|] eqn:Hs;
      [|discriminate].
    intros H; injection H as <-. split; [|now left]. simpl.
    apply Forall_app. split; [exact Hc|].
    apply Forall_map. simpl.
    eapply Forall_impl; [|exact (slices_from_bounded _ _ Hm (Z.le_refl 0) Hs)].
    intros p Hp. cbv beta in Hp. pose proof (length_trim p). lia.
  - intros H; injection H as <-. split; [exact Hc|]. right. simpl.
    rewrite Z.gtb_ltb in Hbig. apply Z.ltb_ge in Hbig. exact Hbig.
Qed.

Lemma loop_bounded maxLen overlap lines : forall st st',
  (0 < maxLen)%Z -> (0 <= overlap)%Z ->
  size_inv (maxLen + overlap) st ->
  loop maxLen overlap st lines = Some st' ->
  size_inv (maxLen + overlap) st'.
Proof.
  induction lines as [|line rest IH]; intros st st' Hm Ho Hinv; simpl.
  - intros H; injection H as <-. exact Hinv.
  - destruct (step maxLen overlap st line) as [st1|] eqn:Hs; [|discriminate].
    apply IH; auto. eapply step_bounded; eassumption.
Qed.

(** No chunk is longer than [maxLen + overlap]: the buffer is flushed or
    cut before it grows beyond that, a slice of a cut has [maxLen] code
    units at most, and trimming only shortens. *)
Theorem splitMarkdown_chunk_size md maxLen overlap chunks :
  (0 < maxLen)%Z -> (0 <= overlap)%Z ->
  splitMarkdown md maxLen overlap = Some chunks ->
  Forall (fun c => (Z.of_nat (length (Markdown.text c)) <= maxLen + overlap)%Z) chunks.
Proof.
  intros Hm Ho. unfold splitMarkdown.
  destruct (loop maxLen overlap (mkState [] [] None) (split_lines md)) as [st|] eqn:Hl;
    [|discriminate].
  intros H; injection H as <-.
  assert (H0 : size_inv (maxLen + overlap) (mkState [] [] None))
    by (split; [constructor | now left]).
  pose proof (loop_bounded _ Hm Ho H0 Hl) as Hinv.
  now destruct (push_bounded Hinv) as [[Hc _] _].
Qed.

(* ------------------------------------------------------------------ *)
(** ** Section labels *)

Lemma splitMarkdown_chunk_lines md maxLen overlap :
  splitMarkdown md maxLen overlap = chunk_lines maxLen overlap (split_lines md).
Proof. reflexivity. Qed.

Lemma loop_app maxLen overlap l1 : forall st l2,
  loop maxLen overlap st (l1 ++ l2) =
  match loop maxLen overlap st l1 with
  | Some st1 => loop maxLen overlap st1 l2
  | None => None
  end.
Proof.
  induction l1 as [|line l1 IH]; intros st l2; simpl; [reflexivity|].
  destruct (step maxLen overlap st line); [apply IH | reflexivity].
Qed.

Lemma emits_under_refl st : emits_under (currentSection st) st st.
Proof.
  split; [reflexivity|]. exists []. split; [now rewrite app_nil_r | constructor].
Qed.

Lemma emits_under_trans label st1 st2 st3 :
  emits_under label st1 st2 -> emits_under label st2 st3 -> emits_under label st1 st3.
Proof.
  intros [_ [new1 [H1 F1]]] [Hl [new2 [H2 F2]]]. split; [exact Hl|].
  exists (new1 ++ new2). split.
  - now rewrite H2, H1, app_assoc.
  - now apply Forall_app.
Qed.

Lemma push_emits st : emits_under (currentSection st) st (push st).
Proof.
  unfold push. destruct (buf st) as [|b bs]; [apply emits_under_refl|].
  remember (join [LF] (b :: bs)) as J.
  split; [reflexivity|]. cbn [chunks].
  destruct (nonEmpty (trim J)).
  - eexists; split; [reflexivity | now repeat constructor].
  - exists []. split; [now rewrite app_nil_r | constructor].
Qed.

(** Appending a line, and cutting the buffer if it has grown too long,
    emits under the current section. *)
Lemma append_emits maxLen overlap st1 line st' :
  (if (Z.of_nat (length (join [LF] (buf st1 ++ [line]))) >? maxLen + overlap)%Z
   then
     match slices (join [LF] (buf st1 ++ [line])) maxLen with
     | Some parts =>
         Some (mkState
                 (chunks st1
                  ++ map (fun p => mkChunk (trim p) (currentSection st1)) parts)
                 [] (currentSection st1))
     | None => None
     end
   else Some (mkState (chunks st1) (buf st1 ++ [line]) (currentSection st1)))
  = Some st' ->
  emits_under (currentSection st1) st1 st'.
Proof.
  destruct (Z.of_nat (length (join [LF] (buf st1 ++ [line]))) >? maxLen + overlap)%Z.
  - destruct (slices (join [LF] (buf st1 ++ [line])) maxLen) as [parts|];
      [|discriminate].
    intros H; injection H as <-. split; [reflexivity|].
    eexists; split; [reflexivity|]. apply Forall_map. now apply Forall_forall.
  - intros H; injection H as <-. split; [reflexivity|].
    exists []. split; [simpl; now rewrite app_nil_r | constructor].
Qed.

Lemma step_plain_emits maxLen overlap st line st' :
  match_heading line = None ->
  step maxLen overlap st line = Some st' ->
  emits_under (currentSection st) st st'.
Proof.
  intros Hh. unfold step. rewrite Hh. apply append_emits.
Qed.

Lemma loop_plain_emits maxLen overlap lines : forall st st',
  Forall (fun line => match_heading line = None) lines ->
  loop maxLen overlap st lines = Some st' ->
  emits_under (currentSection st) st st'.
Proof.
  induction lines as [|line rest IH]; intros st st' Hall; simpl.
  - intros H; injection H as <-. apply emits_under_refl.
  - inversion Hall as [|? ? Hline Hrest]; subst.
    destruct (step maxLen overlap st line) as [st1|] eqn:Hs; [|discriminate].
    intros Hl. pose proof (step_plain_emits _ _ _ _ Hline Hs) as E1.
    pose proof (IH st1 st' Hrest Hl) as E2.
    destruct E1 as [Hc1 E1]. rewrite Hc1 in E2.
    eapply emits_under_trans; [split; [exact Hc1 | exact E1] | exact E2].
Qed.

(** A heading line flushes the buffer under the section before it, and
    whatever follows is emitted under its own label. *)
Lemma step_heading_emits maxLen overlap st line capture st' :
  match_heading line = Some capture ->
  step maxLen overlap st line = Some st' ->
  exists st0,
    chunks st0 = chunks (push st)
    /\ emits_under (Some (trim capture)) st0 st'.
Proof.
  intros Hh. unfold step. rewrite Hh.
  intros Hs. exists (mkState (chunks (push st)) (buf (push st)) (Some (trim capture))).
  split; [reflexivity|]. now apply append_emits in Hs.
Qed.

(** Every chunk emitted from a heading line on, up to the next heading,
    carries the trimmed text of that heading as its section; the chunks
    before are those of the lines before the heading. *)
Theorem heading_labels_following_chunks maxLen overlap pre line capture post all :
  match_heading line = Some capture ->
  Forall (fun l => match_heading l = None) post ->
  chunk_lines maxLen overlap (pre ++ line :: post) = Some all ->
  exists before after,
    chunk_lines maxLen overlap pre = Some before
    /\ all = before ++ after
    /\ Forall (fun c => Markdown.section c = Some (trim capture)) after.
Proof.
  intros Hh Hpost. unfold chunk_lines. rewrite loop_app.
  destruct (loop maxLen overlap (mkState [] [] None) pre) as [st_pre|]; [|discriminate].
  simpl loop.
  destruct (step maxLen overlap st_pre line) as [st1|] eqn:Hs; [|discriminate].
  destruct (loop maxLen overlap st1 post) as [st2|] eqn:Hl; [|discriminate].
  intros H; injection H as <-.
  destruct (step_heading_emits _ _ _ _ Hh Hs) as [st0 [Hc0 E1]].
  pose proof (loop_plain_emits _ _ _ Hpost Hl) as E2.
  destruct E1 as [Hsec1 [new1 [Hn1 F1]]]. rewrite Hsec1 in E2.
  destruct E2 as [Hsec2 [new2 [Hn2 F2]]].
  destruct (push_emits st2) as [_ [new3 [Hn3 F3]]]. rewrite Hsec2 in F3.
  exists (chunks (push st_pre)), (new1 ++ new2 ++ new3).
  split; [reflexivity|]. split.
  - rewrite Hn3, Hn2, Hn1, Hc0. now rewrite <- !app_assoc.
  - repeat (apply Forall_app; split); assumption.
Qed.

(* ------------------------------------------------------------------ *)
(** ** The stream decoder *)

Import Embeddings Service Ollama.

Section Decoder.
Context {R : Runtime} {cfg : Config}.

Lemma fragments_yield_all ys g :
  fragments (yield_all ys g) = ys ++ fragments g.
Proof. induction ys as [|y ys IH]; simpl; [reflexivity | now rewrite IH]. Qed.



(** One round of the loop, by the payload of the line. *)
Lemma read_lines_cons line rest :
  read_lines (line :: rest) =
  let jsonPayload := jsonPayload_of (trim line) in
  if nonEmpty jsonPayload then
    yield_all (fst (catch_ignore (try_body jsonPayload)))
      (match snd (catch_ignore (try_body jsonPayload)) with
       | Normal => read_lines rest
       | Break => Return
       | Threw e => Raise e
       end)
  else read_lines rest.
Proof.
  simpl. destruct (nonEmpty (trim line)) eqn:E; simpl.
  - destruct (nonEmpty (jsonPayload_of (trim line))); simpl; [|reflexivity].
    now destruct (catch_ignore (try_body (jsonPayload_of (trim line)))).
  - apply nonEmpty_false in E. rewrite E. reflexivity.
Qed.


(** A line that parses to a record with a truthy [error] is passed over
    like a line that does not parse. *)
Lemma read_lines_error_line line rest chunk :
  JSON_parse (jsonPayload_of (trim line)) = Some chunk ->
  truthy (get chunk "error") = true ->
  read_lines (line :: rest) = read_lines rest.
Proof.
  intros Hp He. rewrite read_lines_cons. cbv zeta.
  destruct (nonEmpty (jsonPayload_of (trim line))); [|reflexivity].
  unfold try_body. now rewrite Hp, He.
Qed.

Lemma read_lines_bad_json line rest :
  JSON_parse (jsonPayload_of (trim line)) = None ->
  read_lines (line :: rest) = read_lines rest.
Proof.
  intros Hp. rewrite read_lines_cons. cbv zeta.
  destruct (nonEmpty (jsonPayload_of (trim line))); [|reflexivity].
  unfold try_body. now rewrite Hp.
Qed.

Lemma read_lines_record line rest chunk :
  nonEmpty (jsonPayload_of (trim line)) = true ->
  JSON_parse (jsonPayload_of (trim line)) = Some chunk ->
  truthy (get chunk "error") = false ->
  read_lines (line :: rest) =
  yield_all (if truthy (get chunk "response") then [get chunk "response"] else [])
    (if truthy (get chunk "done") then Return else read_lines rest).
Proof.
  intros Hn Hp He. rewrite read_lines_cons. cbv zeta. rewrite Hn.
  unfold try_body. rewrite Hp, He.
  now destruct (truthy (get chunk "done")).
Qed.

(** The same for a line that is its own payload (trimmed, no [data:]
    prefix). *)
Lemma read_lines_plain_record line rest chunk :
  jsonPayload_of (trim line) = line ->
  nonEmpty line = true ->
  JSON_parse line = Some chunk ->
  truthy (get chunk "error") = false ->
  read_lines (line :: rest) =
  yield_all (if truthy (get chunk "response") then [get chunk "response"] else [])
    (if truthy (get chunk "done") then Return else read_lines rest).
Proof.
  intros Hl Hn Hp He. apply read_lines_record; rewrite ?Hl; assumption.
Qed.

(** C5 (amended). With [JSON.parse] reading the three lines as the
    records they spell, the decoder yields ["He"], then ["llo"], and
    returns. On every stream: a line whose payload does not parse is
    passed over; and a line that parses to a record with a truthy [done]
    and no truthy [error] ends the run after its [response], if truthy,
    has been yielded, whatever lines follow. (The [error] of a record is
    looked at first; what becomes of a record that has one is not stated
    here.) *)
Theorem read_lines_fragments_done_skip :
  (JSON_parse (json_lit "{'response':'He'}")
     = Some (obj [("response"%string, JStr (lit "He"))]) ->
   JSON_parse (json_lit "{'response':'llo'}")
     = Some (obj [("response"%string, JStr (lit "llo"))]) ->
   JSON_parse (json_lit "{'done':true}")
     = Some (obj [("done"%string, JBool true)]) ->
   read_lines [json_lit "{'response':'He'}"; json_lit "{'response':'llo'}";
               json_lit "{'done':true}"]
   = Yield (JStr (lit "He")) (Yield (JStr (lit "llo")) Return))
  /\ (forall line rest,
        JSON_parse (jsonPayload_of (trim line)) = None ->
        read_lines (line :: rest) = read_lines rest)
  /\ (forall line rest chunk,
        nonEmpty (jsonPayload_of (trim line)) = true ->
        JSON_parse (jsonPayload_of (trim line)) = Some chunk ->
        truthy (get chunk "error") = false ->
        truthy (get chunk "done") = true ->
        read_lines (line :: rest) =
        if truthy (get chunk "response")
        then Yield (get chunk "response") Return
        else Return).
Proof.
  split; [|split].
  - intros H1 H2 H3.
    rewrite (@read_lines_plain_record (json_lit "{'response':'He'}") _ _
               eq_refl eq_refl H1 eq_refl).
    rewrite (@read_lines_plain_record (json_lit "{'response':'llo'}") _ _
               eq_refl eq_refl H2 eq_refl).
    rewrite (@read_lines_plain_record (json_lit "{'done':true}") _ _
               eq_refl eq_refl H3 eq_refl).
    reflexivity.
  - apply read_lines_bad_json.
  - intros line rest chunk Hn Hp He Hd.
    rewrite (read_lines_record _ _ Hn Hp He), Hd.
    now destruct (truthy (get chunk "response")).
Qed.

Lemma fragments_catch_rethrow g : fragments (catch_rethrow g) = fragments g.
Proof. induction g; simpl; congruence. Qed.

Lemma for_await_spec g : forall fullResponse,
  for_await g fullResponse =
  match outcome g with
  | Ok _ => Ok (fullResponse ++ concat (map ToString (fragments g)))
  | Throw e => Throw e
  | Diverge => Diverge
  end.
Proof.
  induction g as [v next IH| | |]; intros acc; simpl.
  - rewrite IH. destruct (outcome next); [|reflexivity ..].
    now rewrite <- app_assoc.
  - now rewrite app_nil_r.
  - reflexivity.
  - reflexivity.
Qed.

(** C9. [chat] leaves the state [streamChat] leaves; it returns the
    concatenation, in the order they were yielded, of the fragments of the
    run of [streamChat] on the same arguments when that run returns, and
    throws what the run throws when it throws. *)
Theorem chat_concatenates_streamChat message history systemPrompt documents st :
  chat message history systemPrompt documents st =
  (match outcome (fst (streamChat message history systemPrompt documents st)) with
   | Ok _ =>
       Ok (concat (map ToString
             (fragments (fst (streamChat message history systemPrompt documents st)))))
   | Throw e => Throw e
   | Diverge => Diverge
   end,
   snd (streamChat message history systemPrompt documents st)).
Proof.
  unfold chat.
  destruct (streamChat message history systemPrompt documents st) as [g st'].
  simpl. now rewrite for_await_spec.
Qed.

End Decoder.

(* ------------------------------------------------------------------ *)
(** ** The prompt *)

Lemma filter_map_comm {A B} (f : A -> B) (p : B -> bool) (l : list A) :
  filter p (map f l) = map f (filter (fun x => p (f x)) l).
Proof.
  induction l as [|x l IH]; simpl; [reflexivity|].
  destruct (p (f x)); simpl; now rewrite IH.
Qed.

Lemma sanitize_kept history :
  sanitize history = map trimmed (filter has_content history).
Proof.
  unfold sanitize. rewrite filter_map_comm. f_equal.
  apply filter_ext. intros t. unfold has_content. simpl.
  now destruct (trim (Turn.content t)).
Qed.

Lemma join_cons_cons sep (x y : jsstring) l :
  join sep (x :: y :: l) = x ++ sep ++ join sep (y :: l).
Proof. reflexivity. Qed.

Lemma join_app sep (l1 l2 : list jsstring) :
  l1 <> [] -> l2 <> [] ->
  join sep (l1 ++ l2) = join sep l1 ++ sep ++ join sep l2.
Proof.
  intros H1 H2. induction l1 as [|x l1 IH]; [congruence|].
  destruct l1 as [|y l1].
  - destruct l2; [congruence | reflexivity].
  - change ((x :: y :: l1) ++ l2) with (x :: y :: (l1 ++ l2)).
    rewrite !join_cons_cons.
    change (y :: l1 ++ l2) with ((y :: l1) ++ l2).
    rewrite IH by discriminate. now rewrite <- !app_assoc.
Qed.

Lemma nonEmpty_render_turn t : nonEmpty (render_turn t) = true.
Proof. unfold render_turn. now destruct (Turn.role t). Qed.

Lemma nonEmpty_join_blocks t ts :
  nonEmpty (join [LF] (map render_turn (t :: ts))) = true.
Proof.
  simpl. pose proof (nonEmpty_render_turn t) as H.
  destruct (map render_turn ts); [exact H|].
  destruct (render_turn t); [discriminate | reflexivity].
Qed.

(** The conversation block that the source builds in two joins, with the
    empty history section filtered out, is the one flat transcript. *)
Lemma conversationBlock_transcript history message :
  join [LF]
    (filter nonEmpty
       [join [LF] (map render_turn (sanitize history));
        user_block message; open_assistant_block])
  = transcript history message.
Proof.
  unfold transcript. rewrite sanitize_kept.
  destruct (map trimmed (filter has_content history)) as [|t ts].
  - reflexivity.
  - cbn [filter]. rewrite nonEmpty_join_blocks.
    change (nonEmpty (user_block message)) with true.
    change (nonEmpty open_assistant_block) with true. cbv iota.
    rewrite (@join_app [LF] (map render_turn (t :: ts))) by discriminate.
    reflexivity.
Qed.

(** A turn as the source renders it is the turn in the block of its
    role; the transcript of the source is the tagged transcript. *)
Lemma render_turn_tagged t : render_turn (trimmed t) = tagged_turn t.
Proof. unfold render_turn, tagged_turn, trimmed. simpl. now destruct (Turn.role t). Qed.

Lemma transcript_tagged history message :
  transcript history message = tagged_transcript history message.
Proof.
  unfold transcript, tagged_transcript. f_equal. f_equal.
  rewrite map_map. apply map_ext. intros t. apply render_turn_tagged.
Qed.

Section Prompt.
Context {R : Runtime} {cfg : Config}.

(** C8. [buildPromptWithRetrieval] fails as indexing and retrieval fail;
    otherwise its prompt is the system prompt with the citation
    instruction, the documents part, and, between the conversation tags,
    the transcript: for each history turn whose content is not empty
    after trimming, in the order of the history, the block
    [<user>], trimmed content, [</user>] or [<assistant>], trimmed
    content, [</assistant>] of its role, then the message in a user
    block and the open assistant block, joined by line feeds. Turns whose
    content is empty or white space only are not rendered. *)
Theorem buildPrompt_renders_kept_history message history systemPrompt documents st :
  buildPromptWithRetrieval message history systemPrompt documents st =
  match prelude message documents st with
  | (Ok retrieval, st') =>
      (Ok (system_text systemPrompt ++ documents_part (contextBlock retrieval)
           ++ [LF; LF] ++ lit "<conversation>" ++ [LF]
           ++ tagged_transcript history message
           ++ [LF] ++ lit "</conversation>",
           sources retrieval),
       st')
  | (Throw e, st') => (Throw e, st')
  | (Diverge, st') => (Diverge, st')
  end.
Proof.
  unfold buildPromptWithRetrieval, prelude, bind.
  destruct (match documents with
            | Some (d :: ds) => indexDocuments (d :: ds)
            | _ => ret tt
            end st) as [[[]|e|] st1]; try reflexivity.
  destruct (retrieveContext message 6 st1) as [[retrieval|e|] st2]; try reflexivity.
  unfold ret. rewrite conversationBlock_transcript, transcript_tagged.
  unfold system_text, documents_part, citation_instruction.
  now rewrite <- !app_assoc.
Qed.

End Prompt.

(* ------------------------------------------------------------------ *)
(** ** The embedding client *)

Section Embed.
Context {R : Runtime} {cfg : Config}.

Lemma Exchanged_snoc texts w rs w' t r w'' :
  Exchanged texts w rs w' ->
  post_embeddings ollamaUrl embedModel t w' = (r, w'') ->
  Exchanged (texts ++ [t]) w (rs ++ [r]) w''.
Proof.
  induction 1 as [w0 | t0 texts0 w0 r0 w1 rs0 w2 Hp Hex IH]; intros Hpost; simpl.
  - econstructor; [exact Hpost | constructor].
  - econstructor; [exact Hp | now apply IH].
Qed.

Lemma embed_loop_run texts : forall vectors st,
  exists n rs, embed_run texts vectors st n rs.
Proof.
  induction texts as [|t rest IH]; intros vectors st.
  - exists 0%nat, []. unfold embed_run; simpl.
    repeat split; [constructor | constructor | now rewrite app_nil_r].
  - unfold embed_run. simpl. unfold bind, request.
    destruct (post_embeddings ollamaUrl embedModel t (world st)) as [r w'] eqn:Hpost.
    destruct r as [failure | data].
    + exists 1%nat, [inl failure]. simpl. repeat split.
      * econstructor; [exact Hpost | constructor].
      * exists [], (inl failure). repeat split; [constructor|].
        right. now exists failure.
    + destruct (negb (truthy (get data "embedding")) || negb (isArray (get data "embedding")))
        eqn:Hcheck.
      * exists 1%nat, [inr data]. simpl. repeat split.
        -- econstructor; [exact Hpost | constructor].
        -- exists [], (inr data). repeat split; [constructor|].
           left; split; [|reflexivity]. exists data; split; [reflexivity|].
           unfold accepted.
           destruct (truthy (get data "embedding")), (isArray (get data "embedding"));
             simpl in *; congruence.
      * assert (Hacc : accepted data = true).
        { unfold accepted.
          destruct (truthy (get data "embedding")), (isArray (get data "embedding"));
            simpl in *; congruence. }
        set (st1 := mkSt (vectorStore st) w').
        destruct (IH (vectors ++ [match get data "embedding" with
                                   | JArr elems => elems
                                   | _ => []
                                   end]) st1) as [n [rs [Hex [Hstore Hres]]]].
        exists (S n), (inr data :: rs). simpl. repeat split.
        -- econstructor; [exact Hpost | exact Hex].
        -- exact Hstore.
        -- destruct (fst (embed_loop rest _ st1)) as [vs|e|].
           ++ destruct Hres as [Hn [Hall Hvs]]. repeat split.
              ** now f_equal.
              ** constructor; [now exists data | exact Hall].
              ** rewrite Hvs, <- app_assoc. reflexivity.
           ++ destruct Hres as [rs0 [r [Hrs [Hall Hlast]]]].
              exists (inr data :: rs0), r. repeat split.
              ** now rewrite Hrs.
              ** constructor; [now exists data | exact Hall].
              ** exact Hlast.
           ++ exact Hres.
Qed.


Lemma embed_keeps_store texts st :
  vectorStore (snd (embed texts st)) = vectorStore st.
Proof.
  destruct (embed_loop_run texts [] st) as [n [rs [_ [H _]]]]. exact H.
Qed.

Lemma Exchanged_length texts w rs w' :
  Exchanged texts w rs w' -> length rs = length texts.
Proof. induction 1; simpl; congruence. Qed.

(** When [embed] returns, it returns as many vectors as it was given
    texts. *)
Lemma embed_length texts st vectors :
  fst (embed texts st) = Ok vectors -> length vectors = length texts.
Proof.
  destruct (embed_loop_run texts [] st) as [n [rs [Hex [_ Hres]]]].
  fold (embed texts st) in Hres. intros Hok. rewrite Hok in Hres.
  destruct Hres as [Hn [_ Hvs]]. simpl in Hvs.
  rewrite Hvs, length_map. subst n. rewrite firstn_all in Hex.
  exact (Exchanged_length Hex).
Qed.


(** With a healthy backend [embed] returns one vector per text. *)
Lemma embed_loop_healthy texts : forall vectors st,
  healthy_backend ->
  exists vs st',
    embed_loop texts vectors st = (Ok vs, st')
    /\ length vs = (length vectors + length texts)%nat
    /\ vectorStore st' = vectorStore st.
Proof.
  induction texts as [|t rest IH]; intros vectors st Hh; simpl.
  - exists vectors, st. repeat split. simpl; lia.
  - unfold bind, request.
    destruct (Hh t (world st)) as [data [w' [Hpost Hacc]]]. rewrite Hpost.
    unfold accepted in Hacc. apply andb_true_iff in Hacc as [Ht Ha].
    rewrite Ht, Ha. simpl.
    destruct (IH (vectors ++ [match get data "embedding" with
                               | JArr elems => elems
                               | _ => []
                               end]) (mkSt (vectorStore st) w') Hh)
      as [vs [st' [Hrun [Hlen Hstore]]]].
    exists vs, st'. repeat split; [exact Hrun | | exact Hstore].
    rewrite Hlen, length_app. simpl. lia.
Qed.

End Embed.

(* ------------------------------------------------------------------ *)
(** ** Retrieval on an empty index *)

Lemma slice_nil {A} (i j : Z) : slice (@nil A) i j = [].
Proof. unfold slice. now rewrite skipn_nil, firstn_nil. Qed.

Section Retrieve.
Context {R : Runtime} {cfg : Config}.

Lemma search_empty store queryVec k :
  items store = [] -> search store queryVec k = Ok [].
Proof.
  intros H. unfold search. rewrite H. simpl. now rewrite slice_nil.
Qed.

(** C10 (amended). On an empty index [search] returns the empty sequence,
    for every query vector and [k]; [retrieveContext] first embeds the
    query, throws what [embed] throws when that fails, and otherwise
    returns the empty context block and no sources. With a healthy
    embedding backend it returns them. *)
Theorem retrieveContext_empty_index query k st :
  items (vectorStore st) = [] ->
  (forall queryVec k', search (vectorStore st) queryVec k' = Ok [])
  /\ retrieveContext query k st =
     match embed [query] st with
     | (Ok _, st') => (Ok (mkRetrieval [] []), st')
     | (Throw e, st') => (Throw e, st')
     | (Diverge, st') => (Diverge, st')
     end
  /\ (healthy_backend ->
      exists st', retrieveContext query k st = (Ok (mkRetrieval [] []), st')).
Proof.
  intros Hempty.
  assert (Hr : retrieveContext query k st =
               match embed [query] st with
               | (Ok _, st') => (Ok (mkRetrieval [] []), st')
               | (Throw e, st') => (Throw e, st')
               | (Diverge, st') => (Diverge, st')
               end).
  { unfold retrieveContext, bind.
    pose proof (embed_keeps_store [query] st) as Hstore.
    destruct (embed [query] st) as [[vectors|e|] st']; try reflexivity.
    simpl in Hstore. cbv beta.
    destruct vectors as [|qVec vectors].
    - now rewrite Hstore, Hempty.
    - rewrite search_empty by (now rewrite Hstore). reflexivity. }
  split; [|split].
  - intros queryVec k'. now apply search_empty.
  - exact Hr.
  - intros Hh. rewrite Hr. unfold embed.
    destruct (embed_loop_healthy [query] [] st Hh) as [vs [st' [Hrun _]]].
    rewrite Hrun. now exists st'.
Qed.

End Retrieve.

(* ------------------------------------------------------------------ *)
(** ** Indexing *)

Lemma slice_prefix {A} (l : list A) (m : Z) :
  (0 <= m)%Z -> slice l 0 m = take m l.
Proof.
  intros Hm. change m with (0 + m)%Z at 1.
  now rewrite slice_forward by lia.
Qed.

Lemma splitMarkdown_chunks_of content :
  splitMarkdown content 1200 150 = Some (chunks_of content).
Proof.
  unfold chunks_of.
  destruct (@splitMarkdown_scattered content 1200 150) as [all [H _]]; [lia|].
  now rewrite H.
Qed.

Lemma length_attach chunks : forall vectors,
  length (attach chunks vectors) = length chunks.
Proof. induction chunks as [|c cs IH]; intros vectors; simpl; auto. Qed.

Lemma length_entries ids planned :
  length ids = length planned -> length (entries ids planned) = length planned.
Proof.
  intros H. unfold entries. rewrite length_map, length_combine. lia.
Qed.

Lemma combine_app_same {A B} (l1 : list A) : forall (p1 : list B) l2 p2,
  length l1 = length p1 ->
  combine (l1 ++ l2) (p1 ++ p2) = combine l1 p1 ++ combine l2 p2.
Proof.
  induction l1 as [|x l1 IH]; intros [|y p1] l2 p2 H; simpl in *;
    try discriminate; [reflexivity|].
  f_equal. apply IH. congruence.
Qed.

Lemma entries_app ids1 p1 ids2 p2 :
  length ids1 = length p1 ->
  entries (ids1 ++ ids2) (p1 ++ p2) = entries ids1 p1 ++ entries ids2 p2.
Proof.
  intros H. unfold entries. now rewrite combine_app_same, map_app.
Qed.

Lemma length_flat_map_le {A B} (f : A -> list B) (l : list A) (b : nat) :
  (forall x, In x l -> length (f x) <= b)%nat ->
  (length (flat_map f l) <= b * length l)%nat.
Proof.
  induction l as [|x l IH]; intros H; simpl; [lia|].
  rewrite length_app.
  pose proof (H x (or_introl eq_refl)).
  assert (length (flat_map f l) <= b * length l)%nat by (apply IH; intros; apply H; now right).
  lia.
Qed.

Lemma length_flat_map_ones {A B} (f : A -> list B) (l : list A) :
  (forall x, In x l -> length (f x) = 1%nat) ->
  length (flat_map f l) = length l.
Proof.
  induction l as [|x l IH]; intros H; simpl; [reflexivity|].
  rewrite length_app, (H x (or_introl eq_refl)), IH; [reflexivity|].
  intros; apply H; now right.
Qed.

Lemma In_take {A} (n : Z) (l : list A) x : In x (take n l) -> In x l.
Proof.
  intros H. rewrite <- (firstn_skipn (Z.to_nat n) l). apply in_or_app. now left.
Qed.

Lemma length_take_le {A} (n : Z) (l : list A) :
  (length (take n l) <= Z.to_nat n)%nat.
Proof. unfold take. rewrite length_firstn. lia. Qed.

Lemma plan_length_le documents : (length (plan documents) <= 1600)%nat.
Proof.
  unfold plan.
  pose proof (@length_flat_map_le _ _
                (fun doc => map (pair doc) (kept_chunks doc))
                (take MAX_DOCS documents) 80) as H.
  pose proof (length_take_le MAX_DOCS documents) as H20.
  change (Z.to_nat MAX_DOCS) with 20%nat in H20.
  enough (length (flat_map (fun doc => map (pair doc) (kept_chunks doc))
                    (take MAX_DOCS documents))
          <= 80 * length (take MAX_DOCS documents))%nat by lia.
  apply H. intros doc _. rewrite length_map.
  apply (length_take_le MAX_CHUNKS_PER_DOC).
Qed.

Lemma attach_has_vectors chunks : forall vectors,
  (length chunks <= length vectors)%nat ->
  Forall (fun x => vector x <> None) (attach chunks vectors).
Proof.
  induction chunks as [|c cs IH]; intros vectors H; simpl; constructor.
  - destruct vectors; simpl in *; [lia | discriminate].
  - apply IH. destruct vectors; simpl in *; lia.
Qed.

(** [addMany] keeps the store well formed when it is given at least as
    many vectors as chunks. *)
Lemma addMany_well_formed store chunks vectors :
  well_formed store -> (length chunks <= length vectors)%nat ->
  well_formed (addMany store chunks vectors).
Proof.
  intros Hwf Hlen. unfold well_formed, addMany. simpl.
  apply Forall_app. split; [exact Hwf | now apply attach_has_vectors].
Qed.

Lemma new_store_well_formed : well_formed new_store.
Proof. constructor. Qed.

Lemma isEmpty_count store : isEmpty store = true <-> count store = 0%nat.
Proof. unfold isEmpty. apply Nat.eqb_eq. Qed.

Section Index.
Context {R : Runtime} {cfg : Config}.

Lemma add_chunks_run doc chunks : forall toAdd st,
  exists ids st',
    add_chunks doc chunks toAdd st
    = (Ok (fst toAdd ++ map Markdown.text chunks,
           snd toAdd ++ entries ids (map (pair doc) chunks)), st')
    /\ length ids = length chunks
    /\ vectorStore st' = vectorStore st.
Proof.
  induction chunks as [|ch rest IH]; intros toAdd st; simpl.
  - exists [], st. rewrite !app_nil_r. now destruct toAdd.
  - unfold bind, fresh_uuid.
    destruct (randomUUID (world st)) as [u w] eqn:Hu.
    destruct (IH (fst toAdd ++ [Markdown.text ch],
                  snd toAdd ++ [mkInfo u (Markdown.text ch)
                                  (mkMeta (Doc.id doc) (Doc.name doc) (Markdown.section ch))])
                 (mkSt (vectorStore st) w)) as [ids [st' [Hrun [Hlen Hstore]]]].
    exists (u :: ids), st'. rewrite Hrun. simpl.
    repeat split; [| now f_equal | exact Hstore].
    now rewrite <- !app_assoc.
Qed.

Lemma add_docs_run docs : forall toAdd st,
  exists ids st',
    add_docs docs toAdd st
    = (Ok (fst toAdd
           ++ map (fun p => Markdown.text (snd p))
                (flat_map (fun doc => map (pair doc) (kept_chunks doc)) docs),
           snd toAdd
           ++ entries ids (flat_map (fun doc => map (pair doc) (kept_chunks doc)) docs)),
       st')
    /\ length ids = length (flat_map (fun doc => map (pair doc) (kept_chunks doc)) docs)
    /\ vectorStore st' = vectorStore st.
Proof.
  induction docs as [|doc rest IH]; intros toAdd st; simpl.
  - exists [], st. rewrite !app_nil_r. now destruct toAdd.
  - rewrite (slice_prefix (Doc.content doc)) by (unfold MAX_CHARS_PER_DOC; lia).
    rewrite splitMarkdown_chunks_of.
    rewrite slice_prefix by (unfold MAX_CHUNKS_PER_DOC; lia).
    fold (doc_chunks doc). fold (kept_chunks doc).
    unfold bind.
    destruct (add_chunks_run doc (kept_chunks doc) toAdd st)
      as [ids1 [st1 [Hrun1 [Hlen1 Hstore1]]]].
    rewrite Hrun1.
    destruct (IH (fst toAdd ++ map Markdown.text (kept_chunks doc),
                  snd toAdd ++ entries ids1 (map (pair doc) (kept_chunks doc))) st1)
      as [ids2 [st2 [Hrun2 [Hlen2 Hstore2]]]].
    exists (ids1 ++ ids2), st2. rewrite Hrun2. simpl.
    repeat split.
    + rewrite map_app, map_map, entries_app, <- !app_assoc
        by (now rewrite length_map).
      reflexivity.
    + rewrite !length_app, length_map. congruence.
    + congruence.
Qed.

(** What [indexDocuments] does, by its plan: the ids are drawn, the texts
    of the plan are embedded in one call, and the entries are added with
    the vectors. *)
Lemma indexDocuments_run documents st :
  exists ids st1,
    length ids = length (plan documents)
    /\ vectorStore st1 = vectorStore st
    /\ indexDocuments documents st =
       match plan documents with
       | [] => (Ok tt, st1)
       | _ :: _ =>
           match embed (plan_texts documents) st1 with
           | (Ok vectors, st2) =>
               (Ok tt, mkSt (addMany (vectorStore st2)
                               (entries ids (plan documents)) vectors) (world st2))
           | (Throw e, st2) => (Throw e, st2)
           | (Diverge, st2) => (Diverge, st2)
           end
       end.
Proof.
  destruct documents as [|d ds].
  - exists [], st. repeat split.
  - unfold indexDocuments, bind.
    rewrite slice_prefix by (unfold MAX_DOCS; lia).
    destruct (add_docs_run (take MAX_DOCS (d :: ds)) ([], []) st)
      as [ids [st1 [Hrun [Hlen Hstore]]]].
    exists ids, st1. rewrite Hrun. cbn [fst snd app].
    fold (plan (d :: ds)) in *. fold (plan_texts (d :: ds)).
    repeat split; [exact Hlen | exact Hstore |].
    unfold plan_texts.
    destruct (plan (d :: ds)) as [|p ps]; [reflexivity|].
    cbn [map].
    now destruct (embed _ st1) as [[vectors|e|] st2].
Qed.

(** [indexDocuments] keeps the store well formed: it adds its entries with
    the vectors [embed] returned, one per text. *)
Lemma indexDocuments_well_formed documents st :
  well_formed (vectorStore st) ->
  well_formed (vectorStore (snd (indexDocuments documents st))).
Proof.
  intros Hwf.
  destruct (indexDocuments_run documents st) as [ids [st1 [Hlen [Hstore Hrun]]]].
  rewrite Hrun. destruct (plan documents) as [|p ps] eqn:Hplan.
  - simpl. now rewrite Hstore.
  - pose proof (embed_keeps_store (plan_texts documents) st1) as Hkeep.
    pose proof (@embed_length _ _ (plan_texts documents) st1) as Hvs.
    destruct (embed (plan_texts documents) st1) as [[vectors|e|] st2];
      simpl in *; try (rewrite Hkeep, Hstore; exact Hwf).
    apply addMany_well_formed; [rewrite Hkeep, Hstore; exact Hwf|].
    rewrite (Hvs vectors eq_refl). unfold plan_texts.
    rewrite length_entries, length_map, Hplan by exact Hlen. reflexivity.
Qed.

(** C3. [indexDocuments] indexes its plan and nothing else: the chunks of
    the first 20 documents, computed from the first 200000 code units of
    each content, 80 at most per document, hence 1600 at most. When it
    returns, the store has grown by exactly the chunks of the plan; when
    it does not, the store is as it was; it returns whenever the embedding
    backend is healthy; 25 documents of one chunk each make a plan of 20
    chunks. *)
Theorem indexDocuments_caps documents st :
  (fst (indexDocuments documents st) = Ok tt ->
   exists ids,
     length ids = length (plan documents)
     /\ map info (skipn (count (vectorStore st))
                    (items (vectorStore (snd (indexDocuments documents st)))))
        = entries ids (plan documents)
     /\ firstn (count (vectorStore st))
          (items (vectorStore (snd (indexDocuments documents st))))
        = items (vectorStore st)
     /\ count (vectorStore (snd (indexDocuments documents st)))
        = (count (vectorStore st) + length (plan documents))%nat)
  /\ (fst (indexDocuments documents st) <> Ok tt ->
      vectorStore (snd (indexDocuments documents st)) = vectorStore st)
  /\ (healthy_backend -> fst (indexDocuments documents st) = Ok tt)
  /\ (length (plan documents) <= 1600)%nat
  /\ (length documents = 25%nat ->
      (forall doc, In doc documents -> length (doc_chunks doc) = 1%nat) ->
      length (plan documents) = 20%nat).
Proof.
  destruct (indexDocuments_run documents st) as [ids [st1 [Hlen [Hstore Hrun]]]].
  split; [|split; [|split; [|split]]].
  - intros Hok. exists ids. split; [exact Hlen|].
    rewrite Hrun in *. unfold count.
    destruct (plan documents) as [|p ps] eqn:Hplan.
    + destruct ids; [|discriminate].
      simpl. rewrite Hstore, skipn_all, firstn_all.
      split; [reflexivity | split; [reflexivity | lia]].
    + pose proof (embed_keeps_store (plan_texts documents) st1) as Hkeep.
      destruct (embed (plan_texts documents) st1) as [[vectors|e|] st2];
        try discriminate.
      simpl in Hkeep |- *. rewrite Hkeep, Hstore.
      assert (Hmap : forall cs vs, map info (attach cs vs) = cs).
      { induction cs as [|c cs IH]; intros vs; simpl; [reflexivity | now rewrite IH]. }
      rewrite skipn_app, skipn_all, Nat.sub_diag, firstn_app, firstn_all, Nat.sub_diag.
      simpl. rewrite app_nil_r, Hmap, length_app, length_attach, length_entries by exact Hlen.
      repeat split.
  - intros Hne. rewrite Hrun in *.
    destruct (plan documents); [now destruct Hne|].
    pose proof (embed_keeps_store (plan_texts documents) st1) as Hkeep.
    destruct (embed (plan_texts documents) st1) as [[vectors|e|] st2];
      simpl in *; [now destruct Hne | congruence | congruence].
  - intros Hh. rewrite Hrun.
    destruct (plan documents); [reflexivity|].
    unfold embed.
    destruct (embed_loop_healthy (plan_texts documents) [] st1 Hh) as [vs [st2 [He _]]].
    now rewrite He.
  - apply plan_length_le.
  - intros H25 Hone. unfold plan.
    rewrite length_flat_map_ones.
    + unfold take. rewrite length_firstn, H25. reflexivity.
    + intros doc Hin. rewrite length_map. unfold kept_chunks, take.
      rewrite length_firstn, Hone; [reflexivity|].
      eapply In_take; exact Hin.
Qed.

End Index.

(* ------------------------------------------------------------------ *)
(** ** The order of doubles *)

Module FloatOrder.

Lemma SFcompare_rank x y :
  SpecFloat.SFcompare x y =
  match rank x, rank y with
  | Some a, Some b => Some (lex3 a b)
  | _, _ => None
  end.
Proof.
  destruct x as [[|]|[|]| |[|] m e], y as [[|]|[|]| |[|] m' e']; try reflexivity.
  cbn. rewrite Z.compare_opp, (Z.compare_antisym e e').
  destruct (e ?= e')%Z; reflexivity.
Qed.

Lemma lex3_Lt a b :
  lex3 a b = Lt <->
  (fst (fst a) < fst (fst b)
   \/ (fst (fst a) = fst (fst b)
       /\ (snd (fst a) < snd (fst b)
           \/ (snd (fst a) = snd (fst b) /\ snd a < snd b))))%Z.
Proof.
  unfold lex3.
  destruct (Z.compare_spec (fst (fst a)) (fst (fst b)));
    destruct (Z.compare_spec (snd (fst a)) (snd (fst b)));
    destruct (Z.compare_spec (snd a) (snd b));
    split; intros; try discriminate; try reflexivity; lia.
Qed.

Lemma lex3_Gt a b : lex3 a b = Gt <-> lex3 b a = Lt.
Proof.
  unfold lex3.
  rewrite (Z.compare_antisym (fst (fst a))), (Z.compare_antisym (snd (fst a))),
    (Z.compare_antisym (snd a)).
  destruct (fst (fst a) ?= fst (fst b))%Z, (snd (fst a) ?= snd (fst b))%Z,
    (snd a ?= snd b)%Z; simpl; split; congruence.
Qed.

Lemma lex3_Eq a b :
  lex3 a b = Eq <->
  (fst (fst a) = fst (fst b) /\ snd (fst a) = snd (fst b) /\ snd a = snd b)%Z.
Proof.
  unfold lex3.
  destruct (Z.compare_spec (fst (fst a)) (fst (fst b)));
    destruct (Z.compare_spec (snd (fst a)) (snd (fst b)));
    destruct (Z.compare_spec (snd a) (snd b));
    split; intros; try discriminate; try reflexivity; lia.
Qed.

Lemma ltb_rk x y :
  PrimFloat.ltb x y = true <->
  exists a b, rk x = Some a /\ rk y = Some b /\ lex3 a b = Lt.
Proof.
  rewrite ltb_spec. unfold SpecFloat.SFltb, rk. rewrite SFcompare_rank.
  destruct (rank (Prim2SF x)) as [a|], (rank (Prim2SF y)) as [b|]; simpl; split;
    try discriminate;
    try (intros [? [? [? [? _]]]]; discriminate).
  - intros H. exists a, b. repeat split. now destruct (lex3 a b).
  - intros [a' [b' [Ha [Hb Hl]]]]. injection Ha as <-. injection Hb as <-.
    now rewrite Hl.
Qed.

Lemma leb_rk x y :
  PrimFloat.leb x y = true <->
  exists a b, rk x = Some a /\ rk y = Some b /\ lex3 a b <> Gt.
Proof.
  rewrite leb_spec. unfold SpecFloat.SFleb, rk. rewrite SFcompare_rank.
  destruct (rank (Prim2SF x)) as [a|], (rank (Prim2SF y)) as [b|]; simpl; split;
    try discriminate;
    try (intros [? [? [? [? _]]]]; discriminate).
  - intros H. exists a, b. repeat split. now destruct (lex3 a b).
  - intros [a' [b' [Ha [Hb Hl]]]]. injection Ha as <-. injection Hb as <-.
    now destruct (lex3 a b).
Qed.

Lemma eqb_rk x y :
  PrimFloat.eqb x y = true <->
  exists a b, rk x = Some a /\ rk y = Some b /\ lex3 a b = Eq.
Proof.
  rewrite eqb_spec. unfold SpecFloat.SFeqb, rk. rewrite SFcompare_rank.
  destruct (rank (Prim2SF x)) as [a|], (rank (Prim2SF y)) as [b|]; simpl; split;
    try discriminate;
    try (intros [? [? [? [? _]]]]; discriminate).
  - intros H. exists a, b. repeat split. now destruct (lex3 a b).
  - intros [a' [b' [Ha [Hb Hl]]]]. injection Ha as <-. injection Hb as <-.
    now rewrite Hl.
Qed.

Lemma not_nan_rk x : PrimFloat.is_nan x = false <-> exists a, rk x = Some a.
Proof.
  unfold PrimFloat.is_nan. rewrite negb_false_iff, eqb_rk. split.
  - intros [a [_ [Ha _]]]. now exists a.
  - intros [a Ha]. exists a, a. repeat split; auto. now apply lex3_Eq.
Qed.

Ltac ranks :=
  repeat match goal with
  | H : PrimFloat.is_nan _ = false |- _ => apply not_nan_rk in H; destruct H as [? H]
  | H : PrimFloat.ltb _ _ = true |- _ =>
      apply ltb_rk in H; destruct H as [? [? [? [? H]]]]; apply lex3_Lt in H
  | H : PrimFloat.leb _ _ = true |- _ =>
      apply leb_rk in H; destruct H as [? [? [? [? H]]]]
  | H : PrimFloat.eqb _ _ = true |- _ =>
      apply eqb_rk in H; destruct H as [? [? [? [? H]]]]; apply lex3_Eq in H
  end;
  repeat match goal with
  | H : rk ?x = Some ?a, H' : rk ?x = Some ?b |- _ =>
      rewrite H in H'; injection H' as <-
  end.

(** Of two doubles that are not NaN, the second is at most the first
    unless the first is less than the second. *)
Lemma not_ltb_leb x y :
  PrimFloat.is_nan x = false -> PrimFloat.is_nan y = false ->
  PrimFloat.ltb x y = false -> PrimFloat.leb y x = true.
Proof.
  intros Hx Hy Hlt. ranks.
  apply leb_rk. do 2 eexists; repeat split; try eassumption.
  intros Hgt. apply lex3_Gt in Hgt.
  assert (PrimFloat.ltb x y = true) by (apply ltb_rk; eauto).
  congruence.
Qed.

Lemma ltb_leb x y : PrimFloat.ltb x y = true -> PrimFloat.leb x y = true.
Proof.
  intros H. ranks. apply leb_rk. do 2 eexists; repeat split; try eassumption.
  intros Hgt. apply lex3_Gt, lex3_Lt in Hgt. lia.
Qed.

Lemma leb_trans x y z :
  PrimFloat.leb x y = true -> PrimFloat.leb y z = true -> PrimFloat.leb x z = true.
Proof.
  intros H1 H2.
  apply leb_rk in H1 as [a [b [Ha [Hb Hab]]]].
  apply leb_rk in H2 as [b' [c [Hb' [Hc Hbc]]]].
  rewrite Hb in Hb'; injection Hb' as <-.
  apply leb_rk. exists a, c. repeat split; auto.
  intros Hgt. apply lex3_Gt, lex3_Lt in Hgt.
  assert (G1 : ~ lex3 b a = Lt) by (now rewrite <- lex3_Gt).
  assert (G2 : ~ lex3 c b = Lt) by (now rewrite <- lex3_Gt).
  rewrite lex3_Lt in G1, G2. lia.
Qed.

(** Two doubles equal to a third are not one less than the other. *)
Lemma ltb_not_tied x y v :
  PrimFloat.ltb x y = true -> PrimFloat.eqb x v = true -> PrimFloat.eqb y v = true ->
  False.
Proof. intros H1 H2 H3. ranks. lia. Qed.

End FloatOrder.

(* ------------------------------------------------------------------ *)
(** ** The sign of a difference of doubles

    The comparator of [search] is [b.s - a.s]. On doubles that are not
    NaN the difference is positive exactly when [a.s < b.s]: no
    difference of distinct doubles rounds to zero, the doubles having
    subnormals. This is proved here from the specification of the
    operations on doubles. *)

Module FloatDiff.
Import SpecFloat.
Local Open Scope Z_scope.
Local Abbreviation emin := (SpecFloat.emin prec emax).

Lemma digits2_pos_bounds q :
  2 ^ (Zpos (digits2_pos q) - 1) <= Zpos q < 2 ^ Zpos (digits2_pos q).
Proof.
  induction q as [p IH|p IH|]; cbn [digits2_pos].
  - rewrite Pos2Z.inj_succ. change (Zpos p~1) with (2 * Zpos p + 1).
    replace (Z.succ (Zpos (digits2_pos p)) - 1) with (Z.succ (Zpos (digits2_pos p) - 1))
      by lia.
    rewrite !Z.pow_succ_r by lia.
    destruct IH as [H1 H2]. revert H1 H2.
    generalize (2 ^ (Zpos (digits2_pos p) - 1)), (2 ^ Zpos (digits2_pos p)). intros; lia.
  - rewrite Pos2Z.inj_succ. change (Zpos p~0) with (2 * Zpos p).
    replace (Z.succ (Zpos (digits2_pos p)) - 1) with (Z.succ (Zpos (digits2_pos p) - 1))
      by lia.
    rewrite !Z.pow_succ_r by lia.
    destruct IH as [H1 H2]. revert H1 H2.
    generalize (2 ^ (Zpos (digits2_pos p) - 1)), (2 ^ Zpos (digits2_pos p)). intros; lia.
  - cbn. lia.
Qed.

Lemma shr_1_m r : 0 <= shr_m r -> shr_m (shr_1 r) = shr_m r / 2.
Proof.
  destruct r as [m r s]. cbn [shr_m]. intros Hm.
  rewrite <- Z.div2_div.
  destruct m as [|[p|p|]|p]; try reflexivity; lia.
Qed.

Lemma iter_shr_1_m p : forall r,
  0 <= shr_m r -> shr_m (iter_pos shr_1 p r) = shr_m r / 2 ^ Zpos p.
Proof.
  induction p as [p IH|p IH|]; intros r Hr; cbn [iter_pos].
  - assert (H1 : 0 <= shr_m (shr_1 r)) by (rewrite shr_1_m by exact Hr; apply Z.div_pos; lia).
    assert (H2 : 0 <= shr_m (iter_pos shr_1 p (shr_1 r)))
      by (rewrite IH by exact H1; apply Z.div_pos; [exact H1 | apply Z.pow_pos_nonneg; lia]).
    rewrite IH, IH, shr_1_m by assumption.
    rewrite !Z.div_div by (try apply Z.pow_pos_nonneg; lia).
    f_equal. replace (Zpos p~1) with (1 + Zpos p + Zpos p) by lia.
    rewrite !Z.pow_add_r by lia. change (2 ^ 1) with 2. ring.
  - assert (H1 : 0 <= shr_m (iter_pos shr_1 p r))
      by (rewrite IH by exact Hr; apply Z.div_pos; [exact Hr | apply Z.pow_pos_nonneg; lia]).
    rewrite IH, IH by assumption.
    rewrite !Z.div_div by (try apply Z.pow_pos_nonneg; lia).
    f_equal. replace (Zpos p~0) with (Zpos p + Zpos p) by lia.
    rewrite !Z.pow_add_r by lia. ring.
  - rewrite shr_1_m by exact Hr. reflexivity.
Qed.

Lemma shr_record_of_loc_m m l : shr_m (shr_record_of_loc m l) = m.
Proof. destruct l as [|[]]; reflexivity. Qed.

(** Shifting to the exponent of the format keeps a positive mantissa
    positive, when the exponent is not below the least one. *)
Lemma shr_fexp_pos m e l :
  0 < m -> emin <= e ->
  0 < shr_m (fst (shr_fexp prec emax m e l))
  /\ emin <= snd (shr_fexp prec emax m e l).
Proof.
  intros Hm He. unfold shr_fexp, shr.
  destruct m as [|q|q]; try lia.
  cbn [Zdigits2].
  pose proof (digits2_pos_bounds q) as [Hlo _].
  set (d := Zpos (digits2_pos q)) in *.
  destruct (fexp prec emax (d + e) - e) as [|n|n] eqn:En; cbn [fst snd].
  - rewrite shr_record_of_loc_m. lia.
  - rewrite iter_shr_1_m by (rewrite shr_record_of_loc_m; lia).
    rewrite shr_record_of_loc_m. split; [|lia].
    apply Z.div_str_pos. split; [apply Z.pow_pos_nonneg; lia|].
    etransitivity; [|exact Hlo].
    apply Z.pow_le_mono_r; [lia|].
    unfold fexp, SpecFloat.emin, prec, emax in *. lia.
  - rewrite shr_record_of_loc_m. lia.
Qed.

Lemma round_nearest_even_pos m l : 0 < m -> 0 < round_nearest_even m l.
Proof.
  intros Hm. destruct l as [|[]]; cbn; try destruct (Z.even m); lia.
Qed.

(** A positive mantissa rounds to a double of the sign given: never to a
    zero. *)
Lemma binary_round_aux_ltb sx m e l :
  0 < m -> emin <= e ->
  SFltb (S754_zero false) (binary_round_aux prec emax sx m e l) = negb sx.
Proof.
  intros Hm He. unfold binary_round_aux.
  destruct (@shr_fexp_pos m e l Hm He) as [H1 H1'].
  destruct (shr_fexp prec emax m e l) as [mrs' e'] eqn:E1. cbn [fst snd] in *.
  pose proof (@round_nearest_even_pos (shr_m mrs') (loc_of_shr_record mrs') H1) as Hr.
  destruct (@shr_fexp_pos _ e' loc_Exact Hr H1') as [H2 _].
  destruct (shr_fexp prec emax _ e' loc_Exact) as [mrs'' e''] eqn:E2. cbn [fst snd] in *.
  destruct (shr_m mrs'') as [|p|p]; try lia.
  destruct (e'' <=? emax - prec), sx; reflexivity.
Qed.

Lemma shl_align_exponent mx ex ex' :
  emin <= ex -> emin <= ex' -> emin <= snd (shl_align mx ex ex').
Proof.
  intros H H'. unfold shl_align. destruct (ex' - ex); cbn [snd]; lia.
Qed.

Lemma binary_round_ltb sx mx ex :
  emin <= ex ->
  SFltb (S754_zero false) (binary_round prec emax sx mx ex) = negb sx.
Proof.
  intros He. unfold binary_round.
  pose proof (@shl_align_exponent mx ex (fexp prec emax (Zpos (digits2_pos mx) + ex)) He) as Hs.
  destruct (shl_align mx ex _) as [mz ez]. cbn [snd] in Hs.
  apply binary_round_aux_ltb; [lia|].
  apply Hs. unfold fexp, SpecFloat.emin. lia.
Qed.

(** The sign of a rounded integer is the sign of the integer. *)
Lemma binary_normalize_ltb d e :
  emin <= e ->
  SFltb (S754_zero false) (binary_normalize prec emax d e false) = (0 <? d).
Proof.
  intros He. destruct d as [|p|p]; cbn [binary_normalize].
  - reflexivity.
  - now rewrite binary_round_ltb.
  - now rewrite binary_round_ltb.
Qed.

Lemma iter_xO mx d : Zpos (Pos.iter xO mx d) = Zpos mx * 2 ^ Zpos d.
Proof.
  induction d as [|d IH] using Pos.peano_ind.
  - cbn. lia.
  - rewrite Pos.iter_succ, Pos2Z.inj_xO, IH, Pos2Z.inj_succ, Z.pow_succ_r by lia. lia.
Qed.

Lemma shl_align_fst mx ex ez :
  ez <= ex -> Zpos (fst (shl_align mx ex ez)) = Zpos mx * 2 ^ (ex - ez).
Proof.
  intros H. unfold shl_align.
  destruct (ez - ex) as [|d|d] eqn:E; cbn [fst].
  - replace (ex - ez) with 0 by lia. lia.
  - lia.
  - rewrite iter_xO. f_equal. f_equal. lia.
Qed.

(** What [valid_binary] says of a finite double. *)
Lemma bounded_canonical m e :
  bounded prec emax m e = true ->
  emin <= e /\ Zpos (digits2_pos m) <= prec
  /\ (emin < e -> Zpos (digits2_pos m) = prec).
Proof.
  unfold bounded, canonical_mantissa. intros H.
  apply andb_true_iff in H as [H _]. apply Z.eqb_eq in H.
  unfold fexp, SpecFloat.emin, prec, emax in *. lia.
Qed.

(** Two positive doubles compare as their mantissas do, once these are
    aligned on the lesser exponent. *)
Lemma compare_aligned mx ex my ey :
  bounded prec emax mx ex = true -> bounded prec emax my ey = true ->
  match ex ?= ey with
  | Lt => Lt
  | Gt => Gt
  | Eq => Pos.compare_cont Eq mx my
  end
  = (Zpos mx * 2 ^ (ex - Z.min ex ey) ?= Zpos my * 2 ^ (ey - Z.min ex ey)).
Proof.
  intros Hx Hy.
  apply bounded_canonical in Hx as [Hex [Hdx Hnx]].
  apply bounded_canonical in Hy as [Hey [Hdy Hny]].
  pose proof (digits2_pos_bounds mx) as [Hxlo Hxhi].
  pose proof (digits2_pos_bounds my) as [Hylo Hyhi].
  assert (Hpow : forall d, d <= prec -> 2 ^ d <= 2 ^ prec)
    by (intros d Hd; apply Z.pow_le_mono_r; lia).
  assert (Htwo : forall k, 1 <= k -> 2 <= 2 ^ k)
    by (intros k Hk; change 2 with (2 ^ 1) at 1; apply Z.pow_le_mono_r; lia).
  assert (Hprec : 2 ^ prec = 2 * 2 ^ (prec - 1)) by reflexivity.
  destruct (Z.compare_spec ex ey) as [E|E|E].
  - subst ey. rewrite Z.min_id, Z.sub_diag, !Z.mul_1_r. reflexivity.
  - rewrite Z.min_l, Z.sub_diag, Z.mul_1_r by lia. symmetry. apply Z.compare_lt_iff.
    rewrite (Hny ltac:(lia)) in Hylo.
    specialize (Hpow _ Hdx). specialize (Htwo (ey - ex) ltac:(lia)).
    nia.
  - rewrite Z.min_r, Z.sub_diag, Z.mul_1_r by lia. symmetry. apply Z.compare_gt_iff.
    rewrite (Hnx ltac:(lia)) in Hxlo.
    specialize (Hpow _ Hdy). specialize (Htwo (ex - ey) ltac:(lia)).
    nia.
Qed.

Lemma SFltb_finite sx mx ex sy my ey :
  bounded prec emax mx ex = true -> bounded prec emax my ey = true ->
  SFltb (S754_finite sx mx ex) (S754_finite sy my ey)
  = (0 <? cond_Zopp sy (Zpos (fst (shl_align my ey (Z.min ey ex))))
          - cond_Zopp sx (Zpos (fst (shl_align mx ex (Z.min ey ex))))).
Proof.
  intros Hx Hy.
  rewrite !shl_align_fst by lia.
  pose proof (@compare_aligned mx ex my ey Hx Hy) as Hc.
  rewrite (Z.min_comm ey ex).
  assert (Hpx : 0 < Zpos mx * 2 ^ (ex - Z.min ex ey))
    by (apply Z.mul_pos_pos; [lia | apply Z.pow_pos_nonneg; lia]).
  assert (Hpy : 0 < Zpos my * 2 ^ (ey - Z.min ex ey))
    by (apply Z.mul_pos_pos; [lia | apply Z.pow_pos_nonneg; lia]).
  set (MX := Zpos mx * 2 ^ (ex - Z.min ex ey)) in *.
  set (MY := Zpos my * 2 ^ (ey - Z.min ex ey)) in *.
  clearbody MX MY. symmetry in Hc.
  unfold SFltb, SFcompare.
  destruct sx, sy; cbn [cond_Zopp];
    [ | symmetry; apply Z.ltb_lt; lia | symmetry; apply Z.ltb_ge; lia | ].
  all: destruct (Z.compare_spec MX MY) as [E|E|E].
  all: destruct (ex ?= ey); try discriminate Hc.
  all: try (destruct (Pos.compare_cont Eq mx my); try discriminate Hc).
  all: unfold CompOpp; cbv iota; symmetry.
  all: first [apply Z.ltb_lt; lia | apply Z.ltb_ge; lia].
Qed.

(** On doubles that are not NaN, a difference is positive exactly when
    its first term is the greater. *)
Lemma SFsub_sign X Y :
  valid_binary prec emax X = true -> valid_binary prec emax Y = true ->
  X <> S754_nan -> Y <> S754_nan ->
  SFltb (S754_zero false) (SF64sub Y X) = SFltb X Y.
Proof.
  intros HX HY Xn Yn. unfold SF64sub.
  destruct X as [sx|sx| |sx mx ex], Y as [sy|sy| |sy my ey];
    try congruence;
    try (destruct sx, sy; reflexivity);
    try (destruct sx; reflexivity);
    try (destruct sy; reflexivity).
  cbn [valid_binary] in HX, HY. cbn [SFsub].
  rewrite binary_normalize_ltb.
  - symmetry. now apply SFltb_finite.
  - apply bounded_canonical in HX as [HX _]. apply bounded_canonical in HY as [HY _]. lia.
Qed.

Lemma Prim2SF_nan x : PrimFloat.is_nan x = false -> Prim2SF x <> S754_nan.
Proof.
  intros H. unfold Prim2SF. rewrite H.
  destruct (is_zero x); [discriminate|].
  destruct (is_infinity x); [discriminate|].
  destruct (Z.frexp x) as [r e].
  destruct (shr_fexp prec emax _ _ loc_Exact) as [shr e'].
  destruct (shr_m shr); discriminate.
Qed.

Theorem sub_sign x y :
  PrimFloat.is_nan x = false -> PrimFloat.is_nan y = false ->
  PrimFloat.ltb 0 (y - x) = PrimFloat.ltb x y.
Proof.
  intros Hx Hy. rewrite !ltb_spec, sub_spec.
  change (Prim2SF 0) with (S754_zero false).
  apply SFsub_sign; auto using Prim2SF_valid, Prim2SF_nan.
Qed.

End FloatDiff.

(* ------------------------------------------------------------------ *)
(** ** Search *)

Section Ranking.
Import FloatOrder.

Lemma insert_perm (x : Scored) l : Permutation (insert by_score x l) (x :: l).
Proof.
  induction l as [|y l IH]; simpl; [reflexivity|].
  destruct (PrimFloat.ltb 0 (by_score x y)); [|reflexivity].
  rewrite IH. apply perm_swap.
Qed.

Lemma sort_perm (l : list Scored) : Permutation (sort by_score l) l.
Proof.
  induction l as [|x l IH]; simpl; [reflexivity|].
  rewrite insert_perm. now constructor.
Qed.

Lemma comparable_scored_perm l l' :
  Permutation l l' -> comparable_scored l -> comparable_scored l'.
Proof.
  intros Hp Hc a b Ha Hb.
  apply Hc; eapply Permutation_in; try eassumption; now symmetry.
Qed.

Lemma comparable_scored_tail x l : comparable_scored (x :: l) -> comparable_scored l.
Proof. intros Hc a b Ha Hb. apply Hc; now right. Qed.

Lemma insert_sorted x l :
  comparable_scored (x :: l) ->
  StronglySorted descending l -> StronglySorted descending (insert by_score x l).
Proof.
  intros Hc Hs. induction Hs as [|y l Hs IH Hall]; simpl.
  - repeat constructor.
  - destruct (Hc x y (or_introl eq_refl) (or_intror (or_introl eq_refl))) as [Hx Hxy].
    destruct (Hc y y (or_intror (or_introl eq_refl)) (or_intror (or_introl eq_refl)))
      as [Hy _].
    rewrite Hxy. destruct (PrimFloat.ltb (s x) (s y)) eqn:Hlt.
    + constructor.
      * apply IH. intros a b Ha Hb. apply Hc.
        -- destruct Ha as [<- | Ha]; [now left | now right; right].
        -- destruct Hb as [<- | Hb]; [now left | now right; right].
      * eapply Permutation_Forall; [symmetry; apply insert_perm|].
        constructor; [now apply ltb_leb | exact Hall].
    + assert (Hle : descending x y) by (now apply not_ltb_leb).
      constructor; [now constructor|].
      constructor; [exact Hle|].
      eapply Forall_impl; [|exact Hall].
      intros z Hz. unfold descending in *. eapply leb_trans; eassumption.
Qed.

Lemma sort_sorted l :
  comparable_scored l -> StronglySorted descending (sort by_score l).
Proof.
  induction l as [|x l IH]; intros Hc; simpl; [constructor|].
  apply insert_sorted.
  - eapply comparable_scored_perm; [|exact Hc].
    constructor. symmetry. apply sort_perm.
  - apply IH. now apply comparable_scored_tail in Hc.
Qed.

Lemma insert_stable v x l :
  comparable_scored (x :: l) ->
  filter (tied_with v) (insert by_score x l) = filter (tied_with v) (x :: l).
Proof.
  intros Hc. induction l as [|y l IH]; [reflexivity|].
  simpl insert.
  destruct (Hc x y (or_introl eq_refl) (or_intror (or_introl eq_refl))) as [_ Hxy].
  rewrite Hxy. destruct (PrimFloat.ltb (s x) (s y)) eqn:Hlt; [|reflexivity].
  assert (IH' : filter (tied_with v) (insert by_score x l) = filter (tied_with v) (x :: l)).
  { apply IH. intros a b Ha Hb. apply Hc.
    - destruct Ha as [<- | Ha]; [now left | now right; right].
    - destruct Hb as [<- | Hb]; [now left | now right; right]. }
  cbn [filter] in *. rewrite IH'.
  destruct (tied_with v x) eqn:Tx, (tied_with v y) eqn:Ty; try reflexivity.
  unfold tied_with in *. now destruct (ltb_not_tied Hlt Tx Ty).
Qed.

Lemma sort_stable v l :
  comparable_scored l ->
  filter (tied_with v) (sort by_score l) = filter (tied_with v) l.
Proof.
  induction l as [|x l IH]; intros Hc; [reflexivity|].
  simpl sort. rewrite insert_stable.
  - cbn [filter]. rewrite IH by (now apply comparable_scored_tail in Hc). reflexivity.
  - eapply comparable_scored_perm; [|exact Hc].
    constructor. symmetry. apply sort_perm.
Qed.

End Ranking.

Lemma comparableb_comparable scores : comparableb scores = true -> comparable scores.
Proof.
  unfold comparableb, comparable. intros H.
  apply andb_true_iff in H as [H1 H2].
  rewrite forallb_forall in H1, H2. split.
  - apply Forall_forall. intros x Hx. now apply negb_true_iff, H1.
  - intros x y Hx Hy. specialize (H2 x Hx). rewrite forallb_forall in H2.
    now apply Bool.eqb_prop, H2.
Qed.

Section Search.
Context {C : Coercions}.

Lemma scores_of_well_formed queryVec l :
  Forall (fun x => vector x <> None) l ->
  scores_of queryVec l = Ok (map (scored queryVec) l).
Proof.
  induction 1 as [|x l Hx _ IH]; simpl; [reflexivity|].
  rewrite IH. unfold scored, similarity.
  destruct (vector x) as [v|]; [|congruence].
  unfold cosine.
  destruct queryVec as [|q0 qs];
    destruct (cosine_loop _ v _) as [[dot na] nb]; reflexivity.
Qed.

Lemma comparable_scored_of queryVec l :
  comparable (map (similarity queryVec) l) ->
  comparable_scored (map (scored queryVec) l).
Proof.
  intros [Hnan Hsign] a b Ha Hb.
  apply in_map_iff in Ha as [x [<- Hx]]. apply in_map_iff in Hb as [y [<- Hy]].
  simpl. split.
  - rewrite Forall_forall in Hnan. apply Hnan. now apply in_map.
  - unfold by_score. simpl. apply Hsign; now apply in_map.
Qed.

Lemma StronglySorted_map_it queryVec l :
  Forall (fun a => s a = similarity queryVec (it a)) l ->
  StronglySorted descending l ->
  StronglySorted
    (fun h1 h2 => PrimFloat.leb (similarity queryVec h2) (similarity queryVec h1) = true)
    (map it l).
Proof.
  intros Hf Hs. induction Hs as [|a l Hs IH Hall]; simpl; constructor.
  - apply IH. now inversion Hf.
  - inversion Hf as [|? ? Ha Hl]; subst.
    rewrite Forall_map. rewrite Forall_forall in *.
    intros b Hb. unfold descending in Hall.
    rewrite <- Ha, <- (Hl b Hb). now apply Hall.
Qed.

Lemma filter_map_it queryVec v l :
  Forall (fun a => s a = similarity queryVec (it a)) l ->
  filter (fun h => PrimFloat.eqb (similarity queryVec h) v) (map it l)
  = map it (filter (tied_with v) l).
Proof.
  induction 1 as [|a l Ha _ IH]; simpl; [reflexivity|].
  unfold tied_with at 1. rewrite Ha, IH.
  now destruct (PrimFloat.eqb (similarity queryVec (it a)) v).
Qed.

(** On a store whose items all have their vector and whose scores
    against the query are comparable, and for [k >= 0], [search] returns
    the first [k] items of a ranking of the store: a rearrangement of its
    items in which no item has a greater score than an item before it,
    and in which the items of equal score stand in the order in which
    they were inserted. The score is what [cosine] computes. *)
Lemma search_ranks store queryVec k :
  well_formed store ->
  comparable (map (similarity queryVec) (items store)) ->
  (0 <= k)%Z ->
  exists ranked,
    search store queryVec k = Ok (take k ranked)
    /\ length (take k ranked) = Nat.min (Z.to_nat k) (count store)
    /\ Permutation ranked (items store)
    /\ StronglySorted
         (fun h1 h2 =>
            PrimFloat.leb (similarity queryVec h2) (similarity queryVec h1) = true)
         ranked
    /\ (forall v,
          filter (fun h => PrimFloat.eqb (similarity queryVec h) v) ranked
          = filter (fun h => PrimFloat.eqb (similarity queryVec h) v) (items store)).
Proof.
  intros Hwf Hcmp Hk.
  set (scores := map (scored queryVec) (items store)).
  assert (Hc : comparable_scored scores) by (now apply comparable_scored_of).
  assert (Hf : Forall (fun a => s a = similarity queryVec (it a)) scores).
  { unfold scores. rewrite Forall_map. now apply Forall_forall. }
  assert (Hf' : Forall (fun a => s a = similarity queryVec (it a)) (sort by_score scores)).
  { eapply Permutation_Forall; [symmetry; apply sort_perm | exact Hf]. }
  assert (Hit : map it scores = items store).
  { unfold scores. rewrite map_map. simpl. apply map_id. }
  exists (map it (sort by_score scores)). repeat split.
  - unfold search. rewrite scores_of_well_formed by exact Hwf.
    fold scores. rewrite slice_prefix by exact Hk.
    unfold take. now rewrite firstn_map.
  - unfold take, count. rewrite length_firstn, length_map.
    rewrite (Permutation_length (sort_perm scores)).
    unfold scores. now rewrite length_map.
  - rewrite <- Hit. apply Permutation_map, sort_perm.
  - apply StronglySorted_map_it; [exact Hf' | now apply sort_sorted].
  - intros v. rewrite (@filter_map_it queryVec v _ Hf'), sort_stable by exact Hc.
    rewrite <- (@filter_map_it queryVec v _ Hf). now rewrite Hit.
Qed.

(** Scores that are not NaN are comparable: the difference of two of them
    has the sign of their comparison. *)
Lemma no_nan_comparable scores :
  Forall (fun x => PrimFloat.is_nan x = false) scores -> comparable scores.
Proof.
  intros H. split; [exact H|]. rewrite Forall_forall in H.
  intros x y Hx Hy. apply FloatDiff.sub_sign; auto.
Qed.

Lemma cosine_loop_numeric q : forall v d na nb,
  length v = length q ->
  cosine_loop (map JNum q) (map JNum v) (d, na, nb)
  = (fold_left (fun sum p => (sum + fst p * snd p)%float) (combine q v) d,
     fold_left (fun sum p => (sum + fst p * snd p)%float) (combine q q) na,
     fold_left (fun sum p => (sum + fst p * snd p)%float) (combine v v) nb).
Proof.
  induction q as [|a q IH]; intros [|b v] d na nb Hlen; try discriminate Hlen.
  - reflexivity.
  - cbn [map cosine_loop hd tl combine fold_left fst snd ToNumber].
    apply IH. now injection Hlen.
Qed.

(** On sequences of numbers of one length, [cosine] computes the cosine
    similarity of the specification. *)
Lemma cosine_numeric q v :
  length v = length q ->
  cosine (map JNum q) (Some (map JNum v)) = Ok (cosine_similarity q v).
Proof.
  intros Hlen. unfold cosine.
  rewrite (@cosine_loop_numeric q v 0%float 0%float 0%float Hlen).
  now destruct q.
Qed.

Lemma similarity_score q x :
  numeric (length q) x -> similarity (map JNum q) x = score q x.
Proof.
  intros [v [Hv Hlen]]. unfold similarity, score, components.
  rewrite Hv, cosine_numeric by exact Hlen.
  rewrite map_map. simpl. now rewrite map_id.
Qed.

Lemma StronglySorted_ext {A} (R R' : A -> A -> Prop) (P : A -> Prop) l :
  (forall a b, P a -> P b -> R a b -> R' a b) ->
  Forall P l -> StronglySorted R l -> StronglySorted R' l.
Proof.
  intros HR HP Hs. induction Hs as [|a l Hs IH Hall]; constructor.
  - apply IH. now inversion HP.
  - inversion HP as [|? ? Pa Pl]; subst.
    rewrite Forall_forall in *. intros b Hb. apply HR; auto.
Qed.

(** C4 (amended). On a store whose items all carry a vector of numbers of
    the length of the query, itself a sequence of numbers, with no
    similarity that is NaN, and for [k >= 0], [search] returns [min k
    size] items: the first [k] of a rearrangement of the items in which
    no item has a greater cosine similarity to the query than an item
    before it, and in which the items of equal similarity stand in the
    order in which they were inserted. The similarity is the one of the
    specification, [dot(a,b) / (||a|| * ||b|| + 1e-12)]. *)
Theorem search_ranks_by_similarity store q k :
  Forall (numeric (length q)) (items store) ->
  Forall (fun x => PrimFloat.is_nan (score q x) = false) (items store) ->
  (0 <= k)%Z ->
  exists ranked,
    search store (map JNum q) k = Ok (take k ranked)
    /\ length (take k ranked) = Nat.min (Z.to_nat k) (count store)
    /\ Permutation ranked (items store)
    /\ StronglySorted
         (fun h1 h2 => PrimFloat.leb (score q h2) (score q h1) = true) ranked
    /\ (forall v,
          filter (fun h => PrimFloat.eqb (score q h) v) ranked
          = filter (fun h => PrimFloat.eqb (score q h) v) (items store)).
Proof.
  intros Hnum Hnan Hk.
  assert (Hsim : forall x, In x (items store) -> similarity (map JNum q) x = score q x).
  { intros x Hx. apply similarity_score. rewrite Forall_forall in Hnum. auto. }
  destruct (@search_ranks store (map JNum q) k) as [ranked [H1 [H2 [H3 [H4 H5]]]]].
  - eapply Forall_impl; [|exact Hnum]. intros x [v [Hv _]]. now rewrite Hv.
  - apply no_nan_comparable. rewrite Forall_map.
    rewrite Forall_forall in Hnan |- *. intros x Hx. rewrite Hsim by exact Hx. auto.
  - exact Hk.
  - assert (Hin : forall x, In x ranked -> In x (items store))
      by (intros x Hx; eapply Permutation_in; eassumption).
    exists ranked. repeat split; try assumption.
    + apply StronglySorted_ext
        with (R := fun h1 h2 =>
                     PrimFloat.leb (similarity (map JNum q) h2)
                       (similarity (map JNum q) h1) = true)
             (P := fun x => In x (items store)); [| |exact H4].
      * intros a b Ha Hb. now rewrite !Hsim.
      * apply Forall_forall. exact Hin.
    + intros v.
      transitivity
        (filter (fun h => PrimFloat.eqb (similarity (map JNum q) h) v) ranked).
      * apply filter_ext_in. intros x Hx. now rewrite Hsim by auto.
      * rewrite H5. apply filter_ext_in. intros x Hx. now rewrite Hsim.
Qed.

End Search.


(* ------------------------------------------------------------------ *)
(** ** Trimmed strings *)

Lemma trimStart_allWhite_app w s : allWhite w -> trimStart (w ++ s) = trimStart s.
Proof.
  induction 1 as [|c w Hc _ IH]; simpl; [reflexivity|]. now rewrite Hc.
Qed.

Lemma trimStart_allWhite w : allWhite w -> trimStart w = [].
Proof.
  intros H. rewrite <- (app_nil_r w). now rewrite trimStart_allWhite_app.
Qed.

Lemma trimStart_fixed_head c r : trimStart (c :: r) = c :: r -> isWhiteSpace c = false.
Proof.
  simpl. destruct (isWhiteSpace c); [|reflexivity].
  intros H. pose proof (length_trimStart r) as Hl. rewrite H in Hl. simpl in Hl. lia.
Qed.

Lemma trimStart_idem s : trimStart (trimStart s) = trimStart s.
Proof.
  induction s as [|c s IH]; simpl; [reflexivity|].
  destruct (isWhiteSpace c) eqn:Hc; [exact IH|]. simpl. now rewrite Hc.
Qed.

Lemma trimStart_fixed_app s y :
  trimStart s = s -> s <> [] -> trimStart (s ++ y) = s ++ y.
Proof.
  destruct s as [|c r]; [congruence|]. intros H _.
  apply trimStart_fixed_head in H. simpl. now rewrite H.
Qed.

Lemma trimEnd_app_allWhite s w : allWhite w -> trimEnd (s ++ w) = trimEnd s.
Proof.
  intros H. unfold trimEnd. rewrite rev_app_distr, trimStart_allWhite_app; [reflexivity|].
  now apply allWhite_rev.
Qed.

Lemma trimEnd_idem s : trimEnd (trimEnd s) = trimEnd s.
Proof. unfold trimEnd. now rewrite rev_involutive, trimStart_idem. Qed.

Lemma trimStart_trimEnd t : trimStart t = t -> trimStart (trimEnd t) = trimEnd t.
Proof.
  intros H. destruct (trimEnd_decomp t) as [w [_ Ht]].
  destruct (trimEnd t) as [|c r]; [reflexivity|].
  rewrite Ht in H. simpl in H |- *.
  destruct (isWhiteSpace c) eqn:Hc; [|reflexivity].
  pose proof (length_trimStart (r ++ w)) as Hl. rewrite H in Hl. simpl in Hl. lia.
Qed.

Lemma trimStart_trim s : trimStart (trim s) = trim s.
Proof. unfold trim. apply trimStart_trimEnd, trimStart_idem. Qed.

Lemma trimEnd_trim s : trimEnd (trim s) = trim s.
Proof. unfold trim. apply trimEnd_idem. Qed.

(** Trimming twice is trimming once. *)
Lemma trim_idem s : trim (trim s) = trim s.
Proof.
  unfold trim at 1. now rewrite trimStart_trim, trimEnd_trim.
Qed.

Lemma trim_fixed s : trim s = s -> trimStart s = s /\ trimEnd s = s.
Proof.
  intros H. split.
  - rewrite <- H at 1. rewrite trimStart_trim. exact H.
  - rewrite <- H at 1. rewrite trimEnd_trim. exact H.
Qed.

Lemma trimEnd_fixed_app y s :
  trimEnd s = s -> s <> [] -> trimEnd (y ++ s) = y ++ s.
Proof.
  intros H Hs. unfold trimEnd in *. rewrite rev_app_distr.
  assert (Hr : trimStart (rev s) = rev s).
  { rewrite <- (rev_involutive (trimStart (rev s))), H. reflexivity. }
  rewrite trimStart_fixed_app; [now rewrite <- rev_app_distr, rev_involutive | exact Hr |].
  intros E. apply Hs. rewrite <- (rev_involutive s), E. reflexivity.
Qed.

(** White space around a trimmed string is what [trim] removes. *)
Lemma trim_pad w1 s w2 :
  allWhite w1 -> allWhite w2 -> trim s = s -> trim (w1 ++ s ++ w2) = s.
Proof.
  intros H1 H2 Hs. destruct (trim_fixed Hs) as [Hstart Hend].
  unfold trim. rewrite trimStart_allWhite_app by exact H1.
  destruct s as [|c r].
  - simpl. rewrite trimStart_allWhite by exact H2. reflexivity.
  - rewrite trimStart_fixed_app by (exact Hstart || discriminate).
    rewrite trimEnd_app_allWhite by exact H2. exact Hend.
Qed.

Lemma trim_allWhite w : allWhite w -> trim w = [].
Proof. intros H. unfold trim. now rewrite trimStart_allWhite. Qed.

Lemma length_nonEmpty (s : jsstring) : (0 <? length s)%nat = nonEmpty s.
Proof. now destruct s. Qed.

(* ------------------------------------------------------------------ *)
(** ** More on the vector store *)

Lemma attach_app c1 : forall v1 c2 v2,
  length c1 = length v1 ->
  attach (c1 ++ c2) (v1 ++ v2) = attach c1 v1 ++ attach c2 v2.
Proof.
  induction c1 as [|c c1 IH]; intros [|v v1] c2 v2 H; simpl in *; try discriminate.
  - reflexivity.
  - f_equal. apply IH. now injection H.
Qed.

(** Adding in two batches is adding in one: when the first batch comes
    with one vector per chunk, [addMany] twice leaves the store that one
    [addMany] of the joined batches leaves, dimension included. *)
Theorem addMany_batches store c1 v1 c2 v2 :
  length c1 = length v1 ->
  addMany (addMany store c1 v1) c2 v2 = addMany store (c1 ++ c2) (v1 ++ v2).
Proof.
  intros H. unfold addMany. simpl. f_equal.
  - destruct (dim store) as [d|]; [now destruct v1, v2|].
    destruct v1 as [|v v1]; [reflexivity | now destruct v2].
  - rewrite attach_app by exact H. now rewrite app_assoc.
Qed.

(** [addMany] adds one item per chunk, whatever the number of vectors it
    is given: the count grows by the number of chunks, and the store is
    empty afterwards exactly when it was empty and no chunk was given. *)
Theorem addMany_count store chunks vectors :
  count (addMany store chunks vectors) = (count store + length chunks)%nat
  /\ isEmpty (addMany store chunks vectors)
     = isEmpty store && (length chunks =? 0)%nat.
Proof.
  unfold isEmpty, count, addMany. simpl.
  rewrite length_app, length_attach. split; [reflexivity|].
  destruct (length (items store)), (length chunks); reflexivity.
Qed.

Lemma map_info_attach chunks : forall vectors, map info (attach chunks vectors) = chunks.
Proof.
  induction chunks as [|c cs IH]; intros vs; simpl; [reflexivity | now rewrite IH].
Qed.

Lemma slice_from_start {A} (l : list A) (k : Z) :
  slice l 0 k = firstn (sliced (length l) k) l.
Proof.
  unfold slice, sliced. change (0 <? 0)%Z with false. cbv iota.
  rewrite (Z.min_l 0) by lia. simpl skipn. now rewrite Z.sub_0_r.
Qed.

Section Store.
Context {C : Coercions}.

Lemma cosine_kind a b :
  match cosine a b with
  | Ok _ => a = [] \/ b <> None
  | Throw e => e = TypeError /\ a <> [] /\ b = None
  | Diverge => False
  end.
Proof.
  unfold cosine. destruct a as [|a0 a'], b as [v|].
  - now left.
  - now left.
  - destruct (cosine_loop (a0 :: a') v _) as [[dot na] nb]. right; discriminate.
  - repeat split; discriminate.
Qed.

Lemma scores_of_items queryVec l scores :
  scores_of queryVec l = Ok scores -> map it scores = l.
Proof.
  revert scores. induction l as [|x l IH]; intros scores; simpl.
  - intros H; injection H as <-. reflexivity.
  - destruct (cosine queryVec (vector x)) as [sc|e|]; try discriminate.
    destruct (scores_of queryVec l) as [l'|e|]; try discriminate.
    intros H; injection H as <-. simpl. f_equal. now apply IH.
Qed.

Lemma search_hits store queryVec k hits :
  search store queryVec k = Ok hits ->
  (exists rest, Permutation (hits ++ rest) (items store))
  /\ length hits = sliced (count store) k.
Proof.
  unfold search. destruct (scores_of queryVec (items store)) as [scores|e|] eqn:Hs;
    try discriminate.
  intros H; injection H as <-.
  apply scores_of_items in Hs.
  assert (Hlen : length (sort by_score scores) = count store).
  { rewrite (Permutation_length (sort_perm scores)). unfold count.
    rewrite <- Hs. now rewrite length_map. }
  rewrite slice_from_start, Hlen. split.
  - exists (map it (skipn (sliced (count store) k) (sort by_score scores))).
    rewrite <- map_app, firstn_skipn, <- Hs.
    apply Permutation_map, sort_perm.
  - rewrite length_map, length_firstn, Hlen. unfold sliced.
    destruct (k <? 0)%Z eqn:E; [apply Z.ltb_lt in E | apply Z.ltb_ge in E]; lia.
Qed.

(** Whatever the scores are (NaN included), when [search] returns it
    returns items of the store, none more often than the store holds it:
    the first [k] of a rearrangement of the items for [k >= 0], that
    rearrangement without its last [-k] items for [k < 0]. *)
Theorem search_returns_stored store queryVec k hits :
  search store queryVec k = Ok hits ->
  (exists rest, Permutation (hits ++ rest) (items store))
  /\ ((0 <= k)%Z -> length hits = Nat.min (Z.to_nat k) (count store))
  /\ ((k < 0)%Z -> length hits = (count store - Z.to_nat (- k))%nat).
Proof.
  intros H. destruct (search_hits _ _ _ H) as [Hperm Hl].
  split; [exact Hperm|]. rewrite Hl. unfold sliced.
  split; intros Hk;
    (destruct (k <? 0)%Z eqn:E; [apply Z.ltb_lt in E | apply Z.ltb_ge in E]); lia.
Qed.

Lemma scores_of_kind queryVec l :
  match scores_of queryVec l with
  | Ok _ => queryVec = [] \/ Forall (fun x => vector x <> None) l
  | Throw e =>
      e = TypeError /\ queryVec <> [] /\ ~ Forall (fun x => vector x <> None) l
  | Diverge => False
  end.
Proof.
  induction l as [|x l IH]; simpl.
  - right; constructor.
  - pose proof (cosine_kind queryVec (vector x)) as Hc.
    destruct (cosine queryVec (vector x)) as [sc|e|]; [| |exact Hc].
    + destruct (scores_of queryVec l) as [l'|e|]; [| |exact IH].
      * destruct Hc as [Hc|Hc]; [now left|].
        destruct IH as [IH|IH]; [now left | right; now constructor].
      * destruct IH as [He [Hq Hn]]. repeat split; auto.
        intros Hall. apply Hn. now inversion Hall.
    + destruct Hc as [He [Hq Hb]]. repeat split; auto.
      intros Hall. inversion Hall; congruence.
Qed.

Lemma search_kind store queryVec k :
  match search store queryVec k with
  | Ok _ => queryVec = [] \/ well_formed store
  | Throw e => e = TypeError /\ queryVec <> [] /\ ~ well_formed store
  | Diverge => False
  end.
Proof.
  unfold search, well_formed.
  pose proof (scores_of_kind queryVec (items store)) as H.
  now destruct (scores_of queryVec (items store)).
Qed.

(** [search] throws exactly when the query vector is not empty and some
    item of the store has no vector; what it throws is the TypeError of
    reading an index of [undefined]. Otherwise it returns. *)
Theorem search_throws_on_missing_vector store queryVec k :
  (search store queryVec k = Throw TypeError
   <-> queryVec <> [] /\ ~ well_formed store)
  /\ ((queryVec = [] \/ well_formed store) ->
      exists hits, search store queryVec k = Ok hits).
Proof.
  pose proof (search_kind store queryVec k) as H.
  destruct (search store queryVec k) as [hits|e|]; [| |destruct H].
  - split; [split; [discriminate|] | intros _; now exists hits].
    intros [Hq Hn]. destruct H; [now destruct Hq | now destruct Hn].
  - destruct H as [-> [Hq Hn]]. split; [split; [now intros _ | reflexivity]|].
    intros [H | H]; [now destruct Hq | now destruct Hn].
Qed.

Lemma scores_of_empty_query l :
  scores_of [] l = Ok (map (fun x => mkScored x zero_score) l).
Proof.
  induction l as [|x l IH]; simpl; [reflexivity|].
  rewrite IH. unfold cosine. now destruct (vector x).
Qed.

Lemma sort_zero_scores (l : list EmbedChunk) :
  sort by_score (map (fun x => mkScored x zero_score) l)
  = map (fun x => mkScored x zero_score) l.
Proof.
  induction l as [|x l IH]; simpl; [reflexivity|].
  rewrite IH. destruct l as [|y l]; reflexivity.
Qed.

(** With the empty query vector every item scores 0, the sort leaves the
    items as they are, and [search] returns the items in the order of
    their insertion, also the items that have no vector. *)
Theorem search_empty_query store k :
  search store [] k = Ok (slice (items store) 0 k).
Proof.
  unfold search. rewrite scores_of_empty_query, sort_zero_scores.
  rewrite !slice_from_start, length_map, <- firstn_map, map_map. simpl.
  now rewrite map_id.
Qed.

Lemma cosine_loop_tail a : forall b beyond acc,
  (length a <= length b)%nat ->
  cosine_loop a (b ++ beyond) acc = cosine_loop a b acc.
Proof.
  induction a as [|ai a IH]; intros b beyond acc Hlen; [reflexivity|].
  destruct b as [|bi b]; [simpl in Hlen; lia|].
  simpl. destruct acc as [[dot na] nb]. apply IH. simpl in Hlen. lia.
Qed.

(** [cosine] reads of the stored vector the components that the query
    has: components beyond the length of the query change nothing, also
    not the norm taken of the stored vector. *)
Theorem cosine_ignores_tail a b beyond :
  (length a <= length b)%nat ->
  cosine a (Some (b ++ beyond)) = cosine a (Some b).
Proof.
  intros Hlen. unfold cosine. rewrite cosine_loop_tail by exact Hlen.
  now destruct a.
Qed.

End Store.

(* ------------------------------------------------------------------ *)
(** ** More on the stream decoder *)

Section Fragments.
Context {R : Runtime} {cfg : Config}.

Lemma try_body_truthy payload :
  Forall (fun v => truthy v = true) (fst (catch_ignore (try_body payload))).
Proof.
  unfold try_body. destruct (JSON_parse payload) as [chunk|]; [|constructor].
  destruct (truthy (get chunk "error")); [constructor|].
  destruct (truthy (get chunk "response")) eqn:Hr;
    destruct (truthy (get chunk "done")); simpl; repeat constructor; exact Hr.
Qed.

Lemma read_lines_truthy lines :
  Forall (fun v => truthy v = true) (fragments (read_lines lines)).
Proof.
  induction lines as [|line rest IH]; [constructor|].
  rewrite read_lines_cons. cbv zeta.
  destruct (nonEmpty (jsonPayload_of (trim line))); [|exact IH].
  rewrite fragments_yield_all. apply Forall_app. split; [apply try_body_truthy|].
  destruct (snd (catch_ignore (try_body (jsonPayload_of (trim line)))));
    [exact IH | constructor | constructor].
Qed.

(** Every fragment that [streamChat] yields is truthy: it never yields an
    empty string, [null], [false] or 0. *)
Theorem streamChat_fragments_truthy message history systemPrompt documents st :
  Forall (fun v => truthy v = true)
    (fragments (fst (streamChat message history systemPrompt documents st))).
Proof.
  unfold streamChat.
  destruct (buildPromptWithRetrieval message history systemPrompt documents st)
    as [[[prompt srcs]|e|] st1]; try constructor.
  destruct (request (post_generate ollamaUrl ollamaModel prompt) st1)
    as [[lines|e|] st2]; try constructor.
  simpl. rewrite fragments_catch_rethrow. apply read_lines_truthy.
Qed.

(** What has been decoded stays decoded: the fragments of a stream are a
    prefix of the fragments of every stream that goes on after it. *)
Theorem read_lines_prefix lines more_lines :
  exists more,
    fragments (read_lines (lines ++ more_lines)) = fragments (read_lines lines) ++ more.
Proof.
  induction lines as [|line rest [more IH]].
  - now exists (fragments (read_lines more_lines)).
  - change ((line :: rest) ++ more_lines) with (line :: rest ++ more_lines).
    rewrite !read_lines_cons. cbv zeta.
    destruct (nonEmpty (jsonPayload_of (trim line))); [|now exists more].
    rewrite !fragments_yield_all.
    destruct (snd (catch_ignore (try_body (jsonPayload_of (trim line))))).
    + exists more. now rewrite IH, app_assoc.
    + exists []. simpl. now rewrite !app_nil_r.
    + exists []. simpl. now rewrite !app_nil_r.
Qed.

Lemma trim_app_fixed x y :
  trimStart x = x -> x <> [] -> trimEnd y = y -> y <> [] -> trim (x ++ y) = x ++ y.
Proof.
  intros Hx Hx' Hy Hy'. unfold trim.
  rewrite trimStart_fixed_app by assumption. now apply trimEnd_fixed_app.
Qed.

Lemma startsWith_app prefix s : startsWith (prefix ++ s) prefix = true.
Proof.
  induction prefix as [|c prefix IH]; simpl; [now destruct s|].
  now rewrite N.eqb_refl.
Qed.

Lemma jsonPayload_of_data w1 payload :
  allWhite w1 -> clean payload ->
  jsonPayload_of (trim (lit "data:" ++ w1 ++ payload)) = payload.
Proof.
  intros H1 [Hp Hne]. destruct (trim_fixed Hp) as [_ Hend].
  rewrite trim_app_fixed.
  - unfold jsonPayload_of.
    rewrite startsWith_app.
    replace (Z.of_nat (length (lit "data:" ++ w1 ++ payload)))
      with (5 + Z.of_nat (length (w1 ++ payload)))%Z
      by (rewrite !length_app; simpl length; lia).
    rewrite slice_forward by lia.
    change (skipn (Z.to_nat 5) (lit "data:" ++ w1 ++ payload)) with (w1 ++ payload).
    rewrite Nat2Z.id, firstn_all.
    rewrite <- (app_nil_r (w1 ++ payload)), <- app_assoc.
    apply trim_pad; [exact H1 | constructor | exact Hp].
  - reflexivity.
  - discriminate.
  - now apply trimEnd_fixed_app.
  - destruct w1; [exact Hne | discriminate].
Qed.

(** The [data:] prefix of server-sent events is transparent: a line made
    of [data:] and a payload, with white space before, between and after,
    is decoded as the payload alone is (the payload being trimmed, not
    empty, and not itself starting with [data:]). *)
Theorem read_lines_data_prefix w0 w1 w2 payload rest :
  allWhite w0 -> allWhite w1 -> allWhite w2 ->
  clean payload -> startsWith payload (lit "data:") = false ->
  read_lines ((w0 ++ lit "data:" ++ w1 ++ payload ++ w2) :: rest)
  = read_lines (payload :: rest).
Proof.
  intros H0 H1 H2 Hp Hs.
  assert (Hline : trim (w0 ++ lit "data:" ++ w1 ++ payload ++ w2)
                  = trim (lit "data:" ++ w1 ++ payload)).
  { replace (w0 ++ lit "data:" ++ w1 ++ payload ++ w2)
      with (w0 ++ trim (lit "data:" ++ w1 ++ payload) ++ w2).
    - rewrite trim_pad by (auto using trim_idem). reflexivity.
    - destruct Hp as [Hp Hne]. destruct (trim_fixed Hp) as [_ Hend].
      rewrite trim_app_fixed;
        [ now rewrite <- !app_assoc | reflexivity | discriminate
        | now apply trimEnd_fixed_app | destruct w1; [exact Hne | discriminate] ]. }
  rewrite !read_lines_cons. cbv zeta.
  rewrite Hline, jsonPayload_of_data by assumption.
  destruct Hp as [Hp Hne]. rewrite Hp.
  unfold jsonPayload_of. rewrite Hs. reflexivity.
Qed.

End Fragments.

(* ------------------------------------------------------------------ *)
(** ** What the service throws, and what it does to the store *)

Section Outcomes.
Context {R : Runtime} {cfg : Config}.

(** [embed] ends: it returns, or it throws the embedding error or the
    error of a failed request. *)
Lemma embed_kind texts st :
  match fst (embed texts st) with
  | Ok _ => True
  | Throw e => e = invalid_embedding \/ exists failure, e = AxiosError failure
  | Diverge => False
  end.
Proof.
  destruct (embed_loop_run texts [] st) as [n [rs [_ [_ Hres]]]].
  fold (embed texts st) in Hres.
  destruct (fst (embed texts st)) as [vs|e|]; [exact I | | exact Hres].
  destruct Hres as [rs0 [r [_ [_ [[_ He]|[failure [_ He]]]]]]]; [now left|].
  right. now exists failure.
Qed.

(** What [indexDocuments] leaves in the store: the items that were there,
    then the items it added, each with its vector. It ends, and throws
    only what [embed] throws. *)
Lemma indexDocuments_added documents st :
  (exists added,
     items (vectorStore (snd (indexDocuments documents st)))
     = items (vectorStore st) ++ added
     /\ Forall (fun x => vector x <> None) added)
  /\ match fst (indexDocuments documents st) with
     | Ok _ => True
     | Throw e => e = invalid_embedding \/ exists failure, e = AxiosError failure
     | Diverge => False
     end.
Proof.
  destruct (indexDocuments_run documents st) as [ids [st1 [Hlen [Hstore Hrun]]]].
  rewrite Hrun. destruct (plan documents) as [|p ps] eqn:Hplan.
  - simpl. split; [|exact I]. exists []. rewrite Hstore, app_nil_r. split; constructor.
  - pose proof (embed_keeps_store (plan_texts documents) st1) as Hkeep.
    pose proof (@embed_length _ _ (plan_texts documents) st1) as Hvs.
    pose proof (embed_kind (plan_texts documents) st1) as Hkind.
    destruct (embed (plan_texts documents) st1) as [[vectors|e|] st2]; simpl in *.
    + split; [|exact I]. eexists. rewrite Hkeep, Hstore. split; [reflexivity|].
      apply attach_has_vectors.
      rewrite (Hvs vectors eq_refl). unfold plan_texts.
      rewrite length_entries, length_map, Hplan by exact Hlen. reflexivity.
    + split; [|exact Hkind]. exists []. rewrite Hkeep, Hstore, app_nil_r.
      split; constructor.
    + destruct Hkind.
Qed.

Lemma retrieveContext_keeps_store query k st :
  vectorStore (snd (retrieveContext query k st)) = vectorStore st.
Proof.
  unfold retrieveContext, bind.
  pose proof (embed_keeps_store [query] st) as Hkeep.
  destruct (embed [query] st) as [[vectors|e|] st1]; simpl in *; try exact Hkeep.
  destruct vectors as [|qVec vectors].
  - destruct (items (vectorStore st1)); exact Hkeep.
  - destruct (search (vectorStore st1) qVec k); exact Hkeep.
Qed.

(** What [retrieveContext] returns, by the hits of the search. *)
Lemma retrieveContext_hits query k st r :
  fst (retrieveContext query k st) = Ok r ->
  exists qVec hits,
    search (vectorStore st) qVec k = Ok hits
    /\ r = mkRetrieval
             (join ([LF; LF] ++ lit "---" ++ [LF; LF]) (mapi context_entry 0 hits))
             (mapi source_entry 0 hits).
Proof.
  unfold retrieveContext, bind.
  pose proof (embed_keeps_store [query] st) as Hkeep.
  pose proof (@embed_length _ _ [query] st) as Hlen.
  destruct (embed [query] st) as [[vectors|e|] st1]; simpl in *; try discriminate.
  specialize (Hlen vectors eq_refl).
  destruct vectors as [|qVec vectors]; [discriminate|].
  rewrite Hkeep.
  destruct (search (vectorStore st) qVec k) as [hits|e|] eqn:Hs; try discriminate.
  unfold ret. simpl. intros H; injection H as <-. now exists qVec, hits.
Qed.

Lemma retrieveContext_kind query k st :
  well_formed (vectorStore st) ->
  match fst (retrieveContext query k st) with
  | Ok _ => True
  | Throw e => e = invalid_embedding \/ exists failure, e = AxiosError failure
  | Diverge => False
  end.
Proof.
  intros Hwf. unfold retrieveContext, bind.
  pose proof (embed_keeps_store [query] st) as Hkeep.
  pose proof (@embed_length _ _ [query] st) as Hlen.
  pose proof (embed_kind [query] st) as Hkind.
  destruct (embed [query] st) as [[vectors|e|] st1]; simpl in *;
    [|exact Hkind | exact Hkind].
  specialize (Hlen vectors eq_refl).
  destruct vectors as [|qVec vectors]; [discriminate|].
  rewrite Hkeep.
  pose proof (search_kind (vectorStore st) qVec k) as Hs.
  destruct (search (vectorStore st) qVec k) as [hits|e|]; simpl; [exact I | | exact Hs].
  destruct Hs as [_ [_ Hn]]. now destruct Hn.
Qed.

Lemma retrieveContext_ends query k st :
  fst (retrieveContext query k st) <> Diverge.
Proof.
  unfold retrieveContext, bind.
  pose proof (embed_kind [query] st) as Hkind.
  destruct (embed [query] st) as [[vectors|e|] st1]; simpl in *;
    [|discriminate | destruct Hkind].
  destruct vectors as [|qVec vectors].
  - destruct (items (vectorStore st1)); discriminate.
  - pose proof (search_kind (vectorStore st1) qVec k) as Hs.
    destruct (search (vectorStore st1) qVec k); simpl; [discriminate | discriminate|].
    destruct Hs.
Qed.

Lemma mapi_length {A B} (f : A -> nat -> B) l : forall start,
  length (mapi f start l) = length l.
Proof. induction l as [|x l IH]; intros start; simpl; [reflexivity | now rewrite IH]. Qed.

Lemma mapi_map {A B C} (g : B -> C) (f : A -> nat -> B) l : forall start,
  map g (mapi f start l) = mapi (fun x i => g (f x i)) start l.
Proof. induction l as [|x l IH]; intros start; simpl; [reflexivity | now rewrite IH]. Qed.

Lemma mapi_index {A} (l : list A) : forall start,
  mapi (fun _ i => (i + 1)%nat) start l = seq (S start) (length l).
Proof.
  induction l as [|x l IH]; intros start; simpl; [reflexivity|].
  rewrite IH. f_equal. lia.
Qed.

Lemma mapi_const {A B} (g : A -> B) (l : list A) : forall start,
  mapi (fun x _ => g x) start l = map g l.
Proof. induction l as [|x l IH]; intros start; simpl; [reflexivity | now rewrite IH]. Qed.

(** The sources that [retrieveContext] returns are numbered from 1 upward
    without a gap, in the order of the hits; they name the file and the
    section of items of the store, no item more often than the store
    holds it; and for [k >= 0] there are at most [k] of them. *)
Theorem retrieveContext_numbers_sources query k st r :
  fst (retrieveContext query k st) = Ok r ->
  exists hits rest,
    Permutation (hits ++ rest) (items (vectorStore st))
    /\ map Src.n (sources r) = seq 1 (length hits)
    /\ map Src.filename (sources r) = map (fun h => filename (meta (info h))) hits
    /\ map Src.section (sources r) = map (fun h => section (meta (info h))) hits
    /\ ((0 <= k)%Z -> (length hits <= Z.to_nat k)%nat).
Proof.
  intros H. destruct (retrieveContext_hits _ _ _ H) as [qVec [hits [Hs ->]]].
  destruct (search_hits _ _ _ Hs) as [[rest Hperm] Hl].
  exists hits, rest. simpl. unfold source_entry.
  rewrite !mapi_map. simpl.
  rewrite mapi_index, (mapi_const (fun h => filename (meta (info h)))),
    (mapi_const (fun h => section (meta (info h)))).
  repeat split; try exact Hperm.
  intros Hk. rewrite Hl. unfold sliced.
  destruct (k <? 0)%Z eqn:E; [apply Z.ltb_lt in E | apply Z.ltb_ge in E]; lia.
Qed.

(** The store that a call of [indexDocuments] that returns leaves. *)
Lemma indexDocuments_items documents st :
  fst (indexDocuments documents st) = Ok tt ->
  exists ids vectors,
    length ids = length (plan documents)
    /\ items (vectorStore (snd (indexDocuments documents st)))
       = items (vectorStore st) ++ attach (entries ids (plan documents)) vectors.
Proof.
  destruct (indexDocuments_run documents st) as [ids [st1 [Hlen [Hstore Hrun]]]].
  rewrite Hrun. destruct (plan documents) as [|p ps] eqn:Hplan.
  - intros _. exists [], []. simpl. now rewrite Hstore, app_nil_r.
  - pose proof (embed_keeps_store (plan_texts documents) st1) as Hkeep.
    destruct (embed (plan_texts documents) st1) as [[vectors|e|] st2];
      simpl in *; try discriminate.
    intros _. exists ids, vectors. now rewrite Hkeep, Hstore.
Qed.

Lemma entries_files ids planned c :
  In c (entries ids planned) ->
  exists p, In p planned /\ filename (meta c) = Doc.name (fst p).
Proof.
  unfold entries. intros H. apply in_map_iff in H as [[i p] [<- Hin]].
  exists p. split; [now apply in_combine_r in Hin | reflexivity].
Qed.

Lemma plan_documents documents p :
  In p (plan documents) -> In (fst p) (take MAX_DOCS documents).
Proof.
  unfold plan. intros H. apply in_flat_map in H as [doc [Hdoc Hp]].
  apply in_map_iff in Hp as [ch [<- _]]. exact Hdoc.
Qed.

Lemma In_mapi {A B} (f : A -> nat -> B) l y : forall start,
  In y (mapi f start l) -> exists x i, In x l /\ y = f x i.
Proof.
  induction l as [|x l IH]; intros start; simpl; [intros []|].
  intros [<- | H]; [now exists x, start; split; [left|]|].
  destruct (IH _ H) as [x' [i [Hin Hy]]]. exists x', i. split; [now right | exact Hy].
Qed.

(** Retrieval after indexing: the sources cite files that are in the
    store, that is, the files of items that were there before the call
    (the store is shared by all requests) and the first [MAX_DOCS] (20)
    documents just sent; there are as many sources as the store holds
    items, and 6 at most. *)
Theorem retrieval_cites_indexed documents query st r :
  fst (indexDocuments documents st) = Ok tt ->
  fst (retrieveContext query 6 (snd (indexDocuments documents st))) = Ok r ->
  length (sources r) = Nat.min 6 (count (vectorStore st) + length (plan documents))
  /\ Forall
       (fun src =>
          (exists x, In x (items (vectorStore st))
                     /\ Src.filename src = filename (meta (info x)))
          \/ (exists doc, In doc (take MAX_DOCS documents)
                          /\ Src.filename src = Doc.name doc))
       (sources r).
Proof.
  intros Hidx Hret.
  destruct (indexDocuments_items _ _ Hidx) as [ids [vectors [Hlen Hitems]]].
  destruct (retrieveContext_hits _ _ _ Hret) as [qVec [hits [Hs ->]]].
  destruct (search_hits _ _ _ Hs) as [[rest Hperm] Hl].
  cbn [sources]. rewrite mapi_length, Hl. unfold count. rewrite Hitems.
  rewrite length_app, length_attach, length_entries by exact Hlen.
  split; [unfold sliced; change (6 <? 0)%Z with false; cbv iota; lia|].
  apply Forall_forall. intros src Hsrc.
  apply In_mapi in Hsrc as [h [i [Hh ->]]]. simpl.
  assert (Hin : In h (items (vectorStore st) ++ attach (entries ids (plan documents)) vectors)).
  { rewrite <- Hitems. eapply Permutation_in; [exact Hperm|].
    apply in_or_app. now left. }
  apply in_app_or in Hin as [Hold | Hnew].
  - left. now exists h.
  - right. assert (Hi : In (info h) (entries ids (plan documents))).
    { rewrite <- (map_info_attach (entries ids (plan documents)) vectors).
      now apply in_map. }
    apply entries_files in Hi as [p [Hp Hname]].
    exists (fst p). split; [now apply plan_documents | exact Hname].
Qed.

Lemma add_docs_nothing docs : forall toAdd st,
  flat_map (fun doc => map (pair doc) (kept_chunks doc)) docs = [] ->
  add_docs docs toAdd st = (Ok toAdd, st).
Proof.
  induction docs as [|doc rest IH]; intros toAdd st H; simpl; [reflexivity|].
  simpl in H. apply app_eq_nil in H as [Hdoc Hrest].
  apply map_eq_nil in Hdoc.
  rewrite (slice_prefix (Doc.content doc)) by (unfold MAX_CHARS_PER_DOC; lia).
  rewrite splitMarkdown_chunks_of.
  rewrite slice_prefix by (unfold MAX_CHUNKS_PER_DOC; lia).
  fold (doc_chunks doc). fold (kept_chunks doc). rewrite Hdoc.
  unfold bind. simpl. now apply IH.
Qed.

(** When the documents give no chunk to index (no document, or documents
    that are empty or white space only), [indexDocuments] returns without
    a request to the backend and without drawing an identifier: the store
    and the world are as they were. *)
Theorem indexDocuments_nothing_planned documents st :
  plan documents = [] -> indexDocuments documents st = (Ok tt, st).
Proof.
  intros Hplan. destruct documents as [|d ds]; [reflexivity|].
  unfold indexDocuments, bind.
  rewrite slice_prefix by (unfold MAX_DOCS; lia).
  rewrite add_docs_nothing by exact Hplan. reflexivity.
Qed.

Lemma well_formed_added store store' added :
  items store' = items store ++ added ->
  Forall (fun x => vector x <> None) added ->
  well_formed store -> well_formed store'.
Proof.
  unfold well_formed. intros -> Ha Hwf. apply Forall_app. now split.
Qed.

Lemma index_step_added documents st :
  (exists added,
     items (vectorStore (snd (index_step documents st)))
     = items (vectorStore st) ++ added
     /\ Forall (fun x => vector x <> None) added
     /\ (documents = None -> vectorStore (snd (index_step documents st)) = vectorStore st))
  /\ match fst (index_step documents st) with
     | Ok _ => True
     | Throw e => e = invalid_embedding \/ exists failure, e = AxiosError failure
     | Diverge => False
     end.
Proof.
  destruct documents as [[|d ds]|]; simpl.
  - split; [|exact I]. exists []. rewrite app_nil_r.
    split; [reflexivity | split; [constructor | discriminate]].
  - destruct (indexDocuments_added (d :: ds) st) as [[added [Hi Ha]] Hk].
    split; [|exact Hk]. exists added.
    split; [exact Hi | split; [exact Ha | discriminate]].
  - split; [|exact I]. exists []. rewrite app_nil_r.
    split; [reflexivity | split; [constructor | reflexivity]].
Qed.

Lemma buildPrompt_added message history systemPrompt documents st :
  (exists added,
     items (vectorStore (snd (buildPromptWithRetrieval message history systemPrompt
                                documents st)))
     = items (vectorStore st) ++ added
     /\ Forall (fun x => vector x <> None) added
     /\ (documents = None ->
         vectorStore (snd (buildPromptWithRetrieval message history systemPrompt
                             documents st)) = vectorStore st))
  /\ fst (buildPromptWithRetrieval message history systemPrompt documents st) <> Diverge
  /\ (well_formed (vectorStore st) ->
      forall e,
        fst (buildPromptWithRetrieval message history systemPrompt documents st) = Throw e ->
        e = invalid_embedding \/ exists failure, e = AxiosError failure).
Proof.
  unfold buildPromptWithRetrieval, bind. fold (index_step documents).
  destruct (index_step_added documents st) as [[added [Hi [Ha Hnone]]] Hk].
  destruct (index_step documents st) as [[[]|e|] st1]; simpl in *.
  - pose proof (retrieveContext_keeps_store message 6 st1) as Hkeep.
    pose proof (@retrieveContext_ends message 6 st1) as Hends.
    pose proof (@retrieveContext_kind message 6 st1) as Hkind.
    destruct (retrieveContext message 6 st1) as [[retrieval|e|] st2]; simpl in *.
    + split; [|split; [discriminate | discriminate]].
      exists added. rewrite Hkeep. repeat split; auto.
    + split; [|split; [discriminate|]].
      * exists added. rewrite Hkeep. repeat split; auto.
      * intros Hwf e' He'. injection He' as <-.
        apply Hkind. exact (well_formed_added _ Hi Ha Hwf).
    + now destruct Hends.
  - split; [|split; [discriminate|]].
    + exists added. repeat split; auto.
    + intros _ e' He'. injection He' as <-. exact Hk.
  - destruct Hk.
Qed.


Lemma request_kind {A} (f : env -> (AxiosFailure + A) * env) st :
  vectorStore (snd (request f st)) = vectorStore st
  /\ match fst (request f st) with
     | Ok _ => True
     | Throw e => exists failure, e = AxiosError failure
     | Diverge => False
     end.
Proof.
  unfold request. destruct (f (world st)) as [[failure|a] w]; simpl; split; auto.
  now exists failure.
Qed.


(** A request that fails before anything is streamed. Without documents
    the first request of [streamChat] is the embedding of the message:
    when it fails, [streamChat] yields nothing and throws the error of a
    failed request, and [chat] throws it too. And when the prompt is
    built and the generation request fails, the same holds. The store is
    as it was, respectively as the prompt assembly left it. *)
Theorem streamChat_request_failure message history systemPrompt :
  (forall st failure w',
     post_embeddings ollamaUrl embedModel message (world st) = (inl failure, w') ->
     streamChat message history systemPrompt None st
     = (Raise (request_failed failure), mkSt (vectorStore st) w')
     /\ chat message history systemPrompt None st
        = (Throw (request_failed failure), mkSt (vectorStore st) w'))
  /\ (forall documents st prompt srcs st1 failure w',
        buildPromptWithRetrieval message history systemPrompt documents st
        = (Ok (prompt, srcs), st1) ->
        post_generate ollamaUrl ollamaModel prompt (world st1) = (inl failure, w') ->
        streamChat message history systemPrompt documents st
        = (Raise (request_failed failure), mkSt (vectorStore st1) w')
        /\ chat message history systemPrompt documents st
           = (Throw (request_failed failure), mkSt (vectorStore st1) w')).
Proof.
  assert (Hre : forall failure, rethrow (AxiosError failure) = request_failed failure).
  { intros failure. unfold rethrow, request_failed.
    now destruct (truthy (response_data_error failure)). }
  split.
  - intros st failure w' Hp.
    assert (Hs : streamChat message history systemPrompt None st
                 = (Raise (request_failed failure), mkSt (vectorStore st) w')).
    { unfold streamChat, buildPromptWithRetrieval, retrieveContext, embed, bind, ret.
      simpl. unfold bind, request. rewrite Hp. now rewrite Hre. }
    split; [exact Hs|]. unfold chat. now rewrite Hs.
  - intros documents st prompt srcs st1 failure w' Hb Hp.
    assert (Hs : streamChat message history systemPrompt documents st
                 = (Raise (request_failed failure), mkSt (vectorStore st1) w')).
    { unfold streamChat. rewrite Hb. unfold request. rewrite Hp.
      now rewrite Hre. }
    split; [exact Hs|]. unfold chat. now rewrite Hs.
Qed.

(** [streamChat] only ever adds to the store: it leaves the items that
    were there, in their order, followed by the items it indexed, each
    with its vector; without documents it leaves the store as it
    was. *)
Theorem streamChat_extends_store message history systemPrompt documents st :
  exists added,
    items (vectorStore (snd (streamChat message history systemPrompt documents st)))
    = items (vectorStore st) ++ added
    /\ Forall (fun x => vector x <> None) added
    /\ (documents = None ->
        vectorStore (snd (streamChat message history systemPrompt documents st))
        = vectorStore st).
Proof.
  unfold streamChat.
  destruct (buildPrompt_added message history systemPrompt documents st)
    as [[added [Hi [Ha Hnone]]] _].
  exists added.
  destruct (buildPromptWithRetrieval message history systemPrompt documents st)
    as [[[prompt srcs]|e0|] st1]; simpl in *; [|now repeat split ..].
  destruct (request_kind (post_generate ollamaUrl ollamaModel prompt) st1) as [Hs _].
  destruct (request (post_generate ollamaUrl ollamaModel prompt) st1)
    as [[lines|e0|] st2]; simpl in *; rewrite Hs; now repeat split.
Qed.

End Outcomes.

(* ------------------------------------------------------------------ *)
(** ** The controller *)

Lemma clean_trim s : nonEmpty (trim s) = true -> clean (trim s).
Proof.
  intros H. split; [apply trim_idem|]. now destruct (trim s).
Qed.

Lemma compact_length {A} (l : list (option A)) : (length (Controller.compact l) <= length l)%nat.
Proof. induction l as [|[x|] l IH]; simpl; lia. Qed.

Lemma compact_Forall {A B} (f : A -> option B) (P : B -> Prop) (l : list A) :
  (forall x y, f x = Some y -> P y) -> Forall P (Controller.compact (map f l)).
Proof.
  intros H. induction l as [|x l IH]; simpl; [constructor|].
  destruct (f x) as [y|] eqn:E; [constructor; eauto | exact IH].
Qed.

Lemma history_entry_clean entry t :
  Controller.history_entry entry = Some t -> clean (Turn.content t).
Proof.
  unfold Controller.history_entry.
  destruct (negb (truthy entry) || negb (Controller.isObject entry)); [discriminate|].
  destruct (_ || _); [discriminate|].
  destruct (get entry "content") as [| | | |c| |]; try discriminate.
  destruct (nonEmpty (trim c)) eqn:E; [|discriminate].
  simpl. intros H; injection H as <-. simpl. now apply clean_trim.
Qed.

Lemma document_entry_clean doc d :
  Controller.document_entry doc = Some d -> clean (Controller.content d).
Proof.
  unfold Controller.document_entry.
  destruct (negb (truthy doc) || negb (Controller.isObject doc)); [discriminate|].
  destruct (get doc "id"); try discriminate.
  destruct (get doc "name"); try discriminate.
  destruct (get doc "size"); try discriminate.
  destruct (get doc "content") as [| | | |c| |]; try discriminate.
  destruct (nonEmpty (trim c)) eqn:E; [|discriminate].
  simpl. intros H; injection H as <-. simpl. now apply clean_trim.
Qed.

Lemma length_slice_last {A} (l : list A) (n : Z) :
  (0 < n)%Z -> (length (slice l (- n) (Z.of_nat (length l))) <= Z.to_nat n)%nat.
Proof.
  intros Hn. unfold slice. rewrite length_firstn, length_skipn.
  destruct (- n <? 0)%Z eqn:E1; [apply Z.ltb_lt in E1 | apply Z.ltb_ge in E1];
    destruct (Z.of_nat (length l) <? 0)%Z eqn:E2;
    try (apply Z.ltb_lt in E2); try (apply Z.ltb_ge in E2); lia.
Qed.

Lemma sanitize_history_clean history turns :
  Controller.sanitize_history history = inr turns ->
  (length turns <= 12)%nat /\ Forall (fun t => clean (Turn.content t)) turns.
Proof.
  destruct history as [| | | | |entries|]; simpl; try discriminate.
  - intros H; injection H as <-. split; [simpl; lia | constructor].
  - intros H; injection H as <-. split.
    + etransitivity; [apply compact_length|]. rewrite length_map.
      apply (@length_slice_last _ entries 12). lia.
    + apply compact_Forall. apply history_entry_clean.
Qed.

(** The handler takes a body exactly when it is truthy, its [message] is
    a string that is not white space only, and [history], [systemPrompt]
    and [documents] are each missing or of the right kind (array, string,
    array). What is wrong inside the arrays does not make it refuse. *)
Theorem validate_accepts body :
  acceptable body = true <-> exists req, Controller.validate body = inr req.
Proof.
  unfold acceptable, Controller.validate.
  destruct (truthy body); simpl; [|split; [discriminate | now intros [req H]]].
  destruct (get body "message") as [| | | |message| |]; simpl;
    try (split; [discriminate | now intros [req H]]).
  destruct (nonEmpty (trim message)); simpl; [|split; [discriminate | now intros [req H]]].
  destruct (get body "history") as [| | | | |entries|]; simpl;
    try (split; [discriminate | now intros [req H]]);
    (destruct (get body "systemPrompt") as [| | | |sp| |]; simpl;
     try (split; [discriminate | now intros [req H]]);
     (destruct (get body "documents") as [| | | | |docs|]; simpl;
      try (split; [discriminate | now intros [req H]]);
      (split; [intros _; eexists; reflexivity | reflexivity]))).
Qed.

(** What the checks of [validate] amount to when they pass. *)
Lemma validate_fields body req :
  Controller.validate body = inr req ->
  exists message,
    get body "message" = JStr message
    /\ nonEmpty (trim message) = true
    /\ Controller.trimmedMessage req = trim message
    /\ Controller.sanitize_history (get body "history")
       = inr (Controller.sanitizedHistory req)
    /\ Controller.sanitize_systemPrompt (get body "systemPrompt")
       = inr (Controller.sanitizedSystemPrompt req)
    /\ Controller.sanitize_documents (get body "documents")
       = inr (Controller.sanitizedDocuments req).
Proof.
  unfold Controller.validate.
  destruct (negb (truthy body)); [discriminate|].
  destruct (get body "message") as [| | | |message| |]; try discriminate.
  destruct (nonEmpty (trim message)) eqn:Hm; simpl; [|discriminate].
  destruct (Controller.sanitize_history (get body "history")) as [e|turns];
    [discriminate|].
  destruct (Controller.sanitize_systemPrompt (get body "systemPrompt")) as [e|sp];
    [discriminate|].
  destruct (Controller.sanitize_documents (get body "documents")) as [e|docs];
    [discriminate|].
  intros H; injection H as <-. simpl. now exists message.
Qed.

(** What the handler passes to the service has been cleaned: the message
    is trimmed and not empty; the history has at most 12 turns, each with
    a content that is trimmed and not empty; the system prompt, if there
    is one, is trimmed and not empty; the documents, if there are any, are
    a list that is not empty, each with a content that is trimmed and not
    empty. *)
Theorem validate_sanitizes body req :
  Controller.validate body = inr req ->
  clean (Controller.trimmedMessage req)
  /\ (length (Controller.sanitizedHistory req) <= 12)%nat
  /\ Forall (fun t => clean (Turn.content t)) (Controller.sanitizedHistory req)
  /\ (forall sp, Controller.sanitizedSystemPrompt req = Some sp -> clean sp)
  /\ (forall docs, Controller.sanitizedDocuments req = Some docs ->
        docs <> [] /\ Forall (fun d => clean (Controller.content d)) docs).
Proof.
  intros Hv. destruct (@validate_fields body req Hv) as [message [_ [Hm [-> [Hh [Hs Hd]]]]]].
  destruct (sanitize_history_clean _ Hh) as [Hlen Hclean].
  split; [now apply clean_trim|]. split; [exact Hlen|]. split; [exact Hclean|]. split.
  - intros sp' E. rewrite E in Hs.
    destruct (get body "systemPrompt") as [| | | |s| |]; try discriminate.
    simpl in Hs. rewrite length_nonEmpty in Hs.
    destruct (nonEmpty (trim s)) eqn:E'; [|discriminate].
    injection Hs as <-. now apply clean_trim.
  - intros docs' E. rewrite E in Hd.
    destruct (get body "documents") as [| | | | |ds|]; try discriminate.
    simpl in Hd.
    pose proof (@compact_Forall _ _ Controller.document_entry
                  (fun d => clean (Controller.content d)) ds document_entry_clean) as Hall.
    destruct (Controller.compact (map Controller.document_entry ds)) as [|d0 rest];
      [discriminate|].
    injection Hd as <-. split; [discriminate | exact Hall].
Qed.

Lemma slice_last_app {A} (old recent : list A) :
  recent <> [] ->
  slice (old ++ recent) (- Z.of_nat (length recent)) (Z.of_nat (length (old ++ recent)))
  = recent.
Proof.
  intros Hne. unfold slice. rewrite length_app.
  destruct recent as [|r recent]; [congruence|].
  replace (- Z.of_nat (length (r :: recent)) <? 0)%Z with true
    by (symmetry; apply Z.ltb_lt; simpl length; lia).
  replace (Z.of_nat (length old + length (r :: recent)) <? 0)%Z with false
    by (symmetry; apply Z.ltb_ge; lia).
  rewrite Z.min_id.
  replace (Z.max (Z.of_nat (length old + length (r :: recent))
                  + - Z.of_nat (length (r :: recent))) 0)
    with (Z.of_nat (length old)) by lia.
  rewrite Nat2Z.id, skipn_app, skipn_all, Nat.sub_diag. simpl skipn.
  apply firstn_all2. simpl length. lia.
Qed.

(** Only the last 12 entries of the history count: entries before them
    change nothing, whatever they are. *)
Theorem sanitize_history_window old recent :
  length recent = 12%nat ->
  Controller.sanitize_history (JArr (old ++ recent))
  = Controller.sanitize_history (JArr recent).
Proof.
  intros H. unfold Controller.sanitize_history, Controller.MAX_HISTORY_ENTRIES.
  replace 12%Z with (Z.of_nat (length recent)) by (rewrite H; reflexivity).
  assert (Hne : recent <> []) by (destruct recent; [discriminate H | discriminate]).
  rewrite slice_last_app by exact Hne.
  pose proof (@slice_last_app _ [] recent Hne) as Hs. simpl app in Hs. now rewrite Hs.
Qed.

Lemma sanitize_clean history :
  Forall (fun t => clean (Turn.content t)) history -> sanitize history = history.
Proof.
  unfold sanitize. induction 1 as [|t l [Ht Hne] _ IH]; [reflexivity|].
  simpl. rewrite Ht, length_nonEmpty.
  destruct (Turn.content t) as [|c r] eqn:E; [congruence|].
  simpl. rewrite IH. f_equal. destruct t; simpl in *. now rewrite E.
Qed.

Section Handler.
Context {R : Runtime} {cfg : Config} {P : Platform}.

(** The controller and the service compose without loss: for a request
    that the handler takes, the prompt that [streamChat] builds has the
    system prompt of the body, trimmed, or the default when the body has
    none or a blank one, and renders every turn that the handler kept, as
    the handler kept it; the second cleaning, in the service, changes
    nothing. *)
Theorem chat_prompt_of_request body req st :
  Controller.validate body = inr req ->
  buildPromptWithRetrieval (Controller.trimmedMessage req)
    (Controller.sanitizedHistory req) (Controller.sanitizedSystemPrompt req)
    (option_map (map Controller.service_document) (Controller.sanitizedDocuments req)) st
  = match prelude (Controller.trimmedMessage req)
            (option_map (map Controller.service_document)
               (Controller.sanitizedDocuments req)) st with
    | (Ok retrieval, st') =>
        (Ok ((match get body "systemPrompt" with
              | JStr sp => if nonEmpty (trim sp) then trim sp else defaultSystemPrompt
              | _ => defaultSystemPrompt
              end)
             ++ citation_instruction
             ++ documents_part (contextBlock retrieval)
             ++ [LF; LF] ++ lit "<conversation>" ++ [LF]
             ++ join [LF]
                  (map render_turn (Controller.sanitizedHistory req)
                   ++ [user_block (Controller.trimmedMessage req); open_assistant_block])
             ++ [LF] ++ lit "</conversation>",
             sources retrieval),
         st')
    | (Throw e, st') => (Throw e, st')
    | (Diverge, st') => (Diverge, st')
    end.
Proof.
  intros Hv. destruct (@validate_fields body req Hv) as [message [_ [_ [_ [Hh [Hs _]]]]]].
  destruct (sanitize_history_clean _ Hh) as [_ Hclean].
  unfold buildPromptWithRetrieval, prelude, bind.
  destruct (match option_map (map Controller.service_document)
                    (Controller.sanitizedDocuments req) with
            | Some (d :: ds) => indexDocuments (d :: ds)
            | _ => ret tt
            end st) as [[[]|e|] st1]; try reflexivity.
  destruct (retrieveContext (Controller.trimmedMessage req) 6 st1)
    as [[retrieval|e|] st2]; try reflexivity.
  unfold ret. cbv zeta. rewrite conversationBlock_transcript.
  unfold transcript. rewrite <- sanitize_kept, sanitize_clean by exact Hclean.
  unfold documents_part. rewrite <- !app_assoc.
  destruct (get body "systemPrompt") as [| | | |s| |]; simpl in Hs;
    try discriminate; injection Hs as Hs; rewrite <- Hs.
  - reflexivity.
  - rewrite length_nonEmpty.
    destruct (nonEmpty (trim s)) eqn:E; [|reflexivity].
    now rewrite trim_idem, E.
Qed.





End Handler.

(* ------------------------------------------------------------------ *)
(** ** More on the chunker *)

Lemma push_trims st : Forall trims (chunks st) -> Forall trims (chunks (push st)).
Proof.
  intros H. unfold push. destruct (buf st) as [|b bs]; [exact H|].
  remember (join [LF] (b :: bs)) as J. cbn [chunks].
  destruct (nonEmpty (trim J)); [|exact H].
  apply Forall_app. split; [exact H|]. repeat constructor. now exists J.
Qed.

Lemma step_trims maxLen overlap st line st' :
  Forall trims (chunks st) ->
  step maxLen overlap st line = Some st' ->
  Forall trims (chunks st').
Proof.
  intros H. unfold step.
  set (st1 := match match_heading line with
              | Some h1 => mkState (chunks (push st)) (buf (push st)) (Some (trim h1))
              | None => st end).
  assert (H1 : Forall trims (chunks st1)).
  { subst st1. destruct (match_heading line); [|exact H]. now apply push_trims. }
  clearbody st1.
  destruct (Z.of_nat (length (join [LF] (buf st1 ++ [line]))) >? maxLen + overlap)%Z.
  - destruct (slices (join [LF] (buf st1 ++ [line])) maxLen) as [parts|];
      [|discriminate].
    intros E; injection E as <-. simpl.
    apply Forall_app. split; [exact H1|].
    apply Forall_map. apply Forall_forall. intros p _. now exists p.
  - intros E; injection E as <-. exact H1.
Qed.

Lemma loop_trims maxLen overlap lines : forall st st',
  Forall trims (chunks st) ->
  loop maxLen overlap st lines = Some st' ->
  Forall trims (chunks st').
Proof.
  induction lines as [|line rest IH]; intros st st' H; simpl.
  - intros E; injection E as <-. exact H.
  - destruct (step maxLen overlap st line) as [st1|] eqn:Hs; [|discriminate].
    apply IH. eapply step_trims; eassumption.
Qed.

(** The text of a chunk neither starts nor ends with white space:
    trimming it changes nothing. *)
Theorem splitMarkdown_chunks_trimmed md maxLen overlap chunks :
  splitMarkdown md maxLen overlap = Some chunks ->
  Forall (fun c => trim (Markdown.text c) = Markdown.text c) chunks.
Proof.
  unfold splitMarkdown.
  destruct (loop maxLen overlap (mkState [] [] None) (split_lines md)) as [st|] eqn:Hl;
    [|discriminate].
  intros H; injection H as <-.
  assert (Hall : Forall trims (Markdown.chunks (push st))).
  { apply push_trims. eapply loop_trims; [|exact Hl]. constructor. }
  eapply Forall_impl; [|exact Hall].
  intros c [s Hs]. rewrite Hs. apply trim_idem.
Qed.

(** *** Texts that fit: no cut *)

Lemma weight_app l1 l2 : weight (l1 ++ l2) = (weight l1 + weight l2)%nat.
Proof. unfold weight. now rewrite map_app, list_sum_app. Qed.

Lemma length_join_LF l : l <> [] -> S (length (join [LF] l)) = weight l.
Proof.
  induction l as [|x l IH]; [congruence|]. intros _.
  destruct l as [|y l]; [unfold weight; simpl; lia|].
  change (join [LF] (x :: y :: l)) with (x ++ [LF] ++ join [LF] (y :: l)).
  rewrite !length_app. change (length [LF]) with 1%nat.
  change (weight (x :: y :: l)) with (S (length x) + weight (y :: l))%nat.
  rewrite <- IH by discriminate. lia.
Qed.

Lemma length_cons_hd c ls : ls <> [] -> weight (cons_hd c ls) = S (weight ls).
Proof. destruct ls as [|l ls]; [congruence|]. intros _. reflexivity. Qed.

Lemma weight_split_lines_len n : forall s,
  (length s <= n)%nat -> (weight (split_lines s) <= S (length s))%nat.
Proof.
  induction n as [|n IH]; intros s Hn.
  - destruct s; [unfold weight; simpl; lia | simpl in Hn; lia].
  - destruct s as [|c r]; [unfold weight; simpl; lia|].
    simpl in Hn. simpl split_lines.
    destruct (c =? LF)%N.
    + change (weight ([] :: split_lines r)) with (S (weight (split_lines r))).
      specialize (IH r). simpl length. lia.
    + destruct r as [|d r'].
      * unfold weight; simpl; lia.
      * destruct ((c =? CR)%N && (d =? LF)%N).
        -- change (weight ([] :: split_lines r')) with (S (weight (split_lines r'))).
           specialize (IH r'). simpl length in *. lia.
        -- rewrite length_cons_hd by apply split_lines_not_nil.
           specialize (IH (d :: r')). simpl length in *. lia.
Qed.

(** Joining the lines of a text gives a text that is not longer. *)
Lemma length_join_split_lines s :
  (length (join [LF] (split_lines s)) <= length s)%nat.
Proof.
  pose proof (@weight_split_lines_len (length s) s (Nat.le_refl _)) as H.
  rewrite <- length_join_LF in H by apply split_lines_not_nil. lia.
Qed.

Lemma push_solid st : Forall solid (chunks st) -> Forall solid (chunks (push st)).
Proof.
  intros H. unfold push. destruct (buf st) as [|b bs]; [exact H|].
  remember (join [LF] (b :: bs)) as J. cbn [chunks].
  destruct (nonEmpty (trim J)) eqn:E; [|exact H].
  apply Forall_app. split; [exact H|]. repeat constructor.
  unfold solid. simpl. now destruct (trim J).
Qed.

Lemma push_buf st : buf (push st) = [].
Proof. unfold push. now destruct (buf st) eqn:E. Qed.

(** While the buffer, with the lines still to come, fits the bound, the
    loop never cuts: it ends, and every chunk is one that a flush
    emitted. *)
Lemma loop_fits maxLen overlap lines : forall st,
  (Z.of_nat (weight (buf st ++ lines)) <= maxLen + overlap + 1)%Z ->
  Forall solid (chunks st) ->
  exists st',
    loop maxLen overlap st lines = Some st'
    /\ Forall solid (chunks st')
    /\ (Forall (fun l => match_heading l = None) lines ->
        st' = mkState (chunks st) (buf st ++ lines) (currentSection st)).
Proof.
  induction lines as [|line rest IH]; intros st Hw Hs.
  - exists st. simpl. repeat split; [exact Hs|]. intros _.
    rewrite app_nil_r. now destruct st.
  - simpl. unfold step.
    set (st1 := match match_heading line with
                | Some h1 => mkState (chunks (push st)) (buf (push st)) (Some (trim h1))
                | None => st end).
    assert (H1 : Forall solid (chunks st1)
                 /\ (weight (buf st1) <= weight (buf st))%nat).
    { subst st1. destruct (match_heading line); [|split; [exact Hs | lia]].
      simpl. rewrite push_buf. split; [now apply push_solid | unfold weight; simpl; lia]. }
    destruct H1 as [Hs1 Hw1].
    assert (Hfit : (Z.of_nat (weight ((buf st1 ++ [line]) ++ rest))
                    <= maxLen + overlap + 1)%Z).
    { rewrite <- app_assoc. simpl app.
      rewrite weight_app in Hw |- *. lia. }
    assert (Hno : (Z.of_nat (length (join [LF] (buf st1 ++ [line])))
                   >? maxLen + overlap)%Z = false).
    { rewrite Z.gtb_ltb. apply Z.ltb_ge.
      assert (Hne : buf st1 ++ [line] <> []) by (destruct (buf st1); discriminate).
      pose proof (length_join_LF Hne) as Hj.
      rewrite weight_app in Hfit. lia. }
    rewrite Hno.
    destruct (IH (mkState (chunks st1) (buf st1 ++ [line]) (currentSection st1)))
      as [st' [Hl [Hs' Hplain]]]; [exact Hfit | exact Hs1 |].
    exists st'. split; [exact Hl|]. split; [exact Hs'|].
    intros Hall. inversion Hall as [|? ? Hline Hrest]; subst.
    rewrite (Hplain Hrest). subst st1. rewrite Hline. simpl.
    now rewrite <- app_assoc.
Qed.

(** A text of at most [maxLen + overlap] code units is never cut:
    [splitMarkdown] returns, whatever [maxLen] is, and none of its chunks
    is empty. *)
Theorem splitMarkdown_fitting md maxLen overlap :
  (Z.of_nat (length md) <= maxLen + overlap)%Z ->
  exists chunks,
    splitMarkdown md maxLen overlap = Some chunks
    /\ Forall (fun c => Markdown.text c <> []) chunks.
Proof.
  intros Hfit. unfold splitMarkdown.
  destruct (@loop_fits maxLen overlap (split_lines md) (mkState [] [] None))
    as [st' [Hl [Hs _]]].
  - simpl. pose proof (length_join_split_lines md) as Hj.
    rewrite <- length_join_LF by apply split_lines_not_nil. lia.
  - constructor.
  - rewrite Hl. eexists; split; [reflexivity|]. now apply push_solid.
Qed.

(** A text of at most [maxLen + overlap] code units without a heading
    line and without CR LF is one chunk: the text, trimmed, under no
    section; or no chunk at all when the text is white space only. *)
Theorem splitMarkdown_single_chunk md maxLen overlap :
  (Z.of_nat (length md) <= maxLen + overlap)%Z ->
  Forall (fun l => match_heading l = None) (split_lines md) ->
  has_CRLF md = false ->
  splitMarkdown md maxLen overlap
  = Some (if nonEmpty (trim md) then [mkChunk (trim md) None] else []).
Proof.
  intros Hfit Hplain Hcr. unfold splitMarkdown.
  destruct (@loop_fits maxLen overlap (split_lines md) (mkState [] [] None))
    as [st' [Hl [_ Hst]]].
  - simpl. pose proof (length_join_split_lines md) as Hj.
    rewrite <- length_join_LF by apply split_lines_not_nil. lia.
  - constructor.
  - rewrite Hl, (Hst Hplain). simpl. unfold push. simpl.
    pose proof (split_lines_not_nil md) as Hne.
    destruct (split_lines md) as [|l ls] eqn:E; [congruence|].
    rewrite <- E, join_split_lines by exact Hcr.
    now destruct (nonEmpty (trim md)).
Qed.

(** *** Heading lines *)

Lemma leading_firstn p s : Forall (fun c => p c = true) (firstn (leading p s) s).
Proof.
  induction s as [|c s IH]; simpl; [constructor|].
  destruct (p c) eqn:E; simpl; [now constructor | constructor].
Qed.

Lemma firstn_le_Forall {A} (P : A -> Prop) (l : list A) n m :
  (n <= m)%nat -> Forall P (firstn m l) -> Forall P (firstn n l).
Proof.
  revert n m. induction l as [|x l IH]; intros n m Hle H.
  - rewrite firstn_nil. constructor.
  - destruct n as [|n]; [constructor|]. destruct m as [|m]; [lia|].
    simpl in *. inversion H; subst.
    constructor; [assumption|]. apply (IH n m); [lia | assumption].
Qed.

Lemma heading_tail_inv j : forall t capture,
  heading_tail j t = Some capture ->
  exists i,
    (1 <= i <= j)%nat /\ capture = skipn i t
    /\ capture <> []
    /\ forallb (fun c => negb (isLineTerminator c)) capture = true.
Proof.
  induction j as [|j IH]; intros t capture; [discriminate|].
  cbn [heading_tail]. remember (skipn (S j) t) as cap eqn:Hcap.
  destruct (nonEmpty cap && forallb (fun c => negb (isLineTerminator c)) cap) eqn:E.
  - intros H; injection H as <-. apply andb_true_iff in E as [E1 E2].
    exists (S j). split; [lia|]. split; [exact Hcap|]. split; [|exact E2].
    intros Hn. rewrite Hn in E1. discriminate.
  - intros H. destruct (IH _ _ H) as [i [Hi Hrest]]. exists i. split; [lia | exact Hrest].
Qed.

Lemma repeat_leading (c : N) s :
  firstn (leading (N.eqb c) s) s = repeat c (leading (N.eqb c) s).
Proof.
  induction s as [|d s IH]; simpl; [reflexivity|].
  destruct (c =? d)%N eqn:E; [|reflexivity].
  apply N.eqb_eq in E; subst d. simpl. now rewrite IH.
Qed.

(** What a heading line is made of: 2 to 6 hashes, and no more; then
    white space, at least one code unit of it; then the capture, which is
    not empty and holds no line terminator. The label of the section, the
    capture trimmed, is what follows the hashes, trimmed. *)
Theorem match_heading_parts line capture :
  match_heading line = Some capture ->
  exists n w,
    (2 <= n <= 6)%nat
    /\ n = leading (N.eqb HASH) line
    /\ w <> [] /\ allWhite w
    /\ line = repeat HASH n ++ w ++ capture
    /\ capture <> []
    /\ Forall (fun c => isLineTerminator c = false) capture
    /\ trim capture = trim (skipn n line).
Proof.
  unfold match_heading.
  set (n := leading (N.eqb HASH) line).
  destruct ((2 <=? n)%nat && (n <=? 6)%nat) eqn:En; [|discriminate].
  apply andb_true_iff in En as [E1 E2].
  apply Nat.leb_le in E1, E2.
  remember (skipn n line) as t eqn:Hskip.
  intros H. apply heading_tail_inv in H as [i [Hi [Hcap [Hne Hlt]]]].
  assert (Hw : allWhite (firstn i t)).
  { apply firstn_le_Forall with (m := leading isWhiteSpace t); [lia|].
    apply leading_firstn. }
  assert (Ht : t = firstn i t ++ capture) by (rewrite Hcap; symmetry; apply firstn_skipn).
  exists n, (firstn i t).
  split; [lia|]. split; [reflexivity|]. split; [|split; [exact Hw|]].
  { intros E. destruct t as [|c0 t'].
    - rewrite skipn_nil in Hcap. congruence.
    - destruct i as [|i]; [lia | discriminate E]. }
  split; [|split; [exact Hne|split]].
  - rewrite <- Ht, Hskip. unfold n. rewrite <- (repeat_leading HASH line).
    symmetry. apply firstn_skipn.
  - rewrite forallb_forall in Hlt. apply Forall_forall. intros c Hc.
    specialize (Hlt c Hc). now destruct (isLineTerminator c).
  - rewrite <- Hskip. rewrite Ht at 1. unfold trim. now rewrite trimStart_allWhite_app.
Qed.

Lemma leading_repeat_stop (c : N) n s :
  match s with d :: _ => (c =? d)%N = false | [] => True end ->
  leading (N.eqb c) (repeat c n ++ s) = n.
Proof.
  intros Hs. induction n as [|n IH]; cbn [repeat app leading].
  - destruct s as [|d s]; [reflexivity|]. cbn [leading]. now rewrite Hs.
  - now rewrite N.eqb_refl, IH.
Qed.

Lemma leading_allWhite_stop w s :
  allWhite w ->
  match s with d :: _ => isWhiteSpace d = false | [] => True end ->
  leading isWhiteSpace (w ++ s) = length w.
Proof.
  intros Hw Hs. induction Hw as [|c w Hc _ IH]; cbn [app leading length].
  - destruct s as [|d s]; [reflexivity|]. cbn [leading]. now rewrite Hs.
  - now rewrite Hc, IH.
Qed.

Lemma skipn_repeat_app {A} (x : A) n s : skipn n (repeat x n ++ s) = s.
Proof. induction n as [|n IH]; simpl; [reflexivity | exact IH]. Qed.

(** The lines that are headings: 2 to 6 hashes, white space, then a text
    that starts with a code unit that is not white space and holds no
    line terminator; the capture is that text. *)
Theorem match_heading_recognizes n w c title :
  (2 <= n <= 6)%nat ->
  w <> [] -> allWhite w ->
  isWhiteSpace c = false ->
  Forall (fun d => isLineTerminator d = false) (c :: title) ->
  match_heading (repeat HASH n ++ w ++ c :: title) = Some (c :: title).
Proof.
  intros Hn Hne Hw Hc Hlt. unfold match_heading.
  assert (Hhash : (HASH =? match w with d :: _ => d | [] => c end)%N = false).
  { destruct w as [|d w]; [congruence|]. inversion Hw as [|? ? Hd _]; subst.
    destruct (HASH =? d)%N eqn:E; [|reflexivity].
    apply N.eqb_eq in E; subst d. discriminate Hd. }
  rewrite leading_repeat_stop by (destruct w; [congruence | exact Hhash]).
  replace ((2 <=? n)%nat && (n <=? 6)%nat) with true
    by (symmetry; apply andb_true_iff; split; apply Nat.leb_le; lia).
  rewrite skipn_repeat_app, leading_allWhite_stop by assumption.
  destruct w as [|d w]; [congruence|].
  cbn [length heading_tail].
  change (skipn (S (length w)) ((d :: w) ++ c :: title))
    with (skipn (length w) (w ++ c :: title)).
  rewrite skipn_app, skipn_all, Nat.sub_diag. simpl skipn. cbn [app nonEmpty andb].
  replace (forallb (fun c0 => negb (isLineTerminator c0)) (c :: title)) with true;
    [reflexivity|].
  symmetry. apply forallb_forall. intros x Hx.
  rewrite Forall_forall in Hlt. now rewrite (Hlt x Hx).
Qed.

(* ------------------------------------------------------------------ *)
(** ** Concrete runs *)

(** C1. The generation backend streams the one line [{"error":"boom"}],
    which [JSON.parse] reads as a record whose [error] is ["boom"]:
    [streamChat] yields nothing and returns normally, where a generation
    error with message ["boom"] was due; [chat] returns the empty string. *)
Example streamChat_swallows_error_line :
  @JSON_parse Runs.boom_runtime Runs.boom_line = Some Runs.boom_record
  /\ get Runs.boom_record "error" = JStr (lit "boom")
  /\ fst (@streamChat Runs.boom_runtime Scripted.config
            (lit "hello") [] None None (@mkSt Runs.boom_runtime new_store 0%nat))
     = Return
  /\ fst (@chat Runs.boom_runtime Scripted.config
            (lit "hello") [] None None (@mkSt Runs.boom_runtime new_store 0%nat))
     = Ok [].
Proof. repeat split; vm_compute; reflexivity. Qed.

(** C5, as stated, fails: a line that parses to a record with a truthy
    [done] does not stop the decoder when the record also carries a truthy
    [error]. The error is tested first and thrown, the enclosing [catch]
    drops it before [done] is looked at, and the decoder reads on and
    yields the fragment of the next line. *)
Example read_lines_goes_on_after_error_done :
  @JSON_parse Runs.error_done_runtime Runs.error_done_line
    = Some Runs.error_done_record
  /\ truthy (get Runs.error_done_record "error") = true
  /\ truthy (get Runs.error_done_record "done") = true
  /\ @read_lines Runs.error_done_runtime [Runs.error_done_line; Runs.late_line]
     = Yield (JStr (lit "late")) Return.
Proof. repeat split; vm_compute; reflexivity. Qed.

Lemma read_lines_fragments_done_skip_witness :
  @read_lines Runs.hello_runtime
    [json_lit "{'response':'He'}"; json_lit "{'response':'llo'}";
     json_lit "{'done':true}"]
  = Yield (JStr (lit "He")) (Yield (JStr (lit "llo")) Return)
  /\ @read_lines Runs.hello_runtime [lit "not json"; json_lit "{'response':'He'}"]
     = @read_lines Runs.hello_runtime [json_lit "{'response':'He'}"]
  /\ @read_lines Runs.hello_runtime
       [lit "data: " ++ json_lit "{'response':'bye','done':true}";
        json_lit "{'response':'He'}"]
     = Yield (JStr (lit "bye")) Return.
Proof.
  destruct (@read_lines_fragments_done_skip Runs.hello_runtime) as [H1 [H2 H3]].
  split; [|split].
  - apply H1; reflexivity.
  - apply H2; reflexivity.
  - apply (H3 _ _ (obj [("response"%string, JStr (lit "bye"));
                                 ("done"%string, JBool true)]));
      reflexivity.
Defined.

(** A history of three turns, the second blank: the prompt has the two
    other turns, trimmed, each between the tags of its role, then the
    message. The store is empty, so no passage is quoted. *)
Lemma buildPrompt_renders_kept_history_witness :
  fst (@buildPromptWithRetrieval Backends.quiet_runtime Scripted.config
         (lit "hello") Requests.history None None
         (@mkSt Backends.quiet_runtime new_store 0%nat))
  = Ok (lit "Tu es un assistant IA utile et bienveillant." ++ [LF]
        ++ lit "Tu citeras les sources sous forme [n] qui correspondent aux blocs ci-dessous."
        ++ [LF; LF]
        ++ lit "<documents>" ++ [LF]
        ++ lit "Voici des passages pertinents issus de la base :" ++ [LF; LF]
        ++ [LF]
        ++ lit "</documents>" ++ [LF; LF]
        ++ lit "<conversation>" ++ [LF]
        ++ lit "<user>" ++ [LF] ++ lit "hi" ++ [LF] ++ lit "</user>" ++ [LF]
        ++ lit "<assistant>" ++ [LF] ++ lit "hello" ++ [LF] ++ lit "</assistant>" ++ [LF]
        ++ lit "<user>" ++ [LF] ++ lit "hello" ++ [LF] ++ lit "</user>" ++ [LF]
        ++ lit "<assistant>" ++ [LF]
        ++ [LF]
        ++ lit "</conversation>",
        []).
Proof.
  rewrite (@buildPrompt_renders_kept_history Backends.quiet_runtime Scripted.config).
  vm_compute. reflexivity.
Defined.


(** C10, as stated, fails: the index is empty, the embedding backend
    answers the query with an object without [embedding], and
    [retrieveContext] throws. *)
Example retrieveContext_empty_index_throws :
  items (vectorStore (@mkSt Backends.no_embedding_runtime new_store 0%nat)) = []
  /\ fst (@retrieveContext Backends.no_embedding_runtime Scripted.config (lit "q") 6
            (@mkSt Backends.no_embedding_runtime new_store 0%nat))
     = Throw invalid_embedding.
Proof. repeat split. Qed.

Lemma healthy_constant_embedding parses generated :
  @healthy_backend (Scripted.runtime parses Scripted.constant_embedding generated)
    Scripted.config.
Proof. intros t w. eexists; exists w. split; reflexivity. Qed.

Lemma retrieveContext_empty_index_witness :
  @retrieveContext Backends.quiet_runtime Scripted.config (lit "q") 6
    (@mkSt Backends.quiet_runtime new_store 0%nat)
  = (Ok (mkRetrieval [] []), @mkSt Backends.quiet_runtime new_store 0%nat).
Proof.
  destruct (@retrieveContext_empty_index Backends.quiet_runtime Scripted.config
              (lit "q") 6 (@mkSt Backends.quiet_runtime new_store 0%nat) eq_refl)
    as [_ [H _]].
  rewrite H. reflexivity.
Defined.

(** C2. One line of an [x], 2400 spaces and a [y], split with the
    parameters of [indexDocuments]: the forced split cuts it into three
    slices and emits the middle one, all spaces, as a chunk with the empty
    text. *)
Example splitMarkdown_emits_empty_chunk :
  splitMarkdown (lit "x" ++ repeat 32%N 2400 ++ lit "y") 1200 150
  = Some [mkChunk (lit "x") None; mkChunk [] None; mkChunk (lit "y") None].
Proof. vm_compute. reflexivity. Qed.

Lemma splitMarkdown_reconstructs_witness :
  exists chunks,
    splitMarkdown (lit "intro" ++ [LF] ++ lit "## T" ++ [CR; LF] ++ lit "body") 1200 150
    = Some chunks
    /\ nonWhite (concat (map Markdown.text chunks)) = lit "intro##Tbody".
Proof.
  destruct (@splitMarkdown_reconstructs
              (lit "intro" ++ [LF] ++ lit "## T" ++ [CR; LF] ++ lit "body") 1200 150)
    as [chunks [H1 [H2 _]]]; [reflexivity|].
  exists chunks. split; [exact H1 | exact H2].
Defined.

(** 25 documents of one chunk each, a healthy backend, an empty store: 20
    chunks are indexed. *)
Lemma indexDocuments_caps_witness :
  count (vectorStore
           (snd (@indexDocuments Backends.quiet_runtime Scripted.config Demo.documents
                   (@mkSt Backends.quiet_runtime new_store 0%nat))))
  = 20%nat.
Proof.
  destruct (@indexDocuments_caps Backends.quiet_runtime Scripted.config Demo.documents
              (@mkSt Backends.quiet_runtime new_store 0%nat))
    as [H1 [_ [H2 [_ H4]]]].
  destruct (H1 (H2 (@healthy_constant_embedding _ _))) as [ids [_ [_ [_ Hc]]]].
  rewrite Hc, H4; [reflexivity | reflexivity |].
  intros doc Hin. apply repeat_spec in Hin. subst doc. vm_compute. reflexivity.
Defined.

Example search_demo :
  @search Scripted.no_coercions Demo.store Demo.query 2
  = Ok [Demo.chunk "a" [1%float; 0%float]; Demo.chunk "c" [1%float; 0%float]].
Proof. vm_compute. reflexivity. Qed.

Lemma search_ranks_by_similarity_witness :
  exists ranked,
    @search Scripted.no_coercions Demo.store (map JNum Rankings.query) 2
    = Ok (take 2 ranked)
    /\ length (take 2 ranked) = Nat.min (Z.to_nat 2) (count Demo.store)
    /\ Permutation ranked (items Demo.store)
    /\ StronglySorted
         (fun h1 h2 =>
            PrimFloat.leb (score Rankings.query h2) (score Rankings.query h1) = true)
         ranked
    /\ (forall v,
          filter (fun h => PrimFloat.eqb (score Rankings.query h) v) ranked
          = filter (fun h => PrimFloat.eqb (score Rankings.query h) v)
              (items Demo.store)).
Proof.
  apply (@search_ranks_by_similarity Scripted.no_coercions Demo.store Rankings.query 2).
  - repeat constructor; eexists; split; reflexivity.
  - repeat constructor.
  - lia.
Defined.

(** C4, as stated, fails, in three ways. With [k = -1] on the store of
    three items, [search] returns two items, which is not [min(k, size)].
    A score that is NaN leaves the ranking out of order: the squares of
    the components of the query [[2^700; 0]] overflow, so the item with
    the very vector of the query scores [Infinity / Infinity], NaN, and
    [search] with [k = 1] returns the item that is orthogonal to the
    query. And so does a vector shorter than the query, whose missing
    component is [undefined]: the item of one component scores NaN and
    [search] with [k = 1] returns it, not the item with the vector of the
    query. (In both stores the comparator returns NaN on every pair of
    distinct items, which the sort reads as 0: the two items stay as they
    were inserted.) *)
Example search_unranked :
  (exists hits,
     @search Scripted.no_coercions Demo.store (map JNum Rankings.query) (-1) = Ok hits
     /\ Z.of_nat (length hits) = 2%Z
     /\ Z.min (-1) (Z.of_nat (count Demo.store)) = (-1)%Z)
  /\ (items Rankings.overflowing = [Rankings.far; Rankings.same]
      /\ vector Rankings.same = Some (map JNum Rankings.huge_query)
      /\ @cosine Scripted.no_coercions (map JNum Rankings.huge_query)
           (vector Rankings.far) = Ok 0%float
      /\ (exists x,
            @cosine Scripted.no_coercions (map JNum Rankings.huge_query)
              (vector Rankings.same) = Ok x
            /\ PrimFloat.is_nan x = true)
      /\ PrimFloat.is_nan (score Rankings.huge_query Rankings.same) = true
      /\ @search Scripted.no_coercions Rankings.overflowing
           (map JNum Rankings.huge_query) 1 = Ok [Rankings.far]
      /\ @search Scripted.no_coercions Rankings.overflowing
           (map JNum Rankings.huge_query) 2 = Ok [Rankings.far; Rankings.same])
  /\ (items Rankings.mixed = [Rankings.short; Rankings.full]
      /\ vector Rankings.full = Some (map JNum Rankings.unit_query)
      /\ (exists x,
            @cosine Scripted.no_coercions (map JNum Rankings.unit_query)
              (vector Rankings.short) = Ok x
            /\ PrimFloat.is_nan x = true)
      /\ (exists x,
            @cosine Scripted.no_coercions (map JNum Rankings.unit_query)
              (vector Rankings.full) = Ok x
            /\ PrimFloat.ltb 0x1.fffffp-1 x = true)
      /\ @search Scripted.no_coercions Rankings.mixed
           (map JNum Rankings.unit_query) 1 = Ok [Rankings.short]).
Proof.
  split; [eexists; repeat split; vm_compute; reflexivity|].
  split.
  - repeat split; try (vm_compute; reflexivity).
    eexists. split; vm_compute; reflexivity.
  - repeat split; try (vm_compute; reflexivity);
      eexists; split; vm_compute; reflexivity.
Qed.

(** The sign of a difference reads as the comparison of its terms on a
    sample of doubles: zeros, the least subnormal, neighbours of 1, the
    greatest finite double, infinities. *)
Example comparable_samples :
  comparable
    [0%float; (-0)%float; 0x1p-1074%float; (-0x1p-1074)%float; 1%float;
     0x1.0000000000001p+0%float; 0x1.fffffffffffffp-1%float; (-1)%float;
     0x1.fffffffffffffp+1023%float; (-0x1.fffffffffffffp+1023)%float;
     PrimFloat.infinity; PrimFloat.neg_infinity; 0x1.19799812dea11p-40%float].
Proof. apply comparableb_comparable. vm_compute. reflexivity. Qed.

Lemma indexDocuments_well_formed_witness :
  well_formed
    (vectorStore
       (snd (@indexDocuments Backends.quiet_runtime Scripted.config Demo.documents
               (@mkSt Backends.quiet_runtime new_store 0%nat)))).
Proof.
  apply (@indexDocuments_well_formed Backends.quiet_runtime Scripted.config).
  exact new_store_well_formed.
Defined.

Lemma splitMarkdown_chunk_size_witness :
  Forall (fun c => (Z.of_nat (length (Markdown.text c)) <= 2 + 1)%Z)
    [mkChunk (lit "a") None; mkChunk [] None; mkChunk (lit "b") None].
Proof.
  apply (@splitMarkdown_chunk_size (lit "a    b") 2 1); [lia | lia |].
  vm_compute. reflexivity.
Defined.

(** End to end: one document with the heading [## Intro] and a line of
    text is indexed, then its text is retrieved: the first source is the
    document, in section [Intro]. *)
Example retrieve_after_index_section :
  fst (@retrieveContext Backends.quiet_runtime Scripted.config
         (lit "Chunks are embedded.") 6
         (snd (@indexDocuments Backends.quiet_runtime Scripted.config
                 [Demo.intro_document]
                 (@mkSt Backends.quiet_runtime new_store 0%nat))))
  = Ok (mkRetrieval
          (lit "### [1] guide.md > Intro" ++ [LF] ++ lit "## Intro" ++ [LF]
           ++ lit "Chunks are embedded.")
          [Src.mk 1 (lit "guide.md") (Some (lit "Intro"))]).
Proof. vm_compute. reflexivity. Qed.

Lemma heading_labels_following_chunks_witness :
  exists before after,
    chunk_lines 1200 150 [lit "intro"] = Some before
    /\ [mkChunk (lit "intro") None;
        mkChunk (lit "## T  " ++ [LF] ++ lit "body") (Some (lit "T"))]
       = before ++ after
    /\ Forall (fun c => Markdown.section c = Some (trim (lit "T  "))) after.
Proof.
  apply (@heading_labels_following_chunks 1200 150 [lit "intro"] (lit "## T  ")
           (lit "T  ") [lit "body"]).
  - reflexivity.
  - repeat constructor.
  - vm_compute. reflexivity.
Defined.

(* ------------------------------------------------------------------ *)
(** ** More concrete runs *)

Lemma addMany_batches_witness :
  addMany
    (addMany new_store [info (Demo.chunk "a" [])] [[JNum 1%float; JNum 0%float]])
    [info (Demo.chunk "b" [])] [[JNum 0%float]]
  = addMany new_store
      ([info (Demo.chunk "a" [])] ++ [info (Demo.chunk "b" [])])
      ([[JNum 1%float; JNum 0%float]] ++ [[JNum 0%float]]).
Proof. apply addMany_batches. reflexivity. Defined.

Lemma search_returns_stored_witness :
  (exists rest,
     Permutation
       ([Demo.chunk "a" [1%float; 0%float]; Demo.chunk "c" [1%float; 0%float]] ++ rest)
       (items Demo.store))
  /\ ((0 <= 2)%Z -> 2%nat = Nat.min (Z.to_nat 2) (count Demo.store))
  /\ ((2 < 0)%Z -> 2%nat = (count Demo.store - Z.to_nat (- 2))%nat).
Proof.
  apply (@search_returns_stored Scripted.no_coercions Demo.store Demo.query 2).
  vm_compute. reflexivity.
Defined.

(** With [k = -1] the last item of the ranking is left out. *)
Example search_negative_k :
  @search Scripted.no_coercions Demo.store Demo.query (-1)
  = Ok [Demo.chunk "a" [1%float; 0%float]; Demo.chunk "c" [1%float; 0%float]].
Proof. vm_compute. reflexivity. Qed.

Lemma cosine_ignores_tail_witness :
  @cosine Scripted.no_coercions [JNum 1%float; JNum 2%float]
    (Some ([JNum 3%float; JNum 4%float] ++ [JNum 5%float]))
  = @cosine Scripted.no_coercions [JNum 1%float; JNum 2%float]
      (Some [JNum 3%float; JNum 4%float]).
Proof. apply cosine_ignores_tail. simpl. lia. Defined.

Lemma read_lines_data_prefix_witness :
  @read_lines Runs.hello_runtime
    [[] ++ lit "data:" ++ lit " " ++ json_lit "{'response':'He'}" ++ [CR]]
  = @read_lines Runs.hello_runtime [json_lit "{'response':'He'}"].
Proof.
  apply (@read_lines_data_prefix Runs.hello_runtime).
  - constructor.
  - repeat constructor.
  - repeat constructor.
  - split; [vm_compute; reflexivity | discriminate].
  - reflexivity.
Defined.

Lemma retrieveContext_numbers_sources_witness :
  exists hits rest,
    Permutation (hits ++ rest) (items Demo.store)
    /\ map Src.n (sources Requests.retrieved) = seq 1 (length hits)
    /\ map Src.filename (sources Requests.retrieved)
       = map (fun h => filename (meta (info h))) hits
    /\ map Src.section (sources Requests.retrieved)
       = map (fun h => section (meta (info h))) hits
    /\ ((0 <= 2)%Z -> (length hits <= Z.to_nat 2)%nat).
Proof.
  apply (@retrieveContext_numbers_sources Backends.quiet_runtime Scripted.config
           (lit "q") 2 (@mkSt Backends.quiet_runtime Demo.store 0%nat)).
  vm_compute. reflexivity.
Defined.

Example retrieved_sources :
  sources Requests.retrieved
  = [Src.mk 1 (lit "a.md") None; Src.mk 2 (lit "a.md") None].
Proof. vm_compute. reflexivity. Qed.

Lemma retrieval_cites_indexed_witness :
  length (sources Requests.cited)
  = Nat.min 6 (count new_store + length (plan [Demo.intro_document]))
  /\ Forall
       (fun src =>
          (exists x, In x (items new_store)
                     /\ Src.filename src = filename (meta (info x)))
          \/ (exists doc, In doc (take MAX_DOCS [Demo.intro_document])
                          /\ Src.filename src = Doc.name doc))
       (sources Requests.cited).
Proof.
  apply (@retrieval_cites_indexed Backends.quiet_runtime Scripted.config
           [Demo.intro_document] (lit "Chunks are embedded.")
           (@mkSt Backends.quiet_runtime new_store 0%nat)).
  - vm_compute. reflexivity.
  - vm_compute. reflexivity.
Defined.

(** A document of white space only: nothing is planned, nothing is
    sent. *)
Lemma indexDocuments_nothing_planned_witness :
  @indexDocuments Backends.no_embedding_runtime Scripted.config
    [Doc.mk (lit "d0") (lit "blank.md") 3 (lit "   ")]
    (@mkSt Backends.no_embedding_runtime new_store 0%nat)
  = (Ok tt, @mkSt Backends.no_embedding_runtime new_store 0%nat).
Proof. apply indexDocuments_nothing_planned. vm_compute. reflexivity. Defined.

(** The embedding of the message fails with the body
    [{ error: 'model not found' }]; and, on another backend, the
    generation request fails without a response. *)
Lemma streamChat_request_failure_witness :
  fst (@streamChat Requests.no_model_runtime Scripted.config (lit "hello")
         Requests.history None None (@mkSt Requests.no_model_runtime Demo.store 0%nat))
  = Raise (Error (lit "Ollama API request failed: model not found"))
  /\ fst (@chat Requests.unreachable_runtime Scripted.config (lit "hello")
            Requests.history None None
            (@mkSt Requests.unreachable_runtime Demo.store 0%nat))
     = Throw (Error (lit "Ollama API request failed: connect ECONNREFUSED 127.0.0.1:11434")).
Proof.
  split.
  - destruct (@streamChat_request_failure Requests.no_model_runtime Scripted.config
                (lit "hello") Requests.history None) as [H _].
    destruct (H (@mkSt Requests.no_model_runtime Demo.store 0%nat)
                (mkAxiosFailure (JStr (lit "model not found"))
                   (lit "Request failed with status code 404")) 0%nat eq_refl)
      as [Hs _].
    rewrite Hs. reflexivity.
  - destruct (@streamChat_request_failure Requests.unreachable_runtime Scripted.config
                (lit "hello") Requests.history None) as [_ H].
    edestruct (H None (@mkSt Requests.unreachable_runtime Demo.store 0%nat))
      as [_ Hc]; [reflexivity | reflexivity |].
    rewrite Hc. reflexivity.
Defined.

Example validate_request : Controller.validate Requests.body = inr Requests.request.
Proof. vm_compute. reflexivity. Qed.

Lemma validate_sanitizes_witness :
  clean (Controller.trimmedMessage Requests.request)
  /\ (length (Controller.sanitizedHistory Requests.request) <= 12)%nat
  /\ Forall (fun t => clean (Turn.content t)) (Controller.sanitizedHistory Requests.request)
  /\ (forall sp, Controller.sanitizedSystemPrompt Requests.request = Some sp -> clean sp)
  /\ (forall docs, Controller.sanitizedDocuments Requests.request = Some docs ->
        docs <> [] /\ Forall (fun d => clean (Controller.content d)) docs).
Proof.
  apply (@validate_sanitizes Requests.body). vm_compute. reflexivity.
Defined.

Lemma sanitize_history_window_witness :
  Controller.sanitize_history
    (JArr ([Requests.entry "user" "first"] ++ repeat (Requests.entry "user" "again") 12))
  = Controller.sanitize_history (JArr (repeat (Requests.entry "user" "again") 12)).
Proof. apply sanitize_history_window. reflexivity. Defined.

Lemma chat_prompt_of_request_witness :
  exists contextBlock st',
    @buildPromptWithRetrieval Backends.quiet_runtime Scripted.config (lit "hello")
      [Turn.mk Turn.user (lit "hi"); Turn.mk Turn.assistant (lit "hello")] None
      (Some [Doc.mk (lit "d1") (lit "a.md") 7 (lit "# Title")])
      (@mkSt Backends.quiet_runtime new_store 0%nat)
    = (Ok (lit "Tu es un assistant IA utile et bienveillant."
           ++ citation_instruction
           ++ @documents_part contextBlock
           ++ [LF; LF] ++ lit "<conversation>" ++ [LF]
           ++ join [LF]
                [lit "<user>" ++ [LF] ++ lit "hi" ++ [LF] ++ lit "</user>";
                 lit "<assistant>" ++ [LF] ++ lit "hello" ++ [LF] ++ lit "</assistant>";
                 lit "<user>" ++ [LF] ++ lit "hello" ++ [LF] ++ lit "</user>";
                 lit "<assistant>" ++ [LF]]
           ++ [LF] ++ lit "</conversation>",
           [Src.mk 1 (lit "a.md") None]),
       st').
Proof.
  pose proof (@chat_prompt_of_request Backends.quiet_runtime Scripted.config
                Requests.body Requests.request
                (@mkSt Backends.quiet_runtime new_store 0%nat)) as H.
  specialize (H ltac:(vm_compute; reflexivity)).
  destruct (@prelude Backends.quiet_runtime Scripted.config
              (Controller.trimmedMessage Requests.request)
              (option_map (map Controller.service_document)
                 (Controller.sanitizedDocuments Requests.request))
              (@mkSt Backends.quiet_runtime new_store 0%nat))
    as [[retrieval|e|] st'] eqn:Hp; [|vm_compute in Hp; discriminate ..].
  exists (contextBlock retrieval), st'.
  assert (Hs : sources retrieval = [Src.mk 1 (lit "a.md") None]).
  { vm_compute in Hp. injection Hp as <- _. reflexivity. }
  rewrite <- Hs. exact H.
Defined.

Lemma splitMarkdown_chunks_trimmed_witness :
  Forall (fun c => trim (Markdown.text c) = Markdown.text c)
    [mkChunk (lit "a") None; mkChunk [] None; mkChunk (lit "b") None].
Proof.
  apply (@splitMarkdown_chunks_trimmed (lit "a    b") 2 1). vm_compute. reflexivity.
Defined.

Lemma splitMarkdown_fitting_witness :
  exists chunks,
    splitMarkdown (lit "intro" ++ [LF] ++ lit "## T" ++ [LF] ++ [LF] ++ lit "body") 1200 150
    = Some chunks
    /\ Forall (fun c => Markdown.text c <> []) chunks.
Proof. apply splitMarkdown_fitting. simpl. lia. Defined.

Lemma splitMarkdown_single_chunk_witness :
  splitMarkdown (lit "  # Title" ++ [LF] ++ lit "body  ") 1200 150
  = Some (if nonEmpty (trim (lit "  # Title" ++ [LF] ++ lit "body  "))
          then [mkChunk (trim (lit "  # Title" ++ [LF] ++ lit "body  ")) None]
          else []).
Proof.
  apply splitMarkdown_single_chunk.
  - simpl. lia.
  - repeat constructor.
  - reflexivity.
Defined.

Lemma match_heading_parts_witness :
  exists n w,
    (2 <= n <= 6)%nat
    /\ n = leading (N.eqb HASH) (lit "##  Title ")
    /\ w <> [] /\ allWhite w
    /\ lit "##  Title " = repeat HASH n ++ w ++ lit "Title "
    /\ lit "Title " <> []
    /\ Forall (fun c => isLineTerminator c = false) (lit "Title ")
    /\ trim (lit "Title ") = trim (skipn n (lit "##  Title ")).
Proof. apply match_heading_parts. reflexivity. Defined.

Lemma match_heading_recognizes_witness :
  match_heading (repeat HASH 3 ++ lit " " ++ 84%N :: lit "itle") = Some (84%N :: lit "itle").
Proof.
  apply match_heading_recognizes.
  - lia.
  - discriminate.
  - repeat constructor.
  - reflexivity.
  - repeat constructor.
Defined.

(** Headings of level 1, and lines of seven hashes or more, are no
    headings for the chunker. *)
Example match_heading_levels :
  match_heading (lit "# Title") = None
  /\ match_heading (lit "####### Title") = None
  /\ match_heading (lit "##Title") = None
  /\ match_heading (lit "## ") = None
  /\ match_heading (lit "##   ") = Some (lit " ").
Proof. repeat split. Qed.
